(** * Togyz Kumalak: rules engine, text serialization and PUCT search

    A shallow embedding of [src/game/togyzkumalak.py], [src/game/encoding.py]
    and [src/mcts/search.py], with the properties of the specification
    stated and settled against it.

    Python integers are unbounded, hence [Z].  Python lists are [list]s read
    and written through [py_get] and [py_set], which reproduce Python's
    indexing (negative indices count from the end, anything else out of range
    raises [IndexError]).  The two-element outer lists [pits], [kazans] and
    [tuzdyk_indices], always indexed by the constants [WHITE] and [BLACK], are
    pairs indexed by a [player]; [player_to_move] only takes these two values.
    Exceptions are the [Raise] case of [result].  Strings are ASCII strings,
    floats are binary64 numbers, dictionaries are finite maps, or association
    lists where the order of insertion matters. *)

From Stdlib Require Import ZArith Lia Ascii String DecimalString DecimalPos DecimalZ.
From Stdlib Require Import PrimFloat Uint63 SpecFloat FloatOps FloatAxioms.
From stdpp Require Import base option list strings countable gmap sorting.

Local Open Scope Z_scope.

(** ** Exceptions *)

Inductive exn := ValueError | IndexError | KeyError | AssertionError.

Inductive result (A : Type) :=
| Ok (a : A)
| Raise (e : exn).
Arguments Ok {A} a.
Arguments Raise {A} e.

#[global] Instance result_ret : MRet result := fun _ a => Ok a.
#[global] Instance result_bind : MBind result := fun _ _ f r =>
  match r with
  | Ok a => f a
  | Raise e => Raise e
  end.
#[global] Instance result_fmap : FMap result := fun _ _ f r =>
  match r with
  | Ok a => Ok (f a)
  | Raise e => Raise e
  end.

(** ** Players and player-indexed pairs *)

Inductive player := WHITE | BLACK.

#[global] Instance player_eq_dec : EqDecision player.
Proof. solve_decision. Defined.

Definition opponent_of (p : player) : player :=
  if decide (p = WHITE) then BLACK else WHITE.

Definition sel {A : Type} (p : player) (x : A * A) : A :=
  match p with
  | WHITE => fst x
  | BLACK => snd x
  end.

Definition upd {A : Type} (p : player) (v : A) (x : A * A) : A * A :=
  match p with
  | WHITE => (v, snd x)
  | BLACK => (fst x, v)
  end.

(** ** Python list access *)

Definition py_index (len : nat) (i : Z) : option nat :=
  if (0 <=? i) && (i <? Z.of_nat len) then Some (Z.to_nat i)
  else if (i <? 0) && (- Z.of_nat len <=? i) then Some (Z.to_nat (Z.of_nat len + i))
  else None.

Definition py_get (l : list Z) (i : Z) : result Z :=
  match py_index (length l) i with
  | Some k =>
      match l !! k with
      | Some v => Ok v
      | None => Raise IndexError
      end
  | None => Raise IndexError
  end.

Definition py_set (l : list Z) (i : Z) (v : Z) : result (list Z) :=
  match py_index (length l) i with
  | Some k => Ok (<[k:=v]> l)
  | None => Raise IndexError
  end.

Definition sumZ (l : list Z) : Z := foldr Z.add 0 l.

Fixpoint enumerate_from (i : Z) (l : list Z) : list (Z * Z) :=
  match l with
  | [] => []
  | x :: l' => (i, x) :: enumerate_from (i + 1) l'
  end.

(** ** The game state *)

Record TogyzKumalakState := mkState {
  pits : list Z * list Z;
  kazans : Z * Z;
  tuzdyk_indices : option Z * option Z;
  player_to_move : player;
  move_number : Z
}.

Definition initial : TogyzKumalakState :=
  {| pits := (replicate 9 9, replicate 9 9);
     kazans := (0, 0);
     tuzdyk_indices := (None, None);
     player_to_move := WHITE;
     move_number := 1 |}.

Definition legal_moves (self : TogyzKumalakState) : list Z :=
  let side := player_to_move self in
  map fst (List.filter (fun '(_, stones) => 0 <? stones)
                       (enumerate_from 0 (sel side (pits self)))).

Definition has_legal_move (self : TogyzKumalakState) : bool :=
  existsb (fun stones => 0 <? stones) (sel (player_to_move self) (pits self)).

Definition is_terminal (self : TogyzKumalakState) : bool :=
  if (82 <=? sel WHITE (kazans self)) || (82 <=? sel BLACK (kazans self)) then true
  else if negb (has_legal_move self) then true
  else false.

Definition final_scores (self : TogyzKumalakState) : Z * Z :=
  let '(white_kazan, black_kazan) := kazans self in
  if (82 <=? sel WHITE (kazans self)) || (82 <=? sel BLACK (kazans self))
  then (white_kazan, black_kazan)
  else if negb (has_legal_move self) then
    let mover := player_to_move self in
    let opp := opponent_of mover in
    let remaining_opp := sumZ (sel opp (pits self)) in
    let remaining_mover := sumZ (sel mover (pits self)) in
    if decide (opp = WHITE)
    then (white_kazan + remaining_opp, black_kazan + remaining_mover)
    else (white_kazan + remaining_mover, black_kazan + remaining_opp)
  else (white_kazan, black_kazan).

Definition outcome (self : TogyzKumalakState) : option player :=
  if negb (is_terminal self) then None
  else
    let '(white_score, black_score) := final_scores self in
    if black_score <? white_score then Some WHITE
    else if white_score <? black_score then Some BLACK
    else None.

(** ** Move application *)

Definition cell : Type := player * Z.

Definition tuzdyk_owner_at (tuzdyk_indices : option Z * option Z)
    (side_idx : player) (local_index : Z) : option player :=
  if bool_decide (sel WHITE tuzdyk_indices ≠ None)
     && bool_decide (side_idx = BLACK)
     && bool_decide (sel WHITE tuzdyk_indices = Some local_index)
  then Some WHITE
  else if bool_decide (sel BLACK tuzdyk_indices ≠ None)
          && bool_decide (side_idx = WHITE)
          && bool_decide (sel BLACK tuzdyk_indices = Some local_index)
  then Some BLACK
  else None.

Definition next_pos (side_idx : player) (local_index : Z) : cell :=
  if local_index =? 8 then (opponent_of side_idx, 0)
  else (side_idx, local_index + 1).

Definition _can_create_tuzdyk (self : TogyzKumalakState) (mover : player)
    (opp_pit_index : Z) : bool :=
  let opp := opponent_of mover in
  if bool_decide (sel mover (tuzdyk_indices self) ≠ None) then false
  else if opp_pit_index =? 8 then false
  else if bool_decide (sel opp (tuzdyk_indices self) ≠ None)
          && bool_decide (sel opp (tuzdyk_indices self) = Some opp_pit_index)
  then false
  else true.

(** [pits[side][idx] += 1] *)
Definition pit_incr (pits : list Z * list Z) (side : player) (idx : Z)
    : result (list Z * list Z) :=
  v ← py_get (sel side pits) idx;
  row ← py_set (sel side pits) idx (v + 1);
  mret (upd side row pits).

(** [pits[side][idx] = 0] *)
Definition pit_clear (pits : list Z * list Z) (side : player) (idx : Z)
    : result (list Z * list Z) :=
  row ← py_set (sel side pits) idx 0;
  mret (upd side row pits).

(** The [while stones_to_sow > 0] loop.  The counter is the number of
    iterations left, which is exactly [stones_to_sow]. *)
Fixpoint sow_loop (tuzdyk_indices : option Z * option Z) (stones_to_sow : nat)
    (pits : list Z * list Z) (kazans : Z * Z) (cur last : cell)
    : result (list Z * list Z * (Z * Z) * cell) :=
  match stones_to_sow with
  | O => mret (pits, kazans, last)
  | S stones_to_sow' =>
      '(pits, kazans, last) ←
        match tuzdyk_owner_at tuzdyk_indices (fst cur) (snd cur) with
        | Some owner => mret (pits, upd owner (sel owner kazans + 1) kazans, last)
        | None =>
            pits ← pit_incr pits (fst cur) (snd cur);
            mret (pits, kazans, cur)
        end;
      let cur := match stones_to_sow' with
                 | O => cur
                 | S _ => next_pos (fst cur) (snd cur)
                 end in
      sow_loop tuzdyk_indices stones_to_sow' pits kazans cur last
  end.

(** Lines 131-178 of [apply_move]: the legality check, the lifting of the
    stones, the stone returned to the origin and the sowing. *)
Definition sow_phase (self : TogyzKumalakState) (pit_index : Z)
    : result (list Z * list Z * (Z * Z) * cell) :=
  let mover := player_to_move self in
  let pits := pits self in
  let kazans := kazans self in
  let tuzdyk_indices := tuzdyk_indices self in
  stones ← py_get (sel mover pits) pit_index;
  if stones <=? 0 then Raise ValueError
  else
    let stones_in_hand := stones in
    pits ← pit_clear pits mover pit_index;
    '(pits, stones_to_sow) ←
      (if 1 <? stones_in_hand
       then pits ← pit_incr pits mover pit_index; mret (pits, stones_in_hand - 1)
       else mret (pits, stones_in_hand));
    let cur := next_pos mover pit_index in
    sow_loop tuzdyk_indices (Z.to_nat stones_to_sow) pits kazans cur cur.

(** Lines 180-202 of [apply_move]: tuzdyk creation or capture at the last
    cell, and the construction of the successor. *)
Definition settle (self : TogyzKumalakState)
    (sown : list Z * list Z * (Z * Z) * cell) : result TogyzKumalakState :=
  let '(pits, kazans, (last_side, last_idx)) := sown in
  let mover := player_to_move self in
  let opp := opponent_of mover in
  let tuzdyk_indices := tuzdyk_indices self in
  '(pits, kazans, tuzdyk_indices) ←
    (if decide (last_side = opp) then
       match tuzdyk_owner_at tuzdyk_indices last_side last_idx with
       | None =>
           stones_there ← py_get (sel opp pits) last_idx;
           if (stones_there =? 3) && _can_create_tuzdyk self mover last_idx then
             let tuzdyk_indices := upd mover (Some last_idx) tuzdyk_indices in
             let kazans := upd mover (sel mover kazans + 3) kazans in
             pits ← pit_clear pits opp last_idx;
             mret (pits, kazans, tuzdyk_indices)
           else if (stones_there mod 2 =? 0) && (0 <? stones_there) then
             let kazans := upd mover (sel mover kazans + stones_there) kazans in
             pits ← pit_clear pits opp last_idx;
             mret (pits, kazans, tuzdyk_indices)
           else mret (pits, kazans, tuzdyk_indices)
       | Some _ => mret (pits, kazans, tuzdyk_indices)
       end
     else mret (pits, kazans, tuzdyk_indices));
  let next_player := opp in
  mret {| pits := pits;
          kazans := kazans;
          tuzdyk_indices := tuzdyk_indices;
          player_to_move := next_player;
          move_number := move_number self + 1 |}.

Definition apply_move (self : TogyzKumalakState) (pit_index : Z)
    : result TogyzKumalakState :=
  sown ← sow_phase self pit_index;
  settle self sown.

Definition total_seeds (s : TogyzKumalakState) : Z :=
  sumZ (fst (pits s)) + sumZ (snd (pits s)) + fst (kazans s) + snd (kazans s).

Definition well_shaped (s : TogyzKumalakState) : Prop :=
  length (fst (pits s)) = 9%nat ∧ length (snd (pits s)) = 9%nat.

(** ** Arithmetic of Python list access *)

Lemma py_index_lt len i k : py_index len i = Some k → (k < len)%nat.
Proof.
  unfold py_index. intros H.
  destruct ((0 <=? i) && (i <? Z.of_nat len)) eqn:E1.
  - apply andb_true_iff in E1 as [? ?]. inversion H; subst. lia.
  - destruct ((i <? 0) && (- Z.of_nat len <=? i)) eqn:E2; [|discriminate].
    apply andb_true_iff in E2 as [? ?]. inversion H; subst. lia.
Qed.

Lemma py_index_in_range len i :
  0 <= i < Z.of_nat len → py_index len i = Some (Z.to_nat i).
Proof.
  intros H. unfold py_index.
  replace ((0 <=? i) && (i <? Z.of_nat len)) with true; [done|].
  symmetry. apply andb_true_iff. lia.
Qed.

Lemma py_get_in_range l i :
  0 <= i < Z.of_nat (length l) → ∃ v, py_get l i = Ok v ∧ l !! Z.to_nat i = Some v.
Proof.
  intros H. unfold py_get. rewrite py_index_in_range by done.
  destruct (lookup_lt_is_Some_2 l (Z.to_nat i)) as [v Hv]; [lia|].
  rewrite Hv. eauto.
Qed.

Lemma py_set_in_range l i v :
  0 <= i < Z.of_nat (length l) → py_set l i v = Ok (<[Z.to_nat i:=v]> l).
Proof. intros H. unfold py_set. by rewrite py_index_in_range. Qed.

Lemma py_set_length l i v l' : py_set l i v = Ok l' → length l' = length l.
Proof.
  unfold py_set. destruct (py_index _ _); [|discriminate].
  intros [= <-]. apply length_insert.
Qed.

Lemma sumZ_insert (l : list Z) k x v :
  l !! k = Some x → sumZ (<[k:=v]> l) = sumZ l - x + v.
Proof.
  revert k. induction l as [|y l IH]; intros [|k] H; simpl in *; try discriminate.
  - inversion H; subst. lia.
  - rewrite (IH k H). lia.
Qed.

Lemma py_get_set_sum l i x v l' :
  py_get l i = Ok x → py_set l i v = Ok l' → sumZ l' = sumZ l - x + v.
Proof.
  unfold py_get, py_set. destruct (py_index _ _) as [k|]; [|discriminate].
  destruct (l !! k) eqn:E; [|discriminate].
  intros [= <-] [= <-]. by apply sumZ_insert.
Qed.

Lemma py_set_Forall (P : Z → Prop) l i v l' :
  Forall P l → P v → py_set l i v = Ok l' → Forall P l'.
Proof.
  unfold py_set. destruct (py_index _ _); [|discriminate].
  intros Hl Hv [= <-]. by apply Forall_insert.
Qed.

Lemma py_get_Forall (P : Z → Prop) l i x : Forall P l → py_get l i = Ok x → P x.
Proof.
  unfold py_get. destruct (py_index _ _) as [k|]; [|discriminate].
  destruct (l !! k) eqn:E; [|discriminate].
  intros Hl [= <-]. by eapply Forall_lookup_1.
Qed.

(** ** The board as a pair of rows *)

Definition board_sum (p : list Z * list Z) : Z := sumZ (fst p) + sumZ (snd p).
Definition kazan_sum (k : Z * Z) : Z := fst k + snd k.
Definition rows9 (p : list Z * list Z) : Prop :=
  length (fst p) = 9%nat ∧ length (snd p) = 9%nat.
Definition same_shape (p p' : list Z * list Z) : Prop :=
  length (fst p') = length (fst p) ∧ length (snd p') = length (snd p).
Definition rows_nonneg (p : list Z * list Z) : Prop :=
  Forall (Z.le 0) (fst p) ∧ Forall (Z.le 0) (snd p).

Lemma kazan_sum_upd p v k : kazan_sum (upd p v k) = kazan_sum k - sel p k + v.
Proof. destruct p, k; unfold kazan_sum; simpl; lia. Qed.

Lemma sel_upd_eq {A} p (v : A) x : sel p (upd p v x) = v.
Proof. by destruct p. Qed.

Lemma pit_incr_spec p side idx p' :
  pit_incr p side idx = Ok p' →
  board_sum p' = board_sum p + 1 ∧ same_shape p p' ∧
  (rows_nonneg p → rows_nonneg p') ∧
  ∃ v, py_get (sel side p) idx = Ok v ∧ py_get (sel side p') idx = Ok (v + 1).
Proof.
  unfold pit_incr. destruct (py_get _ _) as [v|] eqn:Hg; [|discriminate].
  simpl. destruct (py_set _ _ _) as [row|] eqn:Hs; [|discriminate].
  simpl. intros [= <-].
  pose proof (py_get_set_sum _ _ _ _ _ Hg Hs) as Hsum.
  pose proof (py_set_length _ _ _ _ Hs) as Hlen.
  split; [|split; [|split]].
  - destruct side, p; unfold board_sum; simpl in *; lia.
  - destruct side, p; split; simpl in *; congruence.
  - intros [H1 H2]. assert (0 <= v + 1).
    { destruct side; simpl in Hg;
        [apply (py_get_Forall _ _ _ _ H1) in Hg | apply (py_get_Forall _ _ _ _ H2) in Hg]; lia. }
    destruct side, p; split; simpl in *; try assumption;
      (eapply py_set_Forall; [| |exact Hs]; [assumption|lia]).
  - exists v. split; [done|]. rewrite sel_upd_eq.
    revert Hg Hs. unfold py_get, py_set.
    destruct (py_index _ _) as [k|] eqn:Hk; [|discriminate].
    intros _ [= <-]. rewrite length_insert, Hk.
    rewrite list_lookup_insert_eq; [done|]. by eapply py_index_lt.
Qed.

Lemma pit_clear_spec p side idx p' v :
  py_get (sel side p) idx = Ok v →
  pit_clear p side idx = Ok p' →
  board_sum p' = board_sum p - v ∧ same_shape p p' ∧
  (rows_nonneg p → rows_nonneg p') ∧
  py_get (sel side p') idx = Ok 0.
Proof.
  unfold pit_clear. intros Hg. destruct (py_set _ _ _) as [row|] eqn:Hs; [|discriminate].
  simpl. intros [= <-].
  pose proof (py_get_set_sum _ _ _ _ _ Hg Hs) as Hsum.
  pose proof (py_set_length _ _ _ _ Hs) as Hlen.
  split; [|split; [|split]].
  - destruct side, p; unfold board_sum; simpl in *; lia.
  - destruct side, p; split; simpl in *; congruence.
  - intros [H1 H2]. destruct side, p; split; simpl in *; try assumption;
      (eapply py_set_Forall; [| |exact Hs]; [assumption|lia]).
  - rewrite sel_upd_eq. revert Hg Hs. unfold py_get, py_set.
    destruct (py_index _ _) as [k|] eqn:Hk; [|discriminate].
    intros _ [= <-]. rewrite length_insert, Hk.
    rewrite list_lookup_insert_eq; [done|]. by eapply py_index_lt.
Qed.

Lemma same_shape_refl p : same_shape p p.
Proof. by split. Qed.

Lemma same_shape_trans p q r : same_shape p q → same_shape q r → same_shape p r.
Proof. intros [? ?] [? ?]. split; congruence. Qed.

Lemma same_shape_rows9 p q : same_shape p q → rows9 p → rows9 q.
Proof. intros [? ?] [? ?]. split; congruence. Qed.

(** ** The sowing loop *)

Definition in_row (c : cell) : Prop := 0 <= snd c <= 8.

Lemma next_pos_in_row side idx : 0 <= idx <= 8 → in_row (next_pos side idx).
Proof.
  intros H. unfold next_pos, in_row. destruct (idx =? 8) eqn:E; simpl; lia.
Qed.

Lemma pit_incr_ok p side idx :
  rows9 p → 0 <= idx <= 8 → ∃ p', pit_incr p side idx = Ok p'.
Proof.
  intros [H1 H2] Hi. unfold pit_incr.
  assert (Hlen : length (sel side p) = 9%nat) by (by destruct side).
  destruct (py_get_in_range (sel side p) idx) as (v & -> & _); [lia|].
  simpl. rewrite py_set_in_range by lia. simpl. eauto.
Qed.

Lemma sow_loop_spec tuz n : ∀ p k cur last p' k' last',
  sow_loop tuz n p k cur last = Ok (p', k', last') →
  board_sum p' + kazan_sum k' = board_sum p + kazan_sum k + Z.of_nat n
  ∧ same_shape p p' ∧ (rows_nonneg p → rows_nonneg p').
Proof.
  induction n as [|n IH]; intros p k cur last p' k' last'; simpl.
  - intros [= <- <- <-]. split; [lia|]. split; [apply same_shape_refl|done].
  - destruct (tuzdyk_owner_at tuz cur.1 cur.2) as [owner|]; simpl.
    + intros H. apply IH in H as (Hs & Hsh & Hnn).
      rewrite kazan_sum_upd in Hs. split; [lia|done].
    + destruct (pit_incr p cur.1 cur.2) as [p1|] eqn:Hp; [|discriminate]. simpl.
      intros H. apply IH in H as (Hs & Hsh & Hnn).
      apply pit_incr_spec in Hp as (Hb & Hsh1 & Hnn1 & _).
      split; [lia|]. split; [by eapply same_shape_trans|auto].
Qed.

Lemma sow_loop_ok tuz n : ∀ p k cur last,
  rows9 p → in_row cur → in_row last →
  ∃ p' k' last', sow_loop tuz n p k cur last = Ok (p', k', last') ∧ in_row last'.
Proof.
  induction n as [|n IH]; intros p k cur last Hp Hc Hl; simpl; [by eauto 6|].
  assert (Hnext : in_row (match n with O => cur | S _ => next_pos cur.1 cur.2 end)).
  { destruct n; [done|]. by apply next_pos_in_row. }
  destruct (tuzdyk_owner_at tuz cur.1 cur.2) as [owner|]; simpl.
  - by apply IH.
  - destruct (pit_incr_ok p cur.1 cur.2 Hp Hc) as [p1 Hp1]. rewrite Hp1. simpl.
    apply IH; [|done..]. apply pit_incr_spec in Hp1 as (_ & Hsh & _).
    by eapply same_shape_rows9.
Qed.

(** The cells visited by the sowing, in order, and the last of them whose
    pit count is incremented (a stone dropped on a tuzdyk is credited to its
    owner's kazan and increments nothing). *)
Fixpoint ring_walk (n : nat) (c : cell) : list cell :=
  match n with
  | O => []
  | S n' => c :: ring_walk n' (next_pos (fst c) (snd c))
  end.

Definition incremented (tuz : option Z * option Z) (c : cell) : bool :=
  match tuzdyk_owner_at tuz (fst c) (snd c) with
  | None => true
  | Some _ => false
  end.

Definition last_incremented (tuz : option Z * option Z) (cells : list cell) : option cell :=
  last (List.filter (incremented tuz) cells).

Lemma last_cons_Some {A} (l : list A) : ∀ x, last (x :: l) = Some (default x (last l)).
Proof.
  induction l as [|y l IH]; intros x; [done|].
  change (last (x :: y :: l)) with (last (y :: l)). by rewrite !IH.
Qed.

Lemma last_cons_default {A} (x : A) l d : default d (last (x :: l)) = default x (last l).
Proof. by rewrite last_cons_Some. Qed.

Lemma sow_loop_last tuz n : ∀ p k cur last p' k' last',
  sow_loop tuz n p k cur last = Ok (p', k', last') →
  last' = default last (last_incremented tuz (ring_walk n cur)).
Proof.
  induction n as [|n IH]; intros p k cur last p' k' last'; simpl.
  - by intros [= _ _ <-].
  - unfold last_incremented. simpl. unfold incremented at 1.
    destruct (tuzdyk_owner_at tuz cur.1 cur.2) as [owner|]; simpl.
    + intros H. apply IH in H. destruct n; [done|]. exact H.
    + destruct (pit_incr p cur.1 cur.2) as [p1|]; [|discriminate]. simpl.
      intros H. apply IH in H. rewrite last_cons_default.
      destruct n; [done|]. exact H.
Qed.

(** ** Legal moves *)

Lemma In_enumerate_from l : ∀ i a v,
  In (a, v) (enumerate_from i l) ↔ ∃ k : nat, a = i + Z.of_nat k ∧ l !! k = Some v.
Proof.
  induction l as [|x l IH]; intros i a v; simpl.
  - split; [done|]. by intros (k & _ & ?).
  - rewrite IH. split.
    + intros [[= <- <-]|(k & -> & Hk)].
      * exists 0%nat. split; [lia|done].
      * exists (S k). split; [lia|done].
    + intros ([|k] & -> & Hk); simpl in Hk.
      * left. inversion Hk. f_equal. lia.
      * right. exists k. split; [lia|done].
Qed.

Lemma legal_moves_spec self a :
  In a (legal_moves self) ↔
  ∃ (k : nat) v, a = Z.of_nat k ∧ sel (player_to_move self) (pits self) !! k = Some v ∧ 0 < v.
Proof.
  unfold legal_moves. rewrite in_map_iff. split.
  - intros ([a' v] & Ha & Hin). simpl in Ha. subst a'.
    apply filter_In in Hin as [Hin Hv].
    apply In_enumerate_from in Hin as (k & -> & Hk).
    exists k, v. split; [lia|]. split; [done|lia].
  - intros (k & v & -> & Hk & Hv). exists (Z.of_nat k, v). split; [done|].
    apply filter_In. split; [|lia].
    apply In_enumerate_from. exists k. split; [lia|done].
Qed.

Lemma legal_move_get self a :
  In a (legal_moves self) →
  0 <= a < Z.of_nat (length (sel (player_to_move self) (pits self)))
  ∧ ∃ v, py_get (sel (player_to_move self) (pits self)) a = Ok v ∧ 0 < v.
Proof.
  intros (k & v & -> & Hk & Hv)%legal_moves_spec.
  pose proof (lookup_lt_Some _ _ _ Hk) as Hlt.
  split; [lia|]. exists v. split; [|done].
  unfold py_get. rewrite py_index_in_range by lia. by rewrite Nat2Z.id, Hk.
Qed.

(** ** Seed conservation through [apply_move] *)

Lemma sow_phase_spec self a p1 k1 last :
  sow_phase self a = Ok (p1, k1, last) →
  board_sum p1 + kazan_sum k1 = board_sum (pits self) + kazan_sum (kazans self)
  ∧ same_shape (pits self) p1
  ∧ (rows_nonneg (pits self) → rows_nonneg p1).
Proof.
  unfold sow_phase.
  destruct (py_get _ a) as [n|] eqn:Hn; [|discriminate]. simpl.
  destruct (n <=? 0) eqn:Hpos; [discriminate|].
  destruct (pit_clear _ _ a) as [p0|] eqn:Hc; [|discriminate]. simpl.
  apply (pit_clear_spec _ _ _ _ _ Hn) in Hc as (Hb0 & Hsh0 & Hnn0 & Hz).
  destruct (1 <? n) eqn:Hone.
  - destruct (pit_incr p0 _ a) as [p0'|] eqn:Hi; [|discriminate]. simpl.
    apply pit_incr_spec in Hi as (Hb1 & Hsh1 & Hnn1 & _).
    intros (Hs & Hsh & Hnn)%sow_loop_spec.
    split; [lia|]. split; [eauto using same_shape_trans|auto].
  - simpl. intros (Hs & Hsh & Hnn)%sow_loop_spec.
    split; [lia|]. split; [eauto using same_shape_trans|auto].
Qed.

Lemma settle_spec self p1 k1 last s' :
  settle self (p1, k1, last) = Ok s' →
  board_sum (pits s') + kazan_sum (kazans s') = board_sum p1 + kazan_sum k1
  ∧ same_shape p1 (pits s')
  ∧ (rows_nonneg p1 → rows_nonneg (pits s'))
  ∧ player_to_move s' = opponent_of (player_to_move self)
  ∧ move_number s' = move_number self + 1.
Proof.
  unfold settle. destruct last as [last_side last_idx].
  set (mover := player_to_move self). set (opp := opponent_of mover).
  destruct (decide (last_side = opp)) as [->|Hne].
  2:{ simpl. intros [= <-]. simpl. auto using same_shape_refl. }
  destruct (tuzdyk_owner_at _ opp last_idx).
  { simpl. intros [= <-]. simpl. auto using same_shape_refl. }
  destruct (py_get (sel opp p1) last_idx) as [c|] eqn:Hc; [|discriminate]. simpl.
  destruct ((c =? 3) && _can_create_tuzdyk self mover last_idx) eqn:Htuz.
  - destruct (pit_clear p1 opp last_idx) as [p2|] eqn:Hp2; [|discriminate]. simpl.
    intros [= <-]. simpl.
    apply (pit_clear_spec _ _ _ _ _ Hc) in Hp2 as (Hb & Hsh & Hnn & _).
    apply andb_true_iff in Htuz as [Hc3 _].
    rewrite kazan_sum_upd. repeat split; try done; try apply Hsh; try apply Hnn; try done; lia.
  - destruct ((c mod 2 =? 0) && (0 <? c)) eqn:Hev.
    + destruct (pit_clear p1 opp last_idx) as [p2|] eqn:Hp2; [|discriminate]. simpl.
      intros [= <-]. simpl.
      apply (pit_clear_spec _ _ _ _ _ Hc) in Hp2 as (Hb & Hsh & Hnn & _).
      rewrite kazan_sum_upd. repeat split; try done; try apply Hsh; try apply Hnn; try done; lia.
    + simpl. intros [= <-]. simpl. auto using same_shape_refl.
Qed.

Lemma total_seeds_split s : total_seeds s = board_sum (pits s) + kazan_sum (kazans s).
Proof. unfold total_seeds, board_sum, kazan_sum. lia. Qed.

Lemma apply_move_conserves self a s' :
  apply_move self a = Ok s' → total_seeds s' = total_seeds self.
Proof.
  unfold apply_move. destruct (sow_phase self a) as [[[p1 k1] last]|] eqn:Hs; [|discriminate].
  simpl. intros Hf. apply sow_phase_spec in Hs as (H1 & _).
  apply settle_spec in Hf as (H2 & _). rewrite !total_seeds_split. lia.
Qed.

Lemma sow_phase_ok self a :
  rows9 (pits self) → In a (legal_moves self) →
  ∃ p1 k1 last, sow_phase self a = Ok (p1, k1, last) ∧ in_row last.
Proof.
  intros Hsh Hleg. set (mover := player_to_move self).
  assert (Hlen : length (sel mover (pits self)) = 9%nat).
  { destruct Hsh. by destruct mover. }
  destruct (legal_move_get _ _ Hleg) as (Ha & n & Hn & Hpos). fold mover in Ha, Hn.
  rewrite Hlen in Ha. unfold sow_phase. fold mover. rewrite Hn. simpl.
  replace (n <=? 0) with false by lia.
  unfold pit_clear at 1. rewrite py_set_in_range by lia. simpl.
  set (p0 := upd mover _ (pits self)).
  assert (Hp0 : rows9 p0).
  { destruct Hsh. subst p0. destruct mover; split; simpl; rewrite ?length_insert; done. }
  pose proof (next_pos_in_row mover a ltac:(lia)) as Hcur.
  destruct (1 <? n).
  - destruct (pit_incr_ok p0 mover a Hp0 ltac:(lia)) as [p0' Hp0']. rewrite Hp0'. simpl.
    apply sow_loop_ok; [|done..]. apply pit_incr_spec in Hp0' as (_ & Hs & _).
    by eapply same_shape_rows9.
  - simpl. by apply sow_loop_ok.
Qed.

Lemma settle_ok self p1 k1 last :
  rows9 p1 → in_row last → ∃ s', settle self (p1, k1, last) = Ok s'.
Proof.
  intros Hsh Hl. unfold settle. destruct last as [last_side last_idx].
  set (mover := player_to_move self). set (opp := opponent_of mover).
  assert (Hlen : length (sel opp p1) = 9%nat) by (destruct Hsh; by destruct opp).
  unfold in_row in Hl. simpl in Hl.
  destruct (decide (last_side = opp)); [|by simpl; eauto].
  destruct (tuzdyk_owner_at _ _ _); [by simpl; eauto|].
  destruct (py_get_in_range (sel opp p1) last_idx) as (c & -> & _); [lia|]. simpl.
  unfold pit_clear. rewrite py_set_in_range by lia. simpl.
  destruct (_ && _); [by simpl; eauto|]. destruct (_ && _); simpl; eauto.
Qed.

Lemma apply_move_ok self a :
  well_shaped self → In a (legal_moves self) → ∃ s', apply_move self a = Ok s'.
Proof.
  intros Hsh Hleg. unfold apply_move.
  destruct (sow_phase_ok self a Hsh Hleg) as (p1 & k1 & last & Hs & Hl).
  rewrite Hs. simpl. apply settle_ok; [|done].
  apply sow_phase_spec in Hs as (_ & Hshape & _). by eapply same_shape_rows9.
Qed.

(** ** What the legality check of [apply_move] lets through

    On rows of nine pits Python accepts the indices -9..8.  [apply_move] runs
    to its end on each of them whose pit is not empty, raises [ValueError] on
    each whose pit is empty, and raises [IndexError] on every other index. *)

Definition in_ring (c : cell) : Prop := -9 <= snd c <= 8.

Lemma py_index_valid len i :
  - Z.of_nat len <= i < Z.of_nat len → ∃ k, py_index len i = Some k ∧ (k < len)%nat.
Proof.
  intros H. unfold py_index. destruct (Z.ltb_spec i 0) as [Hneg|Hpos].
  - replace ((0 <=? i) && (i <? Z.of_nat len)) with false by lia.
    replace (- Z.of_nat len <=? i) with true by lia. simpl. eexists. split; [done|lia].
  - replace (0 <=? i) with true by lia. replace (i <? Z.of_nat len) with true by lia.
    simpl. eexists. split; [done|lia].
Qed.

Lemma py_index_invalid len i :
  i < - Z.of_nat len ∨ Z.of_nat len <= i → py_index len i = None.
Proof.
  intros H. unfold py_index.
  replace ((0 <=? i) && (i <? Z.of_nat len)) with false by lia.
  by replace ((i <? 0) && (- Z.of_nat len <=? i)) with false by lia.
Qed.

Lemma py_get_valid l i :
  - Z.of_nat (length l) <= i < Z.of_nat (length l) → ∃ v, py_get l i = Ok v.
Proof.
  intros (k & Hk & Hlt)%py_index_valid. unfold py_get. rewrite Hk.
  destruct (lookup_lt_is_Some_2 l k Hlt) as [v ->]. eauto.
Qed.

Lemma py_set_valid l i v :
  - Z.of_nat (length l) <= i < Z.of_nat (length l) → ∃ l', py_set l i v = Ok l'.
Proof. intros (k & Hk & Hlt)%py_index_valid. unfold py_set. rewrite Hk. eauto. Qed.

Lemma pit_incr_ring p side idx :
  rows9 p → -9 <= idx <= 8 → ∃ p', pit_incr p side idx = Ok p'.
Proof.
  intros [H1 H2] Hi. unfold pit_incr.
  assert (Hlen : length (sel side p) = 9%nat) by (by destruct side).
  destruct (py_get_valid (sel side p) idx) as [v ->]; [lia|]. simpl.
  destruct (py_set_valid (sel side p) idx (v + 1)) as [row ->]; [lia|]. simpl. eauto.
Qed.

Lemma pit_clear_ring p side idx :
  rows9 p → -9 <= idx <= 8 → ∃ p', pit_clear p side idx = Ok p' ∧ rows9 p'.
Proof.
  intros [H1 H2] Hi. unfold pit_clear.
  assert (Hlen : length (sel side p) = 9%nat) by (by destruct side).
  destruct (py_set_valid (sel side p) idx 0) as [row Hrow]; [lia|]. rewrite Hrow. simpl.
  eexists. split; [done|]. apply py_set_length in Hrow.
  destruct side; split; simpl in *; congruence.
Qed.

Lemma next_pos_in_ring side idx : -9 <= idx <= 8 → in_ring (next_pos side idx).
Proof.
  intros H. unfold next_pos, in_ring. destruct (idx =? 8) eqn:E; simpl; lia.
Qed.

Lemma sow_loop_ring tuz n : ∀ p k cur last,
  rows9 p → in_ring cur → in_ring last →
  ∃ p' k' last', sow_loop tuz n p k cur last = Ok (p', k', last')
                 ∧ rows9 p' ∧ in_ring last'.
Proof.
  induction n as [|n IH]; intros p k cur last Hp Hc Hl; simpl; [by eauto 7|].
  assert (Hnext : in_ring (match n with O => cur | S _ => next_pos cur.1 cur.2 end)).
  { destruct n; [done|]. by apply next_pos_in_ring. }
  destruct (tuzdyk_owner_at tuz cur.1 cur.2) as [owner|]; simpl.
  - by apply IH.
  - destruct (pit_incr_ring p cur.1 cur.2 Hp Hc) as [p1 Hp1]. rewrite Hp1. simpl.
    apply IH; [|done..]. apply pit_incr_spec in Hp1 as (_ & Hsh & _).
    by eapply same_shape_rows9.
Qed.

Lemma settle_ring self p1 k1 last :
  rows9 p1 → in_ring last → ∃ s', settle self (p1, k1, last) = Ok s'.
Proof.
  intros Hsh Hl. unfold settle. destruct last as [last_side last_idx].
  set (mover := player_to_move self). set (opp := opponent_of mover).
  unfold in_ring in Hl. simpl in Hl.
  destruct (decide (last_side = opp)); [|by simpl; eauto].
  destruct (tuzdyk_owner_at _ _ _); [by simpl; eauto|].
  assert (Hlen : length (sel opp p1) = 9%nat) by (destruct Hsh; by destruct opp).
  destruct (py_get_valid (sel opp p1) last_idx) as [c ->]; [lia|]. simpl.
  destruct (pit_clear_ring p1 opp last_idx Hsh Hl) as (p2 & -> & _).
  destruct (_ && _); [by simpl; eauto|]. destruct (_ && _); simpl; eauto.
Qed.

Lemma apply_move_accepts self a n :
  well_shaped self → -9 <= a <= 8 →
  py_get (sel (player_to_move self) (pits self)) a = Ok n → 0 < n →
  ∃ s', apply_move self a = Ok s'.
Proof.
  intros Hsh Ha Hn Hpos. unfold apply_move, sow_phase. rewrite Hn. simpl.
  replace (n <=? 0) with false by lia.
  destruct (pit_clear_ring (pits self) (player_to_move self) a Hsh Ha) as (p0 & -> & Hp0).
  simpl. pose proof (next_pos_in_ring (player_to_move self) a Ha) as Hcur.
  assert (Hloop : ∀ p m, rows9 p →
            ∃ s', (sown ← sow_loop (tuzdyk_indices self) m p (kazans self)
                             (next_pos (player_to_move self) a)
                             (next_pos (player_to_move self) a);
                   settle self sown) = Ok s').
  { intros p m Hp.
    destruct (sow_loop_ring (tuzdyk_indices self) m p (kazans self) _ _ Hp Hcur Hcur)
      as (p1 & k1 & last & -> & Hp1 & Hlast).
    simpl. by apply settle_ring. }
  destruct (1 <? n).
  - destruct (pit_incr_ring p0 (player_to_move self) a Hp0 Ha) as [p0' Hp0'].
    rewrite Hp0'. simpl. apply Hloop.
    apply pit_incr_spec in Hp0' as (_ & Hs & _). by eapply same_shape_rows9.
  - simpl. by apply Hloop.
Qed.

Lemma apply_move_rejects_empty self a n :
  py_get (sel (player_to_move self) (pits self)) a = Ok n → n <= 0 →
  apply_move self a = Raise ValueError.
Proof.
  intros Hn Hle. unfold apply_move, sow_phase. rewrite Hn. simpl.
  by replace (n <=? 0) with true by lia.
Qed.

Lemma apply_move_index_error self a :
  well_shaped self → a < -9 ∨ 8 < a → apply_move self a = Raise IndexError.
Proof.
  intros [Hw Hb] Ha. unfold apply_move, sow_phase, py_get.
  assert (Hlen : length (sel (player_to_move self) (pits self)) = 9%nat)
    by (by destruct (player_to_move self)).
  rewrite Hlen, py_index_invalid by lia. done.
Qed.

(** ** The last affected cell of a move *)

(** The cells a move sows into: [n - 1] cells after the origin when the pit
    holds [n > 1] stones (one stone goes back to the origin first), one cell
    when it holds a single stone. *)
Definition sown_cells (self : TogyzKumalakState) (pit_index : Z) : list cell :=
  let mover := player_to_move self in
  match py_get (sel mover (pits self)) pit_index with
  | Ok n => ring_walk (Z.to_nat (if 1 <? n then n - 1 else n)) (next_pos mover pit_index)
  | Raise _ => []
  end.

Definition last_affected_cell (self : TogyzKumalakState) (pit_index : Z) : option cell :=
  last_incremented (tuzdyk_indices self) (sown_cells self pit_index).

Lemma sow_phase_last self a p1 k1 last :
  sow_phase self a = Ok (p1, k1, last) →
  last = default (next_pos (player_to_move self) a) (last_affected_cell self a).
Proof.
  unfold sow_phase, last_affected_cell, sown_cells.
  destruct (py_get _ a) as [n|] eqn:Hn; [|discriminate]. simpl.
  destruct (n <=? 0) eqn:Hpos; [discriminate|].
  destruct (pit_clear _ _ a) as [p0|] eqn:Hc; [|discriminate]. simpl.
  destruct (1 <? n) eqn:Hone.
  - destruct (pit_incr p0 _ a) as [p0'|] eqn:Hi; [|discriminate]. simpl.
    apply sow_loop_last.
  - simpl. apply sow_loop_last.
Qed.

Lemma last_incremented_not_tuzdyk tuz cells c :
  last_incremented tuz cells = Some c → tuzdyk_owner_at tuz (fst c) (snd c) = None.
Proof.
  unfold last_incremented. intros H%last_Some_elem_of%list_elem_of_In%filter_In.
  destruct H as [_ H]. unfold incremented in H. by destruct (tuzdyk_owner_at _ _ _).
Qed.

Lemma can_create_tuzdyk_spec self mover i :
  _can_create_tuzdyk self mover i = true ↔
  sel mover (tuzdyk_indices self) = None ∧ i ≠ 8
  ∧ sel (opponent_of mover) (tuzdyk_indices self) ≠ Some i.
Proof.
  unfold _can_create_tuzdyk.
  destruct (sel mover (tuzdyk_indices self)) as [m|].
  { rewrite bool_decide_eq_true_2 by done. split; [done|]. by intros [? _]. }
  rewrite bool_decide_eq_false_2 by (by intros []).
  destruct (i =? 8) eqn:E8.
  { split; [done|]. intros (_ & ? & _). lia. }
  destruct (sel (opponent_of mover) (tuzdyk_indices self)) as [o|].
  - rewrite bool_decide_eq_true_2 by done. simpl.
    destruct (bool_decide (Some o = Some i)) eqn:Eo.
    + apply bool_decide_eq_true_1 in Eo. split; [done|]. by intros (_ & _ & ?).
    + apply bool_decide_eq_false_1 in Eo. split; [|done]. intros _.
      split; [done|]. split; [lia|done].
  - rewrite bool_decide_eq_false_2 by (by intros []). simpl.
    split; [|done]. intros _. split; [done|]. split; [lia|done].
Qed.

Example single_stone_advances :
  apply_move (mkState ([1;0;0;0;0;0;0;0;0], replicate 9 0) (0,0) (None,None) WHITE 1) 0
  = Ok (mkState ([0;1;0;0;0;0;0;0;0], replicate 9 0) (0,0) (None,None) BLACK 2).
Proof. reflexivity. Qed.

Example even_capture_from_ninth_pit :
  apply_move (mkState ([0;0;0;0;0;0;0;0;1], [1;0;0;0;0;0;0;0;0]) (0,0) (None,None) WHITE 1) 8
  = Ok (mkState (replicate 9 0, replicate 9 0) (2,0) (None,None) BLACK 2).
Proof. reflexivity. Qed.

Example tuzdyk_from_ninth_pit :
  apply_move (mkState ([0;0;0;0;0;0;0;0;1], [2;0;0;0;0;0;0;0;0]) (0,0) (None,None) WHITE 1) 8
  = Ok (mkState (replicate 9 0, replicate 9 0) (3,0) (Some 0,None) BLACK 2).
Proof. reflexivity. Qed.

(** * Text serialization ([src/game/encoding.py]) *)

(** ** Python's [str], [int], [split] and [join] on ASCII text

    [py_int] is [int(s)] on ASCII input: surrounding whitespace (tab, line
    feed, vertical tab, form feed, carriage return, space) is dropped, one
    sign is allowed, and the digits may be grouped by single underscores.
    Digits and blanks outside ASCII, which Python also reads, are not
    modelled, and neither is the limit of 4300 digits that CPython 3.11 puts
    on [int(s)] and [str(z)]: see [int_readable] and [str_convertible]. *)

Definition is_space (c : ascii) : bool :=
  let n := nat_of_ascii c in
  ((9 <=? n) && (n <=? 13) || (n =? 32))%nat.

Definition is_digit (c : ascii) : bool :=
  let n := nat_of_ascii c in ((48 <=? n) && (n <=? 57))%nat.

Fixpoint lstrip (s : string) : string :=
  match s with
  | EmptyString => EmptyString
  | String c r => if is_space c then lstrip r else s
  end.

Fixpoint rstrip (s : string) : string :=
  match s with
  | EmptyString => EmptyString
  | String c r =>
      match rstrip r with
      | EmptyString => if is_space c then EmptyString else String c EmptyString
      | r' => String c r'
      end
  end.

Definition strip (s : string) : string := rstrip (lstrip s).

(** Removes the underscores of a digit string; [None] when an underscore does
    not stand between two other characters or the string is empty. *)
Fixpoint digit_groups (after_digit : bool) (s : string) : option string :=
  match s with
  | EmptyString => if after_digit then Some EmptyString else None
  | String c r =>
      if Ascii.eqb c "_" then
        if after_digit then digit_groups false r else None
      else String c <$> digit_groups true r
  end.

Definition parse_digits (s : string) : option Decimal.uint :=
  digit_groups false s ≫= NilEmpty.uint_of_string.

Definition py_int (s : string) : result Z :=
  let t := strip s in
  let d := match t with
           | String c r =>
               if Ascii.eqb c "-" then Decimal.Neg <$> parse_digits r
               else if Ascii.eqb c "+" then Decimal.Pos <$> parse_digits r
               else Decimal.Pos <$> parse_digits t
           | EmptyString => None
           end in
  match d with
  | Some d => Ok (Z.of_int d)
  | None => Raise ValueError
  end.

Definition py_str (z : Z) : string := NilZero.string_of_int (Z.to_int z).

(** [s.split(sep)] for a one-character separator. *)
Fixpoint py_split (sep : ascii) (s : string) : list string :=
  match s with
  | EmptyString => [EmptyString]
  | String c r =>
      if Ascii.eqb c sep then EmptyString :: py_split sep r
      else match py_split sep r with
           | w :: ws => String c w :: ws
           | [] => [String c EmptyString]
           end
  end.

(** [sep.join(l)] *)
Fixpoint py_join (sep : string) (l : list string) : string :=
  match l with
  | [] => EmptyString
  | [x] => x
  | x :: l' => x +:+ sep +:+ py_join sep l'
  end.

(** A list comprehension whose body may raise. *)
Fixpoint for_each {A B : Type} (f : A → result B) (l : list A) : result (list B) :=
  match l with
  | [] => mret []
  | x :: l' => y ← f x; ys ← for_each f l'; mret (y :: ys)
  end.

(** ** [serialize_fen] and [deserialize_fen] *)

Definition serialize_fen (state : TogyzKumalakState) : string :=
  let tuz := fun x : option Z => match x with None => "-" | Some x => py_str x end in
  let parts :=
    [ if decide (player_to_move state = WHITE) then "W" else "B";
      py_join "," [ py_join "-" (map py_str (sel WHITE (pits state)));
                    py_join "-" (map py_str (sel BLACK (pits state))) ];
      py_str (sel WHITE (kazans state)) +:+ "," +:+ py_str (sel BLACK (kazans state));
      tuz (sel WHITE (tuzdyk_indices state)) +:+ "," +:+ tuz (sel BLACK (tuzdyk_indices state));
      py_str (move_number state) ] in
  py_join "|" parts.

Definition parse_tuz (t : string) : result (option Z) :=
  if decide (t = "-") then mret None else Some <$> py_int t.

Definition deserialize_fen (s : string) : result TogyzKumalakState :=
  match py_split "|" s with
  | [side; pits_s; kaz_s; tuz_s; mv_s] =>
      match py_split "," pits_s with
      | [white_pits_s; black_pits_s] =>
          white_pits ← for_each py_int (py_split "-" white_pits_s);
          black_pits ← for_each py_int (py_split "-" black_pits_s);
          match py_split "," kaz_s with
          | [kz_w; kz_b] =>
              match py_split "," tuz_s with
              | [tuz_w; tuz_b] =>
                  tuz_w_v ← parse_tuz tuz_w;
                  tuz_b_v ← parse_tuz tuz_b;
                  kazan_w ← py_int kz_w;
                  kazan_b ← py_int kz_b;
                  mv ← py_int mv_s;
                  mret {| pits := (white_pits, black_pits);
                          kazans := (kazan_w, kazan_b);
                          tuzdyk_indices := (tuz_w_v, tuz_b_v);
                          player_to_move := if decide (side = "W") then WHITE else BLACK;
                          move_number := mv |}
              | _ => Raise ValueError
              end
          | _ => Raise ValueError
          end
      | _ => Raise ValueError
      end
  | _ => Raise ValueError
  end.

Example serialize_initial :
  serialize_fen initial = "W|9-9-9-9-9-9-9-9-9,9-9-9-9-9-9-9-9-9|0,0|-,-|1".
Proof. reflexivity. Qed.

Example deserialize_initial :
  deserialize_fen "W|9-9-9-9-9-9-9-9-9,9-9-9-9-9-9-9-9-9|0,0|-,-|1" = Ok initial.
Proof. reflexivity. Qed.

Example py_int_examples :
  py_int " -12 " = Ok (-12) ∧ py_int "+7" = Ok 7 ∧ py_int "1_000" = Ok 1000
  ∧ py_int "007" = Ok 7 ∧ py_int EmptyString = Raise ValueError ∧ py_int "-" = Raise ValueError
  ∧ py_int "1__0" = Raise ValueError ∧ py_int "_1" = Raise ValueError
  ∧ py_int "1_" = Raise ValueError ∧ py_int "- 1" = Raise ValueError
  ∧ py_int "+-1" = Raise ValueError ∧ py_int "1a" = Raise ValueError.
Proof. repeat split. Qed.

Example py_split_examples :
  py_split "|" "a||b" = ["a"; EmptyString; "b"]
  ∧ py_split "|" EmptyString = [EmptyString]
  ∧ py_split "-" "9--5" = ["9"; EmptyString; "5"].
Proof. repeat split. Qed.

(** ** Character classes of strings *)

Fixpoint str_all (P : ascii → bool) (s : string) : bool :=
  match s with
  | EmptyString => true
  | String c r => P c && str_all P r
  end.

Definition lacks (c : ascii) (s : string) : Prop :=
  str_all (fun x => negb (Ascii.eqb x c)) s = true.

Definition signed_digit (c : ascii) : bool := is_digit c || Ascii.eqb c "-".

(** ** The texts and numbers of the model

    [py_int] is [int] on ASCII text, and CPython 3.11 converts between [int]
    and [str] up to 4300 digits only ([sys.int_max_str_digits]; beyond, both
    conversions raise [ValueError]).  [int_readable] are the texts on which
    [py_int] is [int] for every field, [str_convertible] the numbers on which
    [py_str] is [str]. *)
Definition max_str_digits : Z := 4300.

Definition is_ascii (c : ascii) : bool := (nat_of_ascii c <? 128)%nat.

Fixpoint count_digits (s : string) : nat :=
  match s with
  | EmptyString => O
  | String c r => if is_digit c then S (count_digits r) else count_digits r
  end.

Definition int_readable (s : string) : Prop :=
  str_all is_ascii s = true ∧ Z.of_nat (count_digits s) <= max_str_digits.

Definition str_convertible (z : Z) : Prop := Z.abs z < 10 ^ max_str_digits.

(** The numbers [serialize_fen] writes. *)
Definition numbers_of (s : TogyzKumalakState) : list Z :=
  fst (pits s) ++ snd (pits s)
  ++ [fst (kazans s); snd (kazans s); move_number s]
  ++ option_list (fst (tuzdyk_indices s)) ++ option_list (snd (tuzdyk_indices s)).

Definition within_digit_limit (s : TogyzKumalakState) : Prop :=
  Forall str_convertible (numbers_of s).

Lemma str_all_app P s t : str_all P (s +:+ t) = str_all P s && str_all P t.
Proof. induction s as [|c s IH]; simpl; [done|]. by rewrite IH, andb_assoc. Qed.

Lemma str_all_impl (P Q : ascii → bool) s :
  (∀ c, P c = true → Q c = true) → str_all P s = true → str_all Q s = true.
Proof.
  intros HPQ. induction s as [|c s IH]; simpl; [done|].
  intros [Hc Hs]%andb_true_iff. apply andb_true_iff. auto.
Qed.

Lemma str_all_lacks P c s : P c = false → str_all P s = true → lacks c s.
Proof.
  intros Hc. apply str_all_impl. intros x Hx.
  destruct (Ascii.eqb_spec x c) as [->|]; [congruence|done].
Qed.

Lemma lacks_app c s t : lacks c s → lacks c t → lacks c (s +:+ t).
Proof. unfold lacks. rewrite str_all_app. intros -> ->. done. Qed.

Lemma lacks_join c sep l : lacks c sep → Forall (lacks c) l → lacks c (py_join sep l).
Proof.
  intros Hsep. induction 1 as [|x l Hx Hl IH]; [done|].
  destruct l as [|y l]; [done|].
  change (lacks c (x +:+ sep +:+ py_join sep (y :: l))). auto using lacks_app.
Qed.

(** ** [split] undoes [join] *)

Lemma py_split_lacks sep s : lacks sep s → py_split sep s = [s].
Proof.
  unfold lacks. induction s as [|c s IH]; simpl; [done|].
  intros [Hc Hs]%andb_true_iff. apply negb_true_iff in Hc. rewrite Hc.
  by rewrite (IH Hs).
Qed.

Lemma py_split_app sep s r :
  lacks sep s → py_split sep (s +:+ String sep r) = s :: py_split sep r.
Proof.
  unfold lacks. induction s as [|c s IH]; simpl.
  - intros _. by rewrite Ascii.eqb_refl.
  - intros [Hc Hs]%andb_true_iff. apply negb_true_iff in Hc. rewrite Hc.
    by rewrite (IH Hs).
Qed.

Lemma py_split_join sep l :
  l ≠ [] → Forall (lacks sep) l → py_split sep (py_join (String sep EmptyString) l) = l.
Proof.
  intros Hne Hl. induction Hl as [|x l Hx Hl IH]; [done|].
  destruct l as [|y l].
  - simpl. by apply py_split_lacks.
  - change (py_split sep (x +:+ String sep (py_join (String sep EmptyString) (y :: l)))
            = x :: y :: l).
    rewrite py_split_app by done. f_equal. by apply IH.
Qed.

Lemma py_split_elems_lack sep s : Forall (lacks sep) (py_split sep s).
Proof.
  induction s as [|c s IH]; simpl; [by repeat constructor|].
  destruct (Ascii.eqb_spec c sep) as [->|Hne].
  - by constructor.
  - assert (Hc : negb (Ascii.eqb c sep) = true).
    { apply negb_true_iff. by apply Ascii.eqb_neq. }
    destruct (py_split sep s) as [|w ws].
    + repeat constructor. unfold lacks. simpl. by rewrite Hc.
    + inversion IH; subst. constructor; [|done].
      unfold lacks. simpl. apply andb_true_iff. by split.
Qed.

(** ** [int] undoes [str] *)

Lemma digits_of_uint d : str_all is_digit (NilEmpty.string_of_uint d) = true.
Proof. induction d; simpl; auto. Qed.

Lemma py_str_pos p :
  py_str (Zpos p) = NilEmpty.string_of_uint (Pos.to_uint p)
  ∧ ∃ c r, NilEmpty.string_of_uint (Pos.to_uint p) = String c r ∧ is_digit c = true.
Proof.
  unfold py_str. simpl. pose proof (Unsigned.to_uint_nonnil p) as Hnil.
  pose proof (digits_of_uint (Pos.to_uint p)) as Hd.
  destruct (Pos.to_uint p) eqn:E; [done|..]; (split; [done|]); simpl in *; eauto.
Qed.

Lemma py_str_chars z : str_all signed_digit (py_str z) = true.
Proof.
  assert (Hd : ∀ d, str_all signed_digit (NilZero.string_of_uint d) = true).
  { intros d. apply (str_all_impl is_digit).
    - intros c Hc. unfold signed_digit. by rewrite Hc.
    - destruct d; try apply digits_of_uint. done. }
  unfold py_str. destruct z; simpl; try done; apply Hd.
Qed.

Lemma py_str_nonneg_digits z : 0 <= z → str_all is_digit (py_str z) = true.
Proof.
  destruct z as [|p|p]; intros Hz; [done| |lia].
  destruct (py_str_pos p) as [-> _]. apply digits_of_uint.
Qed.

Lemma lacks_py_str c z : signed_digit c = false → lacks c (py_str z).
Proof. intros Hc. eapply str_all_lacks; [exact Hc|apply py_str_chars]. Qed.

Lemma lacks_minus_py_str z : 0 <= z → lacks "-" (py_str z).
Proof. intros Hz. eapply (str_all_lacks is_digit); [done|by apply py_str_nonneg_digits]. Qed.

Lemma rstrip_id s : str_all (fun c => negb (is_space c)) s = true → rstrip s = s.
Proof.
  induction s as [|c s IH]; simpl; [done|].
  intros [Hc Hs]%andb_true_iff. rewrite (IH Hs). apply negb_true_iff in Hc.
  rewrite Hc. by destruct s.
Qed.

Lemma strip_id s : str_all (fun c => negb (is_space c)) s = true → strip s = s.
Proof.
  intros Hs. unfold strip. replace (lstrip s) with s; [by apply rstrip_id|].
  destruct s as [|c s]; [done|]. simpl in *.
  apply andb_true_iff in Hs as [Hc _]. apply negb_true_iff in Hc. by rewrite Hc.
Qed.

Lemma signed_digit_not_space c : signed_digit c = true → negb (is_space c) = true.
Proof.
  intros Hc. destruct (is_space c) eqn:E; [|done]. exfalso.
  revert Hc E. unfold signed_digit, is_digit, is_space.
  destruct (Ascii.eqb_spec c "-") as [->|_]; [done|].
  rewrite orb_false_r, orb_true_iff, !andb_true_iff, !Nat.leb_le, Nat.eqb_eq. lia.
Qed.

Lemma is_digit_not c x : is_digit x = false → is_digit c = true → Ascii.eqb c x = false.
Proof. intros Hx Hc. apply Ascii.eqb_neq. intros ->. congruence. Qed.

Lemma digit_groups_digits s : ∀ b,
  str_all is_digit s = true → s ≠ EmptyString ∨ b = true → digit_groups b s = Some s.
Proof.
  induction s as [|c s IH]; intros b Hs Hb; simpl.
  - destruct Hb as [ | -> ]; done.
  - simpl in Hs. apply andb_true_iff in Hs as [Hc Hs].
    rewrite (is_digit_not c "_") by done. rewrite (IH true) by auto. done.
Qed.

Lemma parse_digits_of_uint d :
  d ≠ Decimal.Nil → parse_digits (NilEmpty.string_of_uint d) = Some d.
Proof.
  intros Hd. unfold parse_digits. rewrite digit_groups_digits.
  - simpl. apply NilEmpty.usu.
  - apply digits_of_uint.
  - left. by destruct d.
Qed.

Lemma py_int_str z : py_int (py_str z) = Ok z.
Proof.
  unfold py_int. rewrite strip_id.
  2:{ eapply str_all_impl; [apply signed_digit_not_space|apply py_str_chars]. }
  destruct z as [|p|p]; [done|..].
  - destruct (py_str_pos p) as (-> & c & r & Hcr & Hc).
    pose proof (parse_digits_of_uint _ (Unsigned.to_uint_nonnil p)) as Hp.
    rewrite Hcr in *. rewrite (is_digit_not c "-"), (is_digit_not c "+") by done.
    rewrite Hp. simpl. f_equal. apply (DecimalZ.of_to (Zpos p)).
  - unfold py_str. simpl.
    pose proof (parse_digits_of_uint _ (Unsigned.to_uint_nonnil p)) as Hp.
    replace (NilZero.string_of_uint (Pos.to_uint p))
      with (NilEmpty.string_of_uint (Pos.to_uint p)).
    2:{ pose proof (Unsigned.to_uint_nonnil p). by destruct (Pos.to_uint p). }
    rewrite Hp. simpl. f_equal. apply (DecimalZ.of_to (Zneg p)).
Qed.

Lemma for_each_py_int_str l : for_each py_int (map py_str l) = Ok l.
Proof. induction l as [|z l IH]; simpl; [done|]. by rewrite py_int_str, IH. Qed.

Lemma py_str_not_dash z : py_str z ≠ "-".
Proof.
  destruct z as [|p|p]; [done|..].
  - destruct (py_str_pos p) as (-> & c & r & -> & Hc). by intros [= -> _].
  - unfold py_str. simpl. pose proof (Unsigned.to_uint_nonnil p).
    by destruct (Pos.to_uint p).
Qed.

(** ** Round trip of the text form *)

Definition tuz_text (x : option Z) : string :=
  match x with
  | None => "-"
  | Some x => py_str x
  end.

Lemma lacks_dash c : signed_digit c = false → lacks c "-".
Proof.
  unfold signed_digit. intros [_ Hc]%orb_false_iff.
  unfold lacks. cbn [str_all]. rewrite Ascii.eqb_sym in Hc. by rewrite Hc.
Qed.

Lemma lacks_tuz_text c x : signed_digit c = false → lacks c (tuz_text x).
Proof.
  intros Hc. destruct x as [z|]; simpl; [by apply lacks_py_str|by apply lacks_dash].
Qed.

Lemma parse_tuz_text x : parse_tuz (tuz_text x) = Ok x.
Proof.
  unfold parse_tuz. destruct x as [z|]; simpl; [|done].
  rewrite decide_False by apply py_str_not_dash. by rewrite py_int_str.
Qed.

Lemma lacks_row c (row : list Z) :
  signed_digit c = false → lacks c (py_join "-" (map py_str row)).
Proof.
  intros Hc. apply lacks_join.
  - by apply lacks_dash.
  - apply Forall_map, Forall_forall. intros z _. by apply lacks_py_str.
Qed.

Lemma split_row (row : list Z) :
  row ≠ [] → Forall (Z.le 0) row →
  for_each py_int (py_split "-" (py_join "-" (map py_str row))) = Ok row.
Proof.
  intros Hne Hpos. rewrite py_split_join.
  - apply for_each_py_int_str.
  - by destruct row.
  - apply Forall_map. eapply Forall_impl; [exact Hpos|]. apply lacks_minus_py_str.
Qed.

Lemma split_pair c a b :
  lacks c a → lacks c b → py_split c (a +:+ String c EmptyString +:+ b) = [a; b].
Proof.
  intros Ha Hb. change (String c EmptyString +:+ b) with (String c b).
  rewrite py_split_app by done. by rewrite py_split_lacks.
Qed.

Lemma fen_roundtrip (s : TogyzKumalakState) :
  fst (pits s) ≠ [] → snd (pits s) ≠ [] → rows_nonneg (pits s) →
  deserialize_fen (serialize_fen s) = Ok s.
Proof.
  destruct s as [[wp bp] [kw kb] [tw tb] mover mv]. simpl.
  intros Hw Hb [Hwp Hbp]. simpl in Hwp, Hbp.
  unfold deserialize_fen, serialize_fen.
  cbn [player_to_move move_number pits kazans tuzdyk_indices sel fst snd].
  fold (tuz_text tw) (tuz_text tb).
  rewrite py_split_join; [|done|].
  2:{ repeat apply Forall_cons_2; try apply Forall_nil_2.
      - by destruct (decide (mover = WHITE)).
      - apply lacks_join; [done|]. repeat apply Forall_cons_2; try apply Forall_nil_2;
          by apply lacks_row.
      - repeat apply lacks_app; try done; by apply lacks_py_str.
      - repeat apply lacks_app; try done; by apply lacks_tuz_text.
      - by apply lacks_py_str. }
  rewrite py_split_join; [|done|].
  2:{ repeat apply Forall_cons_2; try apply Forall_nil_2; by apply lacks_row. }
  rewrite !split_row by done. simpl.
  rewrite split_pair by (by apply lacks_py_str).
  rewrite split_pair by (by apply lacks_tuz_text).
  rewrite !parse_tuz_text. simpl. rewrite !py_int_str. simpl.
  by destruct mover.
Qed.

(** ** What [deserialize_fen] accepts *)

Definition is_int (t : string) : bool :=
  match py_int t with
  | Ok _ => true
  | Raise _ => false
  end.

Definition is_tuz (t : string) : bool := bool_decide (t = "-") || is_int t.

(** The shape of an accepted text: five fields between bars; two rows of
    integers separated by dashes; two integer kazans; two tuzdyk entries, each
    a dash or an integer; an integer move number. *)
Definition fen_shaped (s : string) : bool :=
  match py_split "|" s with
  | [side; pits_s; kaz_s; tuz_s; mv_s] =>
      match py_split "," pits_s, py_split "," kaz_s, py_split "," tuz_s with
      | [white_pits_s; black_pits_s], [kz_w; kz_b], [tuz_w; tuz_b] =>
          forallb is_int (py_split "-" white_pits_s)
          && forallb is_int (py_split "-" black_pits_s)
          && is_int kz_w && is_int kz_b
          && is_tuz tuz_w && is_tuz tuz_b
          && is_int mv_s
      | _, _, _ => false
      end
  | _ => false
  end.

Lemma py_int_cases t : (∃ z, py_int t = Ok z ∧ is_int t = true)
                       ∨ (py_int t = Raise ValueError ∧ is_int t = false).
Proof.
  unfold is_int, py_int. destruct (strip t) as [|c r]; [by right|].
  destruct (Ascii.eqb c "-"); [|destruct (Ascii.eqb c "+")];
    (destruct (parse_digits _); simpl; [left; eauto|by right]).
Qed.

Lemma parse_tuz_cases t : (∃ v, parse_tuz t = Ok v ∧ is_tuz t = true)
                          ∨ (parse_tuz t = Raise ValueError ∧ is_tuz t = false).
Proof.
  unfold parse_tuz, is_tuz. destruct (decide (t = "-")) as [->|Hne]; [left; eauto|].
  rewrite bool_decide_eq_false_2 by done. simpl.
  destruct (py_int_cases t) as [(z & -> & ->)|[-> ->]]; [left; eauto|by right].
Qed.

Lemma for_each_py_int_cases l :
  (∃ r, for_each py_int l = Ok r ∧ forallb is_int l = true)
  ∨ (for_each py_int l = Raise ValueError ∧ forallb is_int l = false).
Proof.
  induction l as [|t l IH]; simpl; [left; eauto|].
  destruct (py_int_cases t) as [(z & -> & ->)|[-> ->]]; [|by right]. simpl.
  destruct IH as [(r & -> & ->)|[-> ->]]; [left; eauto|by right].
Qed.

Lemma lacks_lstrip c s : lacks c s → lacks c (lstrip s).
Proof.
  unfold lacks. induction s as [|x s IH]; simpl; [done|].
  intros [Hx Hs]%andb_true_iff. destruct (is_space x); [auto|].
  simpl. by rewrite Hx, Hs.
Qed.

Lemma lacks_rstrip c s : lacks c s → lacks c (rstrip s).
Proof.
  unfold lacks. induction s as [|x s IH]; simpl; [done|].
  intros [Hx Hs]%andb_true_iff. specialize (IH Hs).
  destruct (rstrip s) as [|y r].
  - destruct (is_space x); [done|]. simpl. by rewrite Hx.
  - cbn [str_all] in *. by rewrite Hx, IH.
Qed.

Lemma py_int_nonneg t z : lacks "-" t → py_int t = Ok z → 0 <= z.
Proof.
  intros Ht. apply lacks_lstrip, lacks_rstrip in Ht. fold (strip t) in Ht.
  unfold py_int. destruct (strip t) as [|c r]; [done|].
  unfold lacks in Ht. cbn [str_all] in Ht. apply andb_true_iff in Ht as [Hc _].
  apply negb_true_iff in Hc. rewrite Hc.
  assert (Hpos : ∀ u, 0 <= Z.of_int (Decimal.Pos u)).
  { intros u. simpl. unfold Z.of_uint. lia. }
  destruct (Ascii.eqb c "+"); (destruct (parse_digits _); simpl; [|done]);
    intros [= <-]; apply Hpos.
Qed.

Lemma for_each_py_int_nonneg l r :
  Forall (lacks "-") l → for_each py_int l = Ok r → Forall (Z.le 0) r.
Proof.
  intros Hl. revert r. induction Hl as [|t l Ht Hl IH]; simpl; intros r.
  - by intros [= <-].
  - destruct (py_int t) as [z|] eqn:Hz; [|done]. simpl.
    destruct (for_each py_int l) as [r'|]; [|done]. simpl. intros [= <-].
    constructor; [by eapply py_int_nonneg|by apply IH].
Qed.

Lemma deserialize_fen_cases s :
  (fen_shaped s = true ∧ ∃ st, deserialize_fen s = Ok st ∧ rows_nonneg (pits st))
  ∨ (fen_shaped s = false ∧ deserialize_fen s = Raise ValueError).
Proof.
  unfold fen_shaped, deserialize_fen.
  destruct (py_split "|" s) as [|side [|pits_s [|kaz_s [|tuz_s [|mv_s [|]]]]]];
    try (by right).
  destruct (py_split "," pits_s) as [|wp [|bp [|]]]; try (by right).
  pose proof (py_split_elems_lack "-" wp) as Hwl.
  pose proof (py_split_elems_lack "-" bp) as Hbl.
  destruct (for_each_py_int_cases (py_split "-" wp)) as [(w & Hw & ->)|[-> ->]].
  2:{ right. split; [|done]. by repeat case_match. }
  destruct (for_each_py_int_cases (py_split "-" bp)) as [(b & Hb & ->)|[Hb ->]].
  2:{ right. rewrite Hw, Hb. split; [|done]. by repeat case_match. }
  rewrite Hw, Hb. simpl.
  destruct (py_split "," kaz_s) as [|kw [|kb [|]]]; try (by right).
  destruct (py_split "," tuz_s) as [|tw [|tb [|]]]; try (by right).
  destruct (parse_tuz_cases tw) as [(twv & -> & ->)|[-> ->]].
  2:{ right. by rewrite !andb_false_r. }
  destruct (parse_tuz_cases tb) as [(tbv & -> & ->)|[-> ->]].
  2:{ right. by rewrite !andb_false_r. }
  destruct (py_int_cases kw) as [(kwz & -> & ->)|[-> ->]]; [|by right].
  destruct (py_int_cases kb) as [(kbz & -> & ->)|[-> ->]]; [|by right].
  destruct (py_int_cases mv_s) as [(mvz & -> & ->)|[-> ->]]; [|by right].
  left. split; [done|]. simpl. eexists. split; [done|].
  split; simpl;
    [exact (for_each_py_int_nonneg _ _ Hwl Hw)|exact (for_each_py_int_nonneg _ _ Hbl Hb)].
Qed.

(** ** Reachable states *)

Inductive reachable : TogyzKumalakState → Prop :=
| reachable_initial : reachable initial
| reachable_move s a s' :
    reachable s → In a (legal_moves s) → apply_move s a = Ok s' → reachable s'.

Lemma apply_move_shape self a s' :
  apply_move self a = Ok s' →
  same_shape (pits self) (pits s') ∧ (rows_nonneg (pits self) → rows_nonneg (pits s')).
Proof.
  unfold apply_move. destruct (sow_phase self a) as [[[p1 k1] last]|] eqn:Hs; [|discriminate].
  simpl. intros Hf. apply sow_phase_spec in Hs as (_ & Hsh1 & Hnn1).
  apply settle_spec in Hf as (_ & Hsh2 & Hnn2 & _).
  split; [by eapply same_shape_trans|auto].
Qed.

Lemma reachable_invariant s :
  reachable s → well_shaped s ∧ rows_nonneg (pits s) ∧ total_seeds s = 162.
Proof.
  induction 1 as [|s a s' _ (Hsh & Hnn & Htot) Hleg Hmove].
  - split; [by split|]. split; [|done]. split; simpl; by repeat constructor.
  - pose proof (apply_move_shape _ _ _ Hmove) as [Hshape Hpos].
    split; [by eapply same_shape_rows9|]. split; [auto|].
    by rewrite (apply_move_conserves _ _ _ Hmove).
Qed.

(** * Canonical form and transposition key ([src/game/encoding.py]) *)

Definition mirror_state (state : TogyzKumalakState) : TogyzKumalakState :=
  {| pits := (sel BLACK (pits state), sel WHITE (pits state));
     kazans := (sel BLACK (kazans state), sel WHITE (kazans state));
     tuzdyk_indices := (sel BLACK (tuzdyk_indices state), sel WHITE (tuzdyk_indices state));
     player_to_move := opponent_of (player_to_move state);
     move_number := move_number state |}.

Definition canonicalize (state : TogyzKumalakState) : TogyzKumalakState :=
  if decide (player_to_move state = WHITE) then state else mirror_state state.

#[global] Instance player_countable : Countable player :=
  inj_countable' (fun p => match p with WHITE => false | BLACK => true end)
                 (fun b => if b then BLACK else WHITE)
                 (fun p => match p with WHITE => eq_refl | BLACK => eq_refl end).

Abbreviation Key := (list Z * list Z * (Z * Z) * option Z * option Z * player)%type.

Definition state_key (state : TogyzKumalakState) : Key :=
  (sel WHITE (pits state), sel BLACK (pits state), kazans state,
   sel WHITE (tuzdyk_indices state), sel BLACK (tuzdyk_indices state),
   player_to_move state).

(** * PUCT search ([src/mcts/search.py])

    Python floats are IEEE binary64 numbers, as are Rocq's primitive floats.
    A [Node] object held by the transposition table is referred to by its
    key: the table never replaces or removes an entry, so the key stands for
    the object.  The children of a node are not in the table; each is owned by
    its parent's [children] dictionary, an association list in insertion
    order.  [inference_fn] is a pure function here, and the list a call of
    [_dirichlet] returns a parameter of the development.  An exception ends
    the run ([Raises]); the selection loop of [_simulate] runs on fuel, and a
    call that does not return is a run out of fuel ([OutOfFuel]).  Both keep
    the engine as it is at that point, since the Python object keeps what was
    done to it before the exception. *)

(** [float(z)] for a Python integer below 2^63 in absolute value, which
    covers the visit counts and lengths converted here.  The division of a
    float by an integer converts the integer in this way; Python raises
    [ZeroDivisionError] when that integer is 0 and [math.sqrt] raises
    [ValueError] on a negative one, which the visit counts of the search,
    never negative, do not bring about. *)
Definition float_of_int (z : Z) : float :=
  if z <? 0 then (- of_uint63 (Uint63.of_Z (- z)))%float
  else of_uint63 (Uint63.of_Z z).

Unset Elimination Schemes.
Inductive Node := mkNode {
  prior : float;
  state : option TogyzKumalakState;
  visit_count : Z;
  value_sum : float;
  children : list (Z * Node)
}.
Set Elimination Schemes.

Definition value (self : Node) : float :=
  if visit_count self =? 0 then 0%float
  else (value_sum self / float_of_int (visit_count self))%float.

(** [Node(prior=p)] and [Node(prior=1.0, state=s)] *)
Definition new_child (p : float) : Node := mkNode p None 0 0%float [].
Definition new_node (s : TogyzKumalakState) : Node := mkNode 1%float (Some s) 0 0%float [].

(** Dictionaries with integer keys, in insertion order. *)
Fixpoint dict_get {V : Type} (d : list (Z * V)) (k : Z) : option V :=
  match d with
  | [] => None
  | (k', v) :: d' => if k' =? k then Some v else dict_get d' k
  end.

Definition setdefault {V : Type} (d : list (Z * V)) (k : Z) (v : V) : list (Z * V) :=
  match dict_get d k with
  | Some _ => d
  | None => d ++ [(k, v)]
  end.

Fixpoint dict_alter {V : Type} (f : V → V) (k : Z) (d : list (Z * V)) : list (Z * V) :=
  match d with
  | [] => []
  | (k', v) :: d' => if k' =? k then (k', f v) :: d' else (k', v) :: dict_alter f k d'
  end.

Definition py_item {A : Type} (l : list A) (i : Z) : result A :=
  match py_index (length l) i with
  | Some k =>
      match l !! k with
      | Some v => Ok v
      | None => Raise IndexError
      end
  | None => Raise IndexError
  end.

Record MCTS := mkMCTS {
  inference_fn : TogyzKumalakState → list float * float;
  c_puct : float;
  dirichlet_alpha : float;
  dirichlet_frac : float;
  num_simulations : Z;
  _table : gmap Key Node;
  (** ghost: the states [inference_fn] was called on, latest first *)
  evaluator_calls : list TogyzKumalakState
}.

Definition __init__ (inference_fn : TogyzKumalakState → list float * float)
    (c_puct dirichlet_alpha dirichlet_frac : float) (num_simulations : Z) : MCTS :=
  {| inference_fn := inference_fn;
     c_puct := c_puct;
     dirichlet_alpha := dirichlet_alpha;
     dirichlet_frac := dirichlet_frac;
     num_simulations := num_simulations;
     _table := ∅;
     evaluator_calls := [] |}.

Definition with_table (self : MCTS) (t : gmap Key Node) : MCTS :=
  {| inference_fn := inference_fn self;
     c_puct := c_puct self;
     dirichlet_alpha := dirichlet_alpha self;
     dirichlet_frac := dirichlet_frac self;
     num_simulations := num_simulations self;
     _table := t;
     evaluator_calls := evaluator_calls self |}.

Definition with_call (self : MCTS) (s : TogyzKumalakState) : MCTS :=
  {| inference_fn := inference_fn self;
     c_puct := c_puct self;
     dirichlet_alpha := dirichlet_alpha self;
     dirichlet_frac := dirichlet_frac self;
     num_simulations := num_simulations self;
     _table := _table self;
     evaluator_calls := s :: evaluator_calls self |}.

(** ** Runs of the engine *)

Inductive run (A : Type) :=
| Returns (a : A) (self : MCTS)
| Raises (e : exn) (self : MCTS)
| OutOfFuel (self : MCTS).
Arguments Returns {A} a self.
Arguments Raises {A} e self.
Arguments OutOfFuel {A} self.

(** The engine a run ends with. *)
Definition engine_of {A : Type} (r : run A) : MCTS :=
  match r with
  | Returns _ self => self
  | Raises _ self => self
  | OutOfFuel self => self
  end.

Definition M (A : Type) : Type := MCTS → run A.

Definition ret {A : Type} (a : A) : M A := fun self => Returns a self.

Definition raise {A : Type} (e : exn) : M A := fun self => Raises e self.

Definition bind {A B : Type} (m : M A) (f : A → M B) : M B := fun self =>
  match m self with
  | Returns a self' => f a self'
  | Raises e self' => Raises e self'
  | OutOfFuel self' => OutOfFuel self'
  end.

Definition lift {A : Type} (r : result A) : M A := fun self =>
  match r with
  | Ok a => Returns a self
  | Raise e => Raises e self
  end.

#[global] Instance engine_ret : MRet M := @ret.
#[global] Instance engine_bind : MBind M := fun _ _ f m => bind m f.

(** [self.inference_fn(s)], recorded in the ghost log *)
Definition infer (s : TogyzKumalakState) : M (list float * float) := fun self =>
  Returns (inference_fn self s) (with_call self s).

(** Reading and writing the [Node] object a key stands for. *)
Definition node_at (k : Key) : M Node := fun self =>
  match _table self !! k with
  | Some n => Returns n self
  | None => Raises KeyError self
  end.

Definition set_children (k : Key) (ch : list (Z * Node)) : M unit := fun self =>
  match _table self !! k with
  | Some n =>
      Returns tt (with_table self
        (<[k := mkNode (prior n) (state n) (visit_count n) (value_sum n) ch]> (_table self)))
  | None => Raises KeyError self
  end.

Definition _get_or_create_node (state : TogyzKumalakState) : M Key := fun self =>
  let key := state_key (canonicalize state) in
  match _table self !! key with
  | Some n => Returns key self
  | None => Returns key (with_table self (<[key := new_node state]> (_table self)))
  end.

(** [for a in actions: ch.setdefault(a, Node(prior=float(policy[a])))], with
    the exception of [policy[a]] that ends it, if any.  The loop works on the
    dictionary of the node itself: what it added before the exception stays. *)
Fixpoint expand_children (policy : list float) (actions : list Z)
    (ch : list (Z * Node)) : list (Z * Node) * option exn :=
  match actions with
  | [] => (ch, None)
  | a :: actions' =>
      match py_item policy a with
      | Ok p => expand_children policy actions' (setdefault ch a (new_child p))
      | Raise e => (ch, Some e)
      end
  end.

Definition store_expansion (node : Key) (r : list (Z * Node) * option exn) : M unit :=
  set_children node (fst r);;
  match snd r with
  | Some e => raise e
  | None => ret tt
  end.

Definition _ensure_expanded (node : Key) (state : TogyzKumalakState) : M unit :=
  n ← node_at node;
  if negb (bool_decide (children n = [])) || is_terminal state then ret tt
  else
    pv ← infer (canonicalize state);
    store_expansion node (expand_children (fst pv) (legal_moves state) (children n)).

Definition _evaluate (state : TogyzKumalakState) : M float :=
  if is_terminal state then
    let outcome := outcome state in
    match outcome with
    | None => ret 0%float
    | Some winner =>
        ret (if decide (winner = player_to_move state) then 1%float else (-1)%float)
    end
  else
    pv ← infer (canonicalize state);
    node ← _get_or_create_node state;
    n ← node_at node;
    (if bool_decide (children n = []) then
       let legal := legal_moves state in
       store_expansion node
         (expand_children (fst pv)
            (List.filter (fun a => bool_decide (a ∈ legal)) (map Z.of_nat (seq 0 9)))
            (children n))
     else ret tt);;
    ret (snd pv).

(** The score [_select_child] gives a child, and the loop over the children. *)
Definition puct_score (c_puct : float) (total_visits : Z) (child : Node) : float :=
  let u := (c_puct * prior child * PrimFloat.sqrt (float_of_int total_visits)
            / float_of_int (1 + visit_count child))%float in
  (value child + u)%float.

(** The body of the loop: [if score > best_score: ...] *)
Definition select_step (c_puct : float) (total_visits : Z)
    (best : float * option Z) (kv : Z * Node) : float * option Z :=
  let score := puct_score c_puct total_visits (snd kv) in
  if (fst best <? score)%float then (score, Some (fst kv)) else best.

Definition _select_child (c_puct : float) (node : Node) : result Z :=
  let total_visits := 1 + sumZ (map (fun kv => visit_count (snd kv)) (children node)) in
  let '(best_score, best_action) :=
    fold_left (select_step c_puct total_visits) (children node) ((-1e9)%float, None) in
  match best_action with
  | Some action => Ok action
  | None => Raise AssertionError
  end.

Definition ask : M MCTS := fun self => Returns self self.

Definition py_setitem {A : Type} (l : list A) (i : Z) (v : A) : result (list A) :=
  match py_index (length l) i with
  | Some k => Ok (<[k:=v]> l)
  | None => Raise IndexError
  end.

Definition set_prior (p : float) (n : Node) : Node :=
  mkNode p (state n) (visit_count n) (value_sum n) (children n).

(** [parent_child.visit_count += 1; parent_child.value_sum += parent_value] *)
Definition record_visit (v : float) (n : Node) : Node :=
  mkNode (prior n) (state n) (visit_count n + 1) (value_sum n + v)%float (children n).

(** The selection loop of [_simulate]; it returns the path and the leaf. *)
Fixpoint descend (fuel : nat) (node : Key) (state : TogyzKumalakState)
    (path : list (Key * Z)) : M (list (Key * Z) * TogyzKumalakState) :=
  match fuel with
  | O => fun self => OutOfFuel self
  | S fuel' =>
      _ensure_expanded node state;;
      n ← node_at node;
      if bool_decide (children n = []) then ret (path, state)
      else
        self ← ask;
        action ← lift (_select_child (c_puct self) n);
        let path := path ++ [(node, action)] in
        state ← lift (apply_move state action);
        node ← _get_or_create_node state;
        if is_terminal state then ret (path, state)
        else descend fuel' node state path
  end.

(** [for parent, action in reversed(path): ...], on the reversed path *)
Fixpoint backpropagate (rpath : list (Key * Z)) (value : float) : M unit :=
  match rpath with
  | [] => ret tt
  | (parent, action) :: rpath' =>
      n ← node_at parent;
      match dict_get (children n) action with
      | None => raise KeyError
      | Some _ =>
          let parent_value := value in
          set_children parent (dict_alter (record_visit parent_value) action (children n));;
          let value := (- value)%float in
          backpropagate rpath' value
      end
  end.

Definition _simulate (fuel : nat) (root_state : TogyzKumalakState) : M unit :=
  let path := [] in
  node ← _get_or_create_node root_state;
  let state := root_state in
  '(path, state) ← descend fuel node state path;
  value ← _evaluate state;
  backpropagate (rev path) value.

Fixpoint repeat_run (n : nat) (m : M unit) : M unit :=
  match n with
  | O => ret tt
  | S n' => m;; repeat_run n' m
  end.

(** [for action, child in root.children.items(): counts[action] = float(child.visit_count)] *)
Fixpoint fill_counts (ch : list (Z * Node)) (counts : list float) : result (list float) :=
  match ch with
  | [] => mret counts
  | (action, child) :: ch' =>
      counts ← py_setitem counts action (float_of_int (visit_count child));
      fill_counts ch' counts
  end.

(** [for a in legal: counts[a] = 1.0 / len(legal)] *)
Fixpoint fill_uniform (legal todo : list Z) (counts : list float) : result (list float) :=
  match todo with
  | [] => mret counts
  | a :: todo' =>
      counts ← py_setitem counts a (1 / float_of_int (Z.of_nat (length legal)))%float;
      fill_uniform legal todo' counts
  end.

(** [for a, eps in zip(actions, noise): child = root.children[a]; child.prior = ...] *)
Definition mix_noise (dirichlet_frac : float) (samples : list (Z * float))
    (ch : list (Z * Node)) : list (Z * Node) :=
  fold_left (fun ch '(a, eps) =>
               match dict_get ch a with
               | Some child =>
                   dict_alter (set_prior ((1 - dirichlet_frac) * prior child
                                          + dirichlet_frac * eps)%float) a ch
               | None => ch
               end)
            samples ch.

(** ** The keys of a dictionary of children *)

Lemma dict_alter_keys {V} (f : V → V) k (d : list (Z * V)) :
  map fst (dict_alter f k d) = map fst d.
Proof.
  induction d as [|[k' v] d IH]; simpl; [done|].
  destruct (k' =? k); simpl; [done|]. by rewrite IH.
Qed.

Lemma mix_noise_keys frac samples ch : map fst (mix_noise frac samples ch) = map fst ch.
Proof.
  unfold mix_noise. revert ch. induction samples as [|[a eps] samples IH]; intros ch; [done|].
  simpl. rewrite IH. destruct (dict_get ch a); [apply dict_alter_keys|done].
Qed.

Lemma dict_get_absent {V} (d : list (Z * V)) k : ¬ In k (map fst d) → dict_get d k = None.
Proof.
  induction d as [|[k' v] d IH]; simpl; [done|]. intros Hk.
  destruct (Z.eqb_spec k' k) as [->|_]; [tauto|]. apply IH. tauto.
Qed.

Lemma sorted_app_cons_absent (l : list Z) a l' :
  StronglySorted Z.lt (l ++ a :: l') → ¬ In a l.
Proof.
  intros Hs Hin.
  assert (a < a); [|lia].
  eapply (StronglySorted_app_1_elem_of Z.lt l (a :: l')); [done|..].
  - by apply list_elem_of_In.
  - by left.
Qed.

Lemma sorted_app_l (l l' : list Z) : StronglySorted Z.lt (l ++ l') → StronglySorted Z.lt l.
Proof.
  induction l as [|x l IH]; simpl; [constructor|].
  intros H. inversion H as [|? ? Hs Hall]; subst. constructor; [by apply IH|].
  apply Forall_app in Hall. tauto.
Qed.

Lemma expand_children_sorted_from policy actions : ∀ ch,
  StronglySorted Z.lt (map fst ch ++ actions) →
  StronglySorted Z.lt (map fst (fst (expand_children policy actions ch))).
Proof.
  induction actions as [|a actions IH]; intros ch Hs; simpl.
  - by rewrite app_nil_r in Hs.
  - destruct (py_item policy a) as [p|e]; simpl; [|by eapply sorted_app_l].
    apply IH. unfold setdefault.
    rewrite dict_get_absent by (by eapply sorted_app_cons_absent).
    by rewrite map_app, <- app_assoc.
Qed.

Lemma expand_children_sorted policy actions :
  StronglySorted Z.lt actions →
  StronglySorted Z.lt (map fst (fst (expand_children policy actions []))).
Proof. intros Hs. by apply expand_children_sorted_from. Qed.

Lemma sorted_filter (P : Z → bool) (l : list Z) :
  StronglySorted Z.lt l → StronglySorted Z.lt (List.filter P l).
Proof.
  induction 1 as [|x l Hs IH Hall]; simpl; [constructor|].
  destruct (P x); [|done]. constructor; [done|].
  apply Forall_forall. intros y Hy%list_elem_of_In%filter_In.
  rewrite Forall_forall in Hall. apply Hall, list_elem_of_In. tauto.
Qed.

Lemma sorted_range : StronglySorted Z.lt (map Z.of_nat (seq 0 9)).
Proof. simpl. repeat (constructor; [|repeat constructor; lia]). constructor. Qed.

Lemma enumerate_from_sorted (l : list Z) : ∀ i,
  StronglySorted Z.lt (map fst (enumerate_from i l))
  ∧ Forall (Z.le i) (map fst (enumerate_from i l)).
Proof.
  induction l as [|x l IH]; intros i; simpl; [by split; constructor|].
  destruct (IH (i + 1)) as [Hs Hle]. split.
  - constructor; [done|]. eapply Forall_impl; [exact Hle|]. simpl. lia.
  - constructor; [lia|]. eapply Forall_impl; [exact Hle|]. simpl. lia.
Qed.

Lemma sorted_map_filter {A} (f : A → Z) (P : A → bool) (l : list A) :
  StronglySorted Z.lt (map f l) → StronglySorted Z.lt (map f (List.filter P l)).
Proof.
  induction l as [|x l IH]; simpl; [done|].
  intros H. inversion H as [|? ? Hs Hall]; subst.
  destruct (P x); simpl; [|by apply IH]. constructor; [by apply IH|].
  apply Forall_forall. intros y Hy%list_elem_of_In%in_map_iff.
  destruct Hy as (z & <- & Hz%filter_In). rewrite Forall_forall in Hall.
  apply Hall, list_elem_of_In, in_map. tauto.
Qed.

Lemma legal_moves_sorted s : StronglySorted Z.lt (legal_moves s).
Proof. unfold legal_moves. apply sorted_map_filter, enumerate_from_sorted. Qed.

Section Search.

(** The list a call [_dirichlet(k, alpha)] returns, drawn from the module's
    random source. *)
Variable sample : nat → float → list float.

(** [_dirichlet(k, alpha)] calls [random.gammavariate(alpha, 1.0)] [k] times.
    That function raises [ValueError] on [alpha <= 0.0] before it draws
    anything, and its rejection loop never accepts when [alpha] is NaN or
    [2.0 * alpha] overflows (every comparison of the loop is then one with
    NaN): such a call does not return.  With [k = 0] nothing is drawn and the
    list is empty. *)
Definition gamma_refused (alpha : float) : bool := (alpha <=? 0)%float.

Definition gamma_stuck (alpha : float) : bool :=
  is_nan alpha || (0x1p1023 <=? alpha)%float.

Definition _dirichlet (k : nat) (alpha : float) : M (list float) :=
  if (k =? 0)%nat then ret []
  else if gamma_refused alpha then raise ValueError
  else if gamma_stuck alpha then fun self => OutOfFuel self
  else ret (sample k alpha).

Definition _add_root_dirichlet (root : Key) : M unit :=
  n ← node_at root;
  if bool_decide (children n = []) then ret tt
  else
    let actions := map fst (children n) in
    if bool_decide (actions = []) then ret tt
    else
      self ← ask;
      let alpha := dirichlet_alpha self in
      noise ← _dirichlet (length actions) alpha;
      set_children root (mix_noise (dirichlet_frac self) (zip actions noise) (children n)).

Definition search (fuel : nat) (root_state : TogyzKumalakState) : M (list float) :=
  root ← _get_or_create_node root_state;
  _ensure_expanded root root_state;;
  _add_root_dirichlet root;;
  self ← ask;
  repeat_run (Z.to_nat (num_simulations self)) (_simulate fuel root_state);;
  n ← node_at root;
  counts ← lift (fill_counts (children n) (replicate 9 0%float));
  let total := fold_left PrimFloat.add counts 0%float in
  if (total <=? 0)%float then
    let legal := legal_moves root_state in
    lift (fill_uniform legal legal counts)
  else ret (map (fun c => (c / total)%float) counts).

End Search.

(** A call of [_dirichlet] leaves the engine alone, however it ends. *)
Lemma dirichlet_cases sample k alpha self :
  (∃ noise, _dirichlet sample k alpha self = Returns noise self)
  ∨ _dirichlet sample k alpha self = Raises ValueError self
  ∨ _dirichlet sample k alpha self = OutOfFuel self.
Proof.
  unfold _dirichlet. destruct (k =? 0)%nat; [left; by eexists|].
  destruct (gamma_refused alpha); [right; by left|].
  destruct (gamma_stuck alpha); [right; by right|left; by eexists].
Qed.

(** The evaluator of [tests/test_mcts.py]: uniform priors over the legal
    moves, value 0. *)
Definition dummy_inference (state : TogyzKumalakState) : list float * float :=
  let legal := legal_moves state in
  let p := (1 / float_of_int (Z.of_nat (length legal)))%float in
  (fold_left (fun priors a => <[Z.to_nat a := p]> priors) legal (replicate 9 0%float),
   0%float).

(** The fallback sample of [_dirichlet]: [1.0 / k] for each of the [k] actions. *)
Definition flat_noise (k : nat) (alpha : float) : list float :=
  replicate k (1 / float_of_int (Z.of_nat k))%float.

(** * The order of float comparison

    [<?] on binary64 numbers is transitive, and on numbers that are not NaN it
    is the strict part of a total preorder.  Both follow from the specification
    of the comparison: each number that is not NaN gets a key in [Z * Z * Z],
    and the comparison is the lexicographic order of the keys. *)

Definition sf_key (f : spec_float) : Z * Z * Z :=
  match f with
  | S754_zero _ => (0, 0, 0)
  | S754_infinity s => (if s then -2 else 2, 0, 0)
  | S754_nan => (0, 0, 0)
  | S754_finite s m e => if s then (-1, - e, Zneg m) else (1, e, Zpos m)
  end.

Definition lex_lt (a b : Z * Z * Z) : Prop :=
  a.1.1 < b.1.1 ∨ (a.1.1 = b.1.1 ∧ (a.1.2 < b.1.2 ∨ (a.1.2 = b.1.2 ∧ a.2 < b.2))).

Lemma SFltb_key f g :
  f ≠ S754_nan → g ≠ S754_nan → SFltb f g = true ↔ lex_lt (sf_key f) (sf_key g).
Proof.
  intros Hf Hg. unfold SFltb, lex_lt.
  destruct f as [s|s| |s m e], g as [s'|s'| |s' m' e']; try done;
    try destruct s; try destruct s'; simpl; try (split; [done|lia]); try (split; [lia|done]).
  - destruct (Z.compare_spec e e') as [->|?|?].
    + change (Pos.compare_cont Eq m m') with (Pos.compare m m').
      destruct (Pos.compare_spec m m') as [->|?|?]; simpl; split; try done; lia.
    + simpl. split; [done|lia].
    + simpl. split; [lia|done].
  - destruct (Z.compare_spec e e') as [->|?|?].
    + change (Pos.compare_cont Eq m m') with (Pos.compare m m').
      destruct (Pos.compare_spec m m') as [->|?|?]; simpl; split; try done; lia.
    + simpl. split; [lia|done].
    + simpl. split; [done|lia].
Qed.

Lemma SFltb_nan_r f : SFltb f S754_nan = false.
Proof. by destruct f. Qed.

Lemma sf_nan_cases f : f = S754_nan ∨ f ≠ S754_nan.
Proof. destruct f; auto. Qed.

Lemma is_nan_Prim2SF x : is_nan x = false → Prim2SF x ≠ S754_nan.
Proof.
  unfold is_nan. rewrite FloatAxioms.eqb_spec. intros H E. rewrite E in H. done.
Qed.

Lemma float_ltb_trans x y z :
  (x <? y)%float = true → (y <? z)%float = true → (x <? z)%float = true.
Proof.
  rewrite !FloatAxioms.ltb_spec. intros Hxy Hyz.
  destruct (sf_nan_cases (Prim2SF x)) as [E|Hx]; [by rewrite E in Hxy|].
  destruct (sf_nan_cases (Prim2SF y)) as [E|Hy]; [by rewrite E in Hyz|].
  destruct (sf_nan_cases (Prim2SF z)) as [E|Hz]; [by rewrite E, SFltb_nan_r in Hyz|].
  apply SFltb_key in Hxy, Hyz; try done. apply SFltb_key; try done.
  unfold lex_lt in *. lia.
Qed.

Lemma float_ltb_irrefl x : (x <? x)%float = false.
Proof.
  rewrite FloatAxioms.ltb_spec.
  destruct (sf_nan_cases (Prim2SF x)) as [E|Hx]; [by rewrite E|].
  apply not_true_iff_false. rewrite SFltb_key by done. unfold lex_lt. lia.
Qed.


Lemma float_ltb_neg_trans x y z :
  is_nan y = false →
  (x <? y)%float = false → (y <? z)%float = false → (x <? z)%float = false.
Proof.
  intros Hy%is_nan_Prim2SF. rewrite !FloatAxioms.ltb_spec. intros Hxy Hyz.
  destruct (sf_nan_cases (Prim2SF x)) as [E|Hx]; [by rewrite E|].
  destruct (sf_nan_cases (Prim2SF z)) as [E|Hz]; [by rewrite E, SFltb_nan_r|].
  apply not_true_iff_false. apply not_true_iff_false in Hxy, Hyz.
  rewrite SFltb_key in * by done. unfold lex_lt in *. lia.
Qed.


(** ** The loop of [_select_child] keeps the first maximum *)

Section SelectFold.

Variables (c : float) (tv : Z).



End SelectFold.

(** * What a run of the engine preserves

    A relation [R] between the engine before and after a step that is a
    preorder and holds across the three primitive updates (a call of the
    evaluator on the canonical form of a non-terminal state, the update of the
    children of a node, the creation of a node) holds across every function of
    the engine. *)

Section Preservation.

Variable R : MCTS → MCTS → Prop.
Hypothesis R_refl : ∀ e, R e e.
Hypothesis R_trans : ∀ e1 e2 e3, R e1 e2 → R e2 e3 → R e1 e3.

Definition preserves {A : Type} (m : M A) : Prop :=
  ∀ self, R self (engine_of (m self)).

Lemma preserves_ret {A} (a : A) : preserves (ret a).
Proof. intros self. apply R_refl. Qed.

Lemma preserves_raise {A} (e : exn) : preserves (@raise A e).
Proof. intros self. apply R_refl. Qed.

Lemma preserves_bind {A B} (m : M A) (f : A → M B) :
  preserves m → (∀ a, preserves (f a)) → preserves (m ≫= f).
Proof.
  intros Hm Hf self. unfold mbind, engine_bind, bind.
  specialize (Hm self). destruct (m self) as [a self1|e self1|self1]; simpl in *; [|done..].
  eapply R_trans; [exact Hm|apply Hf].
Qed.

Lemma preserves_lift {A} (r : result A) : preserves (lift r).
Proof. intros self. unfold lift. destruct r; apply R_refl. Qed.

Lemma preserves_ask : preserves ask.
Proof. intros self. apply R_refl. Qed.

Lemma preserves_node_at k : preserves (node_at k).
Proof. intros self. unfold node_at. destruct (_table self !! k); apply R_refl. Qed.

Lemma preserves_out_of_fuel {A} : preserves (fun self => @OutOfFuel A self).
Proof. intros self. apply R_refl. Qed.

Hypothesis R_infer : ∀ s, is_terminal s = false → preserves (infer (canonicalize s)).
Hypothesis R_create : ∀ s, preserves (_get_or_create_node s).
Hypothesis R_set_sorted : ∀ k ch,
  StronglySorted Z.lt (map fst ch) → preserves (set_children k ch).
Hypothesis R_set_same_keys : ∀ k ch self n,
  _table self !! k = Some n → map fst ch = map fst (children n) →
  R self (engine_of (set_children k ch self)).

Lemma preserves_node_at_bind {B} k (f : Node → M B) :
  (∀ self n, _table self !! k = Some n → R self (engine_of (f n self))) →
  preserves (node_at k ≫= f).
Proof.
  intros Hf self. unfold mbind, engine_bind, bind, node_at.
  destruct (_table self !! k) as [n|] eqn:E; [by apply Hf|apply R_refl].
Qed.

Lemma bind_pointwise {A B} (m : M A) (f : A → M B) self :
  R self (engine_of (m self)) → (∀ a, preserves (f a)) →
  R self (engine_of ((m ≫= f) self)).
Proof.
  intros Hm Hf. unfold mbind, engine_bind, bind.
  destruct (m self) as [a self1|e self1|self1]; simpl in *; [|done..].
  eapply R_trans; [exact Hm|apply Hf].
Qed.

Lemma preserves_store_expansion k policy actions :
  StronglySorted Z.lt actions →
  preserves (store_expansion k (expand_children policy actions [])).
Proof.
  intros Hsorted. unfold store_expansion.
  apply preserves_bind; [by apply R_set_sorted, expand_children_sorted|]. intros _.
  destruct (snd _); [apply preserves_raise|apply preserves_ret].
Qed.

Lemma preserves_ensure_expanded k s : preserves (_ensure_expanded k s).
Proof.
  unfold _ensure_expanded. apply preserves_bind; [apply preserves_node_at|]. intros n.
  destruct (is_terminal s) eqn:Hterm.
  { rewrite orb_true_r. apply preserves_ret. }
  destruct (bool_decide (children n = [])) eqn:Hch; simpl; [|apply preserves_ret].
  apply bool_decide_eq_true_1 in Hch. rewrite Hch.
  apply preserves_bind; [by apply R_infer|]. intros pv.
  apply preserves_store_expansion, legal_moves_sorted.
Qed.

Lemma preserves_evaluate s : preserves (_evaluate s).
Proof.
  unfold _evaluate. destruct (is_terminal s) eqn:Hterm.
  { destruct (outcome s); apply preserves_ret. }
  apply preserves_bind; [by apply R_infer|]. intros pv.
  apply preserves_bind; [apply R_create|]. intros node.
  apply preserves_bind; [apply preserves_node_at|]. intros n.
  apply preserves_bind; [|intros; apply preserves_ret].
  destruct (bool_decide (children n = [])) eqn:Hch; [|apply preserves_ret].
  apply bool_decide_eq_true_1 in Hch. rewrite Hch.
  apply preserves_store_expansion, sorted_filter, sorted_range.
Qed.

Lemma preserves_descend fuel : ∀ k s path, preserves (descend fuel k s path).
Proof.
  induction fuel as [|fuel IH]; intros k s path; [apply preserves_out_of_fuel|].
  cbn [descend].
  apply preserves_bind; [apply preserves_ensure_expanded|]. intros _.
  apply preserves_bind; [apply preserves_node_at|]. intros n.
  destruct (bool_decide _); [apply preserves_ret|].
  apply preserves_bind; [apply preserves_ask|]. intros self.
  apply preserves_bind; [apply preserves_lift|]. intros action.
  apply preserves_bind; [apply preserves_lift|]. intros s'.
  apply preserves_bind; [apply R_create|]. intros k'.
  destruct (is_terminal s'); [apply preserves_ret|apply IH].
Qed.

Lemma preserves_backpropagate rpath : ∀ v, preserves (backpropagate rpath v).
Proof.
  induction rpath as [|[parent action] rpath IH]; intros v; [apply preserves_ret|].
  cbn [backpropagate].
  apply preserves_node_at_bind. intros self n Hn.
  destruct (dict_get _ _); [|apply R_refl].
  apply bind_pointwise; [|intros _; apply IH].
  eapply R_set_same_keys; [exact Hn|apply dict_alter_keys].
Qed.

Lemma preserves_simulate fuel s : preserves (_simulate fuel s).
Proof.
  unfold _simulate. apply preserves_bind; [apply R_create|]. intros k.
  apply preserves_bind; [apply preserves_descend|]. intros [path leaf].
  apply preserves_bind; [apply preserves_evaluate|]. intros v.
  apply preserves_backpropagate.
Qed.

Lemma preserves_repeat_run n (m : M unit) : preserves m → preserves (repeat_run n m).
Proof.
  intros Hm. induction n as [|n IH]; [apply preserves_ret|].
  cbn [repeat_run]. by apply preserves_bind.
Qed.

Lemma preserves_add_root_dirichlet noise root : preserves (_add_root_dirichlet noise root).
Proof.
  unfold _add_root_dirichlet. apply preserves_node_at_bind. intros self n Hn.
  destruct (bool_decide _); [apply R_refl|].
  destruct (bool_decide _); [apply R_refl|].
  unfold mbind, engine_bind, bind, ask.
  destruct (dirichlet_cases noise (length (map fst (children n))) (dirichlet_alpha self) self)
    as [[eps ->] | [-> | ->]]; [|apply R_refl..].
  eapply R_set_same_keys; [exact Hn|]. apply mix_noise_keys.
Qed.

Lemma preserves_search noise fuel s : preserves (search noise fuel s).
Proof.
  unfold search. apply preserves_bind; [apply R_create|]. intros root.
  apply preserves_bind; [apply preserves_ensure_expanded|]. intros _.
  apply preserves_bind; [apply preserves_add_root_dirichlet|]. intros _.
  apply preserves_bind; [apply preserves_ask|]. intros e.
  apply preserves_bind; [apply preserves_repeat_run, preserves_simulate|]. intros _.
  apply preserves_bind; [apply preserves_node_at|]. intros n.
  apply preserves_bind; [apply preserves_lift|]. intros counts. simpl.
  destruct (_ <=? _)%float; [apply preserves_lift|apply preserves_ret].
Qed.

End Preservation.

(** ** The table only grows *)

Definition table_grows (e e' : MCTS) : Prop :=
  ∀ k, is_Some (_table e !! k) → is_Some (_table e' !! k).

Lemma table_grows_refl e : table_grows e e.
Proof. by intros k. Qed.

Lemma table_grows_trans e1 e2 e3 :
  table_grows e1 e2 → table_grows e2 e3 → table_grows e1 e3.
Proof. intros H12 H23 k Hk. auto. Qed.

Lemma table_grows_infer s : preserves table_grows (infer s).
Proof. intros self. by intros k. Qed.

Lemma table_grows_set_children k ch self :
  table_grows self (engine_of (set_children k ch self)).
Proof.
  unfold set_children. destruct (_table self !! k) eqn:E; [|by intros k'].
  intros k' Hk'. simpl. destruct (decide (k = k')) as [->|Hne].
  - rewrite lookup_insert_eq. eauto.
  - by rewrite lookup_insert_ne.
Qed.

Lemma table_grows_create s : preserves table_grows (_get_or_create_node s).
Proof.
  intros self. unfold _get_or_create_node.
  destruct (_table self !! _) eqn:E; [by intros k|].
  intros k' Hk'. simpl. destruct (decide (state_key (canonicalize s) = k')) as [->|Hne].
  - rewrite lookup_insert_eq. eauto.
  - by rewrite lookup_insert_ne.
Qed.

Lemma get_or_create_present s self :
  ∃ self1,
    _get_or_create_node s self = Returns (state_key (canonicalize s)) self1
    ∧ is_Some (_table self1 !! state_key (canonicalize s)).
Proof.
  unfold _get_or_create_node. destruct (_table self !! _) eqn:E.
  - exists self. rewrite E. eauto.
  - eexists. split; [done|]. simpl. rewrite lookup_insert_eq. eauto.
Qed.

Lemma bind_returns {A B} (m : M A) (f : A → M B) self a self' :
  m self = Returns a self' → (m ≫= f) self = f a self'.
Proof. intros H. unfold mbind, engine_bind, bind. by rewrite H. Qed.

(** Once the root's node is in the table, [search] goes on as a call that
    finds it there. *)
Lemma search_from_created noise fuel s self self1 :
  _get_or_create_node s self = Returns (state_key (canonicalize s)) self1 →
  is_Some (_table self1 !! state_key (canonicalize s)) →
  search noise fuel s self = search noise fuel s self1.
Proof.
  intros Hroot [n Hn].
  assert (Hagain : _get_or_create_node s self1 = Returns (state_key (canonicalize s)) self1).
  { unfold _get_or_create_node. by rewrite Hn. }
  unfold search. by rewrite (bind_returns _ _ _ _ _ Hroot), (bind_returns _ _ _ _ _ Hagain).
Qed.

(** ** The evaluator only sees states that are not terminal *)

Lemma is_terminal_canonicalize s : is_terminal (canonicalize s) = is_terminal s.
Proof.
  unfold canonicalize. destruct (decide (player_to_move s = WHITE)); [done|].
  unfold is_terminal, has_legal_move, mirror_state. simpl.
  destruct s as [[wp bp] [kw kb] tz [|] mv]; simpl in *; [done|].
  by rewrite orb_comm.
Qed.

Definition calls_added (e e' : MCTS) : Prop :=
  ∃ new, evaluator_calls e' = new ++ evaluator_calls e
         ∧ Forall (fun x => is_terminal x = false) new.

Lemma calls_added_refl e : calls_added e e.
Proof. by exists []. Qed.

Lemma calls_added_trans e1 e2 e3 :
  calls_added e1 e2 → calls_added e2 e3 → calls_added e1 e3.
Proof.
  intros (n1 & H1 & F1) (n2 & H2 & F2). exists (n2 ++ n1). split.
  - by rewrite H2, H1, app_assoc.
  - by apply Forall_app.
Qed.

Lemma calls_added_infer s :
  is_terminal s = false → preserves calls_added (infer (canonicalize s)).
Proof.
  intros Hs self. exists [canonicalize s]. split; [done|].
  repeat constructor. by rewrite is_terminal_canonicalize.
Qed.

Lemma calls_added_set_children k ch self :
  calls_added self (engine_of (set_children k ch self)).
Proof.
  unfold set_children. destruct (_table self !! k); by exists [].
Qed.

Lemma calls_added_create s : preserves calls_added (_get_or_create_node s).
Proof.
  intros self. unfold _get_or_create_node. destruct (_table self !! _); by exists [].
Qed.

(** ** Every node keeps its children in ascending order of action *)

Definition all_sorted (e : MCTS) : Prop :=
  ∀ k n, _table e !! k = Some n → StronglySorted Z.lt (map fst (children n)).

Definition keeps_sorted (e e' : MCTS) : Prop := all_sorted e → all_sorted e'.

Lemma keeps_sorted_set_children k ch self :
  StronglySorted Z.lt (map fst ch) → keeps_sorted self (engine_of (set_children k ch self)).
Proof.
  intros Hch Hinv. unfold set_children. destruct (_table self !! k) eqn:E; [|done].
  intros k' n'. simpl. destruct (decide (k = k')) as [->|Hne].
  - rewrite lookup_insert_eq. by intros [= <-].
  - rewrite lookup_insert_ne by done. apply Hinv.
Qed.

Lemma keeps_sorted_create s : preserves keeps_sorted (_get_or_create_node s).
Proof.
  intros self Hinv. unfold _get_or_create_node. destruct (_table self !! _) eqn:E; [done|].
  intros k' n'. simpl. destruct (decide (state_key (canonicalize s) = k')) as [->|Hne].
  - rewrite lookup_insert_eq. intros [= <-]. constructor.
  - rewrite lookup_insert_ne by done. apply Hinv.
Qed.

Theorem search_keeps_children_sorted noise fuel s self :
  all_sorted self → all_sorted (engine_of (search noise fuel s self)).
Proof.
  apply (preserves_search keeps_sorted).
  - intros e He. exact He.
  - intros e1 e2 e3 H12 H23 H1. auto.
  - intros s' _ e He. exact He.
  - apply keeps_sorted_create.
  - intros k ch Hch e. by apply keeps_sorted_set_children.
  - intros k ch e n Hn Hkeys Hinv. apply keeps_sorted_set_children; [|done].
    rewrite Hkeys. by eapply Hinv.
Qed.

Lemma init_all_sorted f c a d n : all_sorted (__init__ f c a d n).
Proof. intros k x. simpl. by rewrite lookup_empty. Qed.

(** ** The value of a terminal leaf *)

(** +1 when the final scores favour the player to move, -1 when they favour
    the opponent, 0 when they are equal. *)
Definition terminal_value (s : TogyzKumalakState) : float :=
  let mine := sel (player_to_move s) (final_scores s) in
  let theirs := sel (opponent_of (player_to_move s)) (final_scores s) in
  if theirs <? mine then 1%float
  else if mine <? theirs then (-1)%float
  else 0%float.

Lemma evaluate_terminal s self :
  is_terminal s = true → _evaluate s self = Returns (terminal_value s) self.
Proof.
  intros Hterm. unfold _evaluate, outcome, terminal_value. rewrite Hterm. simpl.
  destruct (final_scores s) as [w b], (player_to_move s); simpl.
  - destruct (b <? w) eqn:E1; [done|]. by destruct (w <? b) eqn:E2.
  - destruct (b <? w) eqn:E1; destruct (w <? b) eqn:E2; try done. lia.
Qed.

Lemma ensure_expanded_terminal node s self :
  is_terminal s = true →
  _ensure_expanded node s self = Returns tt self
  ∨ _ensure_expanded node s self = Raises KeyError self.
Proof.
  intros Hterm. unfold _ensure_expanded, mbind, engine_bind, bind, node_at.
  destruct (_table self !! node); [|by right].
  rewrite Hterm, orb_true_r. by left.
Qed.

(** * Properties of the rules engine *)

Definition atsyrau_example : TogyzKumalakState :=
  {| pits := (replicate 9 0, [1; 2; 3; 4; 0; 0; 0; 0; 0]);
     kazans := (10, 20);
     tuzdyk_indices := (None, None);
     player_to_move := WHITE;
     move_number := 1 |}.

Definition drawn_example : TogyzKumalakState :=
  {| pits := (replicate 9 0, replicate 9 0);
     kazans := (81, 81);
     tuzdyk_indices := (None, None);
     player_to_move := WHITE;
     move_number := 1 |}.

(** C1 — Seed conservation.  For every state with two rows of nine pits whose
    pits and kazans sum to 162, and every action of [legal_moves] (an index of
    a non-empty pit of the mover), [apply_move] returns a state, and the pits
    and kazans of that state sum to 162 again. *)
Theorem C1_seed_conservation (s : TogyzKumalakState) (a : Z) :
  well_shaped s → total_seeds s = 162 → In a (legal_moves s) →
  ∃ s', apply_move s a = Ok s' ∧ total_seeds s' = 162.
Proof.
  intros Hsh Htot Hleg. destruct (apply_move_ok s a Hsh Hleg) as [s' Hs'].
  exists s'. split; [done|]. by rewrite (apply_move_conserves _ _ _ Hs').
Qed.

Lemma C1_seed_conservation_witness :
  ∃ s', apply_move initial 4 = Ok s' ∧ total_seeds s' = 162.
Proof.
  apply (C1_seed_conservation initial 4).
  - split; reflexivity.
  - reflexivity.
  - vm_compute. tauto.
Defined.

(** C2 — The rule at the last affected cell.  For every legal move whose
    last affected cell (the last cell whose count the sowing incremented) is
    the opponent's pit [i], with [c] its count once the sowing is done: when
    [c] is 3, the mover owns no tuzdyk, [i] is not 8 and [i] is not the
    opponent's tuzdyk index, the mover gets the tuzdyk [i], 3 stones more in
    the kazan and the cell is zeroed, whether or not an even capture would
    apply; otherwise, when [c] is even and positive, the mover's kazan gets
    [c] and the cell is zeroed; otherwise board and kazans stay as sown. *)
Theorem C2_last_cell_rule (s : TogyzKumalakState) (a i : Z) :
  well_shaped s → In a (legal_moves s) →
  last_affected_cell s a = Some (opponent_of (player_to_move s), i) →
  let mover := player_to_move s in
  let opp := opponent_of mover in
  let tuzdyk_allowed :=
    sel mover (tuzdyk_indices s) = None ∧ i ≠ 8 ∧ sel opp (tuzdyk_indices s) ≠ Some i in
  ∃ p1 k1 c s',
    sow_phase s a = Ok (p1, k1, (opp, i))
    ∧ sel opp p1 !! Z.to_nat i = Some c ∧ 0 <= i <= 8
    ∧ apply_move s a = Ok s'
    ∧ (c = 3 ∧ tuzdyk_allowed →
         tuzdyk_indices s' = upd mover (Some i) (tuzdyk_indices s)
         ∧ kazans s' = upd mover (sel mover k1 + 3) k1
         ∧ pits s' = upd opp (<[Z.to_nat i:=0]> (sel opp p1)) p1)
    ∧ (¬ (c = 3 ∧ tuzdyk_allowed) → c mod 2 = 0 ∧ 0 < c →
         tuzdyk_indices s' = tuzdyk_indices s
         ∧ kazans s' = upd mover (sel mover k1 + c) k1
         ∧ pits s' = upd opp (<[Z.to_nat i:=0]> (sel opp p1)) p1)
    ∧ (¬ (c = 3 ∧ tuzdyk_allowed) → ¬ (c mod 2 = 0 ∧ 0 < c) →
         tuzdyk_indices s' = tuzdyk_indices s ∧ kazans s' = k1 ∧ pits s' = p1).
Proof.
  intros Hsh Hleg Hlast mover opp allowed.
  destruct (sow_phase_ok s a Hsh Hleg) as (p1 & k1 & last & Hsow & Hrow).
  pose proof (sow_phase_last _ _ _ _ _ Hsow) as Hl. rewrite Hlast in Hl. simpl in Hl.
  subst last. unfold in_row in Hrow. simpl in Hrow.
  pose proof (last_incremented_not_tuzdyk _ _ _ Hlast) as Hnot. simpl in Hnot.
  assert (Hp1 : rows9 p1).
  { apply sow_phase_spec in Hsow as (_ & Hshape & _). by eapply same_shape_rows9. }
  assert (Hlen : length (sel opp p1) = 9%nat) by (destruct Hp1; by destruct opp).
  destruct (py_get_in_range (sel opp p1) i) as (c & Hget & Hc); [lia|].
  assert (Hcan : _can_create_tuzdyk s mover i = true ↔ allowed)
    by apply can_create_tuzdyk_spec.
  exists p1, k1, c.
  unfold apply_move. rewrite Hsow. simpl. fold mover. fold opp.
  fold mover in Hnot. fold opp in Hnot.
  rewrite decide_True by done. rewrite Hnot, Hget. simpl.
  unfold pit_clear. rewrite py_set_in_range by lia. simpl.
  destruct ((c =? 3) && _can_create_tuzdyk s mover i) eqn:Htuz.
  - apply andb_true_iff in Htuz as [H3 Hok]. apply Hcan in Hok.
    eexists. split; [done|]. split; [done|]. split; [lia|]. split; [done|]. simpl.
    split; [done|]. split; [intros []; split; [lia|done]|].
    intros []. split; [lia|done].
  - assert (Hno : ¬ (c = 3 ∧ allowed)).
    { intros [-> Hall]. apply Hcan in Hall. rewrite Hall in Htuz. discriminate. }
    destruct ((c mod 2 =? 0) && (0 <? c)) eqn:Hev.
    + apply andb_true_iff in Hev as [H0 Hpos].
      eexists. split; [done|]. split; [done|]. split; [lia|]. split; [done|]. simpl.
      split; [done|]. split; [done|]. intros _ []. split; lia.
    + apply andb_false_iff in Hev.
      eexists. split; [done|]. split; [done|]. split; [lia|]. split; [done|]. simpl.
      split; [done|]. split; [|done]. intros _ [? ?]. destruct Hev; lia.
Qed.

(** White sows the single stone of its pit 9 onto Black's pit 1, which
    holds 2. *)
Definition tuzdyk_example : TogyzKumalakState :=
  {| pits := ([0; 0; 0; 0; 0; 0; 0; 0; 1], [2; 0; 0; 0; 0; 0; 0; 4; 0]);
     kazans := (0, 0);
     tuzdyk_indices := (None, None);
     player_to_move := WHITE;
     move_number := 1 |}.

Lemma C2_last_cell_rule_witness :
  ∃ p1 k1 c s',
    sow_phase tuzdyk_example 8 = Ok (p1, k1, (BLACK, 0))
    ∧ sel BLACK p1 !! Z.to_nat 0 = Some c ∧ 0 <= 0 <= 8
    ∧ apply_move tuzdyk_example 8 = Ok s'
    ∧ (c = 3 ∧ (@None Z = None ∧ 0 ≠ 8 ∧ @None Z ≠ Some 0) →
         tuzdyk_indices s' = (Some 0, None)
         ∧ kazans s' = upd WHITE (sel WHITE k1 + 3) k1
         ∧ pits s' = upd BLACK (<[Z.to_nat 0:=0]> (sel BLACK p1)) p1)
    ∧ (¬ (c = 3 ∧ (@None Z = None ∧ 0 ≠ 8 ∧ @None Z ≠ Some 0)) → c mod 2 = 0 ∧ 0 < c →
         tuzdyk_indices s' = (None, None)
         ∧ kazans s' = upd WHITE (sel WHITE k1 + c) k1
         ∧ pits s' = upd BLACK (<[Z.to_nat 0:=0]> (sel BLACK p1)) p1)
    ∧ (¬ (c = 3 ∧ (@None Z = None ∧ 0 ≠ 8 ∧ @None Z ≠ Some 0)) → ¬ (c mod 2 = 0 ∧ 0 < c) →
         tuzdyk_indices s' = (None, None) ∧ kazans s' = k1 ∧ pits s' = p1).
Proof.
  apply (C2_last_cell_rule tuzdyk_example 8 0).
  - split; reflexivity.
  - vm_compute. tauto.
  - reflexivity.
Defined.

(** C3 — [apply_move] lets an index outside 0..8 through.  From the initial
    state the index -1 is read by Python as pit 8: the call returns a
    successor whose pits are altered (and which no legal move produces: it
    sows White's own row from pit 0).  The index 9 does fail, but with the
    [IndexError] of the list access, not with the [ValueError] of the
    legality check; an empty pit is the only case that check covers.  The
    lemmas [apply_move_accepts], [apply_move_rejects_empty] and
    [apply_move_index_error] give the three cases for every index. *)
Theorem C3_negative_index_accepted :
  apply_move initial (-1)
  = Ok {| pits := ([10; 10; 10; 10; 10; 10; 10; 10; 1], replicate 9 9);
          kazans := (0, 0);
          tuzdyk_indices := (None, None);
          player_to_move := BLACK;
          move_number := 2 |}
  ∧ apply_move initial 9 = Raise IndexError
  ∧ apply_move atsyrau_example 0 = Raise ValueError.
Proof. repeat split. Qed.

(** C7 — Final scores.  On a terminal state: with a kazan of 82 or more the
    scores are the kazans; otherwise the mover has no legal move and each
    side's score is its kazan plus the stones left on its own row.  On the
    state of scenario 5 the scores are (10, 30). *)
Theorem C7_final_scores (s : TogyzKumalakState) :
  is_terminal s = true →
  (82 <= fst (kazans s) ∨ 82 <= snd (kazans s) → final_scores s = kazans s)
  ∧ (¬ (82 <= fst (kazans s) ∨ 82 <= snd (kazans s)) →
       legal_moves s = []
       ∧ final_scores s = (fst (kazans s) + sumZ (fst (pits s)),
                           snd (kazans s) + sumZ (snd (pits s))))
  ∧ final_scores atsyrau_example = (10, 30).
Proof.
  intros Hterm. unfold is_terminal, final_scores in *.
  destruct (kazans s) as [wk bk] eqn:Hk. simpl in *.
  split; [|split; [|reflexivity]].
  - intros H. replace ((82 <=? wk) || (82 <=? bk)) with true; [done|].
    symmetry. apply orb_true_iff. lia.
  - intros H. replace ((82 <=? wk) || (82 <=? bk)) with false in *.
    2:{ symmetry. apply orb_false_iff. lia. }
    destruct (has_legal_move s) eqn:Hlm; simpl in Hterm; [discriminate|]. simpl.
    split.
    + unfold has_legal_move in Hlm. destruct (legal_moves s) as [|a l] eqn:El; [done|].
      assert (Hin : In a (legal_moves s)) by (rewrite El; by left).
      apply legal_moves_spec in Hin as (k & v & _ & Hk' & Hv).
      assert (existsb (λ stones, 0 <? stones) (sel (player_to_move s) (pits s)) = true).
      { apply existsb_exists. exists v. split; [|lia].
        apply list_elem_of_In, list_elem_of_lookup. eauto. }
      congruence.
    + by destruct (player_to_move s).
Qed.

Lemma C7_final_scores_witness :
  (82 <= fst (kazans atsyrau_example) ∨ 82 <= snd (kazans atsyrau_example) →
     final_scores atsyrau_example = kazans atsyrau_example)
  ∧ (¬ (82 <= fst (kazans atsyrau_example) ∨ 82 <= snd (kazans atsyrau_example)) →
       legal_moves atsyrau_example = []
       ∧ final_scores atsyrau_example
         = (fst (kazans atsyrau_example) + sumZ (fst (pits atsyrau_example)),
            snd (kazans atsyrau_example) + sumZ (snd (pits atsyrau_example))))
  ∧ final_scores atsyrau_example = (10, 30).
Proof. apply (C7_final_scores atsyrau_example). reflexivity. Defined.

(** C10 — [outcome] is a total function, and it answers [None] exactly on the
    states that are not terminal and on the terminal states whose final
    scores are equal: the initial position and a finished 81-81 game get the
    same answer. *)
Theorem C10_outcome_none (s : TogyzKumalakState) :
  (outcome s = None ↔
     is_terminal s = false
     ∨ (is_terminal s = true ∧ fst (final_scores s) = snd (final_scores s)))
  ∧ is_terminal initial = false
  ∧ is_terminal drawn_example = true
  ∧ outcome initial = outcome drawn_example.
Proof.
  split; [|by repeat split].
  unfold outcome. destruct (is_terminal s); simpl.
  - destruct (final_scores s) as [w b]. simpl.
    destruct (b <? w) eqn:E1; [|destruct (w <? b) eqn:E2].
    + split; [done|]. intros [|[_ ?]]; [done|lia].
    + split; [done|]. intros [|[_ ?]]; [done|lia].
    + split; [|done]. intros _. right. split; [done|lia].
  - split; [|done]. intros _. by left.
Qed.

(** * Properties of the text form *)

(** The state after White's opening move from pit 5. *)
Definition after_opening : TogyzKumalakState :=
  {| pits := ([9; 9; 9; 9; 1; 10; 10; 10; 10], [10; 10; 10; 0; 9; 9; 9; 9; 9]);
     kazans := (10, 0);
     tuzdyk_indices := (None, None);
     player_to_move := BLACK;
     move_number := 2 |}.

(** C4, as stated, fails: a text whose seeds sum to 161 is accepted, and so is
    one with rows of two and one pits, a negative kazan, a tuzdyk index of 12
    and move number 0. *)
Lemma C4_unvalidated_text_accepted :
  (∃ st, deserialize_fen "W|8-9-9-9-9-9-9-9-9,9-9-9-9-9-9-9-9-9|0,0|-,-|1" = Ok st
         ∧ total_seeds st = 161 ∧ total_seeds st ≠ 162)
  ∧ deserialize_fen "B|1-2,3|-7,0|12,-|0"
    = Ok {| pits := ([1; 2], [3]);
            kazans := (-7, 0);
            tuzdyk_indices := (Some 12, None);
            player_to_move := BLACK;
            move_number := 0 |}.
Proof.
  split; [|reflexivity]. eexists. split; [reflexivity|]. split; [reflexivity|].
  vm_compute. discriminate.
Qed.

(** C9 — Round trip: every state reachable from [initial] by legal moves is
    returned unchanged by [deserialize_fen] from its [serialize_fen] text. *)
Theorem C9_fen_round_trip (s : TogyzKumalakState) :
  reachable s → deserialize_fen (serialize_fen s) = Ok s.
Proof.
  intros (Hsh & Hnn & _)%reachable_invariant. destruct Hsh as [Hw Hb].
  apply fen_roundtrip; [| |done].
  - intros E. by rewrite E in Hw.
  - intros E. by rewrite E in Hb.
Qed.

Lemma C9_fen_round_trip_witness :
  deserialize_fen (serialize_fen after_opening) = Ok after_opening.
Proof.
  apply (C9_fen_round_trip after_opening).
  apply (reachable_move initial 4 after_opening).
  - apply reachable_initial.
  - vm_compute. tauto.
  - reflexivity.
Defined.

(** * Properties of the search *)

(** An evaluator that prefers pit 5, and the root node of the initial
    position once [_ensure_expanded] has run on a fresh engine. *)
Definition biased_inference (state : TogyzKumalakState) : list float * float :=
  ([0.0625; 0.0625; 0.0625; 0.0625; 0.5; 0.0625; 0.0625; 0.0625; 0.0625]%float, 0%float).

Definition expanded_root : Node :=
  match (k ← _get_or_create_node initial; _ensure_expanded k initial;; node_at k)
          (__init__ biased_inference 1.5 0.25 0.25 0) with
  | Returns n _ => n
  | _ => new_node initial
  end.





(** A position near the end of a game, a fresh engine with the uniform
    evaluator and two simulations per call, and the engine a call of [search]
    leaves behind. *)
Definition endgame_example : TogyzKumalakState :=
  {| pits := ([0; 0; 0; 0; 0; 0; 0; 1; 1], [1; 0; 0; 0; 0; 0; 0; 0; 1]);
     kazans := (79, 79);
     tuzdyk_indices := (None, None);
     player_to_move := WHITE;
     move_number := 120 |}.

Definition fresh_engine : MCTS := __init__ dummy_inference 1.5 0.25 0.25 2.

Definition engine_after (self : MCTS) (s : TogyzKumalakState) : MCTS :=
  engine_of (search flat_noise 64 s self).

(** The visits recorded under the node of [s]. *)
Definition root_visits (self : MCTS) (s : TogyzKumalakState) : Z :=
  match _table self !! state_key (canonicalize s) with
  | Some n => sumZ (map (fun kv => visit_count (snd kv)) (children n))
  | None => 0
  end.

Definition returns {A : Type} (r : run A) : bool :=
  match r with
  | Returns _ _ => true
  | _ => false
  end.

(** C5, as stated, fails: after a first call of [search] the engine holds a
    table of 27 nodes, and that table is the one the second call starts with;
    the root's node then carries the 2 visits of the first call, and 4 after
    the second call of 2 simulations. *)
Lemma C5_table_survives_search :
  returns (search flat_noise 64 endgame_example fresh_engine) = true
  ∧ size (_table fresh_engine) = 0%nat
  ∧ size (_table (engine_after fresh_engine endgame_example)) = 27%nat
  ∧ root_visits (engine_after fresh_engine endgame_example) endgame_example = 2
  ∧ returns (search flat_noise 64 endgame_example
               (engine_after fresh_engine endgame_example)) = true
  ∧ root_visits (engine_after (engine_after fresh_engine endgame_example) endgame_example)
                endgame_example = 4.
Proof. repeat apply conj; vm_compute; reflexivity. Qed.

(** C8 — A terminal leaf.  On a terminal state [_evaluate] returns +1, -1 or
    0 as the final scores favour the player to move, the opponent or nobody,
    and leaves the engine as it was: no call of the evaluator, no expansion;
    [_ensure_expanded] leaves the engine as it was too.  In a whole
    simulation and in a whole search, however they end, every state the
    evaluator is called on is not terminal, and the value [_simulate] backs
    up from a terminal leaf is that of [terminal_value]. *)
Theorem C8_terminal_leaf (leaf : TogyzKumalakState) (self : MCTS) :
  is_terminal leaf = true →
  _evaluate leaf self = Returns (terminal_value leaf) self
  ∧ (∀ node, _ensure_expanded node leaf self = Returns tt self
             ∨ _ensure_expanded node leaf self = Raises KeyError self)
  ∧ (∀ fuel root self0, calls_added self0 (engine_of (_simulate fuel root self0)))
  ∧ (∀ noise fuel root self0, calls_added self0 (engine_of (search noise fuel root self0)))
  ∧ (∀ fuel root self0 node self1 path,
       _get_or_create_node root self0 = Returns node self1 →
       descend fuel node root [] self1 = Returns (path, leaf) self →
       _simulate fuel root self0 = backpropagate (rev path) (terminal_value leaf) self).
Proof.
  intros Hterm. split; [by apply evaluate_terminal|].
  split; [intros node; by apply ensure_expanded_terminal|]. split; [|split].
  - intros fuel root self0.
    exact (preserves_simulate calls_added calls_added_refl calls_added_trans
             calls_added_infer calls_added_create
             (fun k ch _ => calls_added_set_children k ch)
             (fun k ch self _ _ _ => calls_added_set_children k ch self)
             fuel root self0).
  - intros noise fuel root self0.
    exact (preserves_search calls_added calls_added_refl calls_added_trans
             calls_added_infer calls_added_create
             (fun k ch _ => calls_added_set_children k ch)
             (fun k ch self _ _ _ => calls_added_set_children k ch self)
             noise fuel root self0).
  - intros fuel root self0 node self1 path Hroot Hdesc.
    unfold _simulate. rewrite (bind_returns _ _ _ _ _ Hroot).
    rewrite (bind_returns _ _ _ _ _ Hdesc).
    by rewrite (bind_returns _ _ _ _ _ (evaluate_terminal leaf self Hterm)).
Qed.

Lemma C8_terminal_leaf_witness :
  _evaluate atsyrau_example fresh_engine
  = Returns (terminal_value atsyrau_example) fresh_engine
  ∧ (∀ node, _ensure_expanded node atsyrau_example fresh_engine = Returns tt fresh_engine
             ∨ _ensure_expanded node atsyrau_example fresh_engine
               = Raises KeyError fresh_engine)
  ∧ (∀ fuel root self0, calls_added self0 (engine_of (_simulate fuel root self0)))
  ∧ (∀ noise fuel root self0, calls_added self0 (engine_of (search noise fuel root self0)))
  ∧ (∀ fuel root self0 node self1 path,
       _get_or_create_node root self0 = Returns node self1 →
       descend fuel node root [] self1 = Returns (path, atsyrau_example) fresh_engine →
       _simulate fuel root self0
       = backpropagate (rev path) (terminal_value atsyrau_example) fresh_engine).
Proof. apply (C8_terminal_leaf atsyrau_example fresh_engine). reflexivity. Defined.

Example terminal_values :
  terminal_value atsyrau_example = (-1)%float
  ∧ terminal_value drawn_example = 0%float
  ∧ terminal_value (mirror_state atsyrau_example) = (-1)%float
  ∧ terminal_value (mkState (replicate 9 0, replicate 9 0) (90, 72) (None, None) WHITE 150)
    = 1%float.
Proof. repeat apply conj; vm_compute; reflexivity. Qed.
(** * Further properties of the rules engine *)

(** ** Legal moves and the test for one *)

Lemma has_legal_move_spec s : has_legal_move s = true ↔ legal_moves s ≠ [].
Proof.
  unfold has_legal_move. rewrite existsb_exists. split.
  - intros (v & Hin & Hv). apply list_elem_of_In, list_elem_of_lookup in Hin as [k Hk].
    assert (In (Z.of_nat k) (legal_moves s)) as Hin'.
    { apply legal_moves_spec. exists k, v. split; [done|]. split; [done|lia]. }
    intros E. by rewrite E in Hin'.
  - intros Hne. destruct (legal_moves s) as [|a l] eqn:E; [done|].
    assert (In a (legal_moves s)) as Hin by (rewrite E; by left).
    apply legal_moves_spec in Hin as (k & v & _ & Hk & Hv).
    exists v. split; [|lia]. apply list_elem_of_In, list_elem_of_lookup. eauto.
Qed.

Lemma legal_moves_lookup s a :
  In a (legal_moves s) ↔
  0 <= a ∧ ∃ v, sel (player_to_move s) (pits s) !! Z.to_nat a = Some v ∧ 0 < v.
Proof.
  rewrite legal_moves_spec. split.
  - intros (k & v & -> & Hk & Hv). split; [lia|]. exists v. by rewrite Nat2Z.id.
  - intros (Ha & v & Hk & Hv). exists (Z.to_nat a), v. split; [lia|done].
Qed.

(** ** What a move changes and what it keeps *)

Definition kazans_le (k k' : Z * Z) : Prop := fst k <= fst k' ∧ snd k <= snd k'.

Lemma kazans_le_refl k : kazans_le k k.
Proof. unfold kazans_le. lia. Qed.

Lemma kazans_le_trans k1 k2 k3 : kazans_le k1 k2 → kazans_le k2 k3 → kazans_le k1 k3.
Proof. unfold kazans_le. lia. Qed.

Lemma kazans_le_upd p k v : sel p k <= v → kazans_le k (upd p v k).
Proof. destruct p, k; unfold kazans_le; simpl; lia. Qed.

Lemma sow_loop_kazans tuz n : ∀ p k cur last p' k' last',
  sow_loop tuz n p k cur last = Ok (p', k', last') → kazans_le k k'.
Proof.
  induction n as [|n IH]; intros p k cur last p' k' last'; simpl.
  - intros [= _ <- _]. apply kazans_le_refl.
  - destruct (tuzdyk_owner_at tuz cur.1 cur.2) as [owner|]; simpl.
    + intros H%IH. eapply kazans_le_trans; [|exact H]. apply kazans_le_upd. lia.
    + destruct (pit_incr p cur.1 cur.2) as [p1|]; [|discriminate]. simpl. apply IH.
Qed.

Lemma sow_phase_kazans self a p1 k1 last :
  sow_phase self a = Ok (p1, k1, last) → kazans_le (kazans self) k1.
Proof.
  unfold sow_phase.
  destruct (py_get _ a) as [n|]; [|discriminate]. simpl.
  destruct (n <=? 0); [discriminate|].
  destruct (pit_clear _ _ a) as [p0|]; [|discriminate]. simpl.
  destruct (1 <? n).
  - destruct (pit_incr p0 _ a) as [p0'|]; [|discriminate]. simpl. apply sow_loop_kazans.
  - simpl. apply sow_loop_kazans.
Qed.

(** The two ways [settle] ends: nothing changes at the last cell, or the
    mover captures [c > 0] stones there, with a new tuzdyk when the code
    allows one for a count of 3. *)
Lemma settle_cases self p1 k1 last s' :
  settle self (p1, k1, last) = Ok s' →
  let mover := player_to_move self in
  let opp := opponent_of mover in
  (pits s' = p1 ∧ kazans s' = k1 ∧ tuzdyk_indices s' = tuzdyk_indices self)
  ∨ ∃ c p2,
      fst last = opp
      ∧ tuzdyk_owner_at (tuzdyk_indices self) opp (snd last) = None
      ∧ py_get (sel opp p1) (snd last) = Ok c ∧ 0 < c
      ∧ pit_clear p1 opp (snd last) = Ok p2
      ∧ pits s' = p2 ∧ kazans s' = upd mover (sel mover k1 + c) k1
      ∧ (tuzdyk_indices s' = tuzdyk_indices self
         ∨ (c = 3 ∧ _can_create_tuzdyk self mover (snd last) = true
            ∧ tuzdyk_indices s' = upd mover (Some (snd last)) (tuzdyk_indices self))).
Proof.
  destruct last as [last_side last_idx]. intros H mover opp. revert H.
  unfold settle. fold mover. fold opp. simpl fst. simpl snd.
  destruct (decide (last_side = opp)) as [->|Hne].
  2:{ simpl. intros [= <-]. by left. }
  destruct (tuzdyk_owner_at _ opp last_idx) eqn:Hown.
  { simpl. intros [= <-]. by left. }
  destruct (py_get (sel opp p1) last_idx) as [c|] eqn:Hc; [|discriminate]. simpl.
  destruct ((c =? 3) && _can_create_tuzdyk self mover last_idx) eqn:Htuz.
  - destruct (pit_clear p1 opp last_idx) as [p2|] eqn:Hp2; [|discriminate]. simpl.
    intros [= <-]. right. apply andb_true_iff in Htuz as [H3 Hcan].
    exists c, p2. simpl. repeat split; try done; try lia.
    + f_equal. f_equal. lia.
    + right. split; [lia|done].
  - destruct ((c mod 2 =? 0) && (0 <? c)) eqn:Hev.
    + destruct (pit_clear p1 opp last_idx) as [p2|] eqn:Hp2; [|discriminate]. simpl.
      intros [= <-]. right. apply andb_true_iff in Hev as [_ Hpos].
      exists c, p2. simpl. repeat split; try done; try lia. by left.
    + simpl. intros [= <-]. by left.
Qed.

Lemma settle_kazans self p1 k1 last s' :
  settle self (p1, k1, last) = Ok s' → kazans_le k1 (kazans s').
Proof.
  intros [(_ & -> & _)|(c & p2 & _ & _ & _ & Hc & _ & _ & -> & _)]%settle_cases.
  - apply kazans_le_refl.
  - apply kazans_le_upd. lia.
Qed.

Lemma apply_move_kazans self a s' :
  apply_move self a = Ok s' → kazans_le (kazans self) (kazans s').
Proof.
  unfold apply_move. destruct (sow_phase self a) as [[[p1 k1] last]|] eqn:Hs; [|discriminate].
  simpl. intros Hf. eapply kazans_le_trans; [by eapply sow_phase_kazans|by eapply settle_kazans].
Qed.

(** ** Tuzdyks *)

Lemma py_set_lookup l i v l' (j : nat) :
  0 <= i → py_set l i v = Ok l' →
  l' !! j = if decide (j = Z.to_nat i) then Some v else l !! j.
Proof.
  intros Hi. unfold py_set, py_index.
  replace (0 <=? i) with true by lia. replace (i <? 0) with false by lia. simpl.
  destruct (i <? Z.of_nat (length l)) eqn:Hlt; [|discriminate]. intros [= <-].
  destruct (decide (j = Z.to_nat i)) as [->|Hne].
  - apply list_lookup_insert_eq. lia.
  - by apply list_lookup_insert_ne.
Qed.

Lemma py_get_lookup l i v : 0 <= i → py_get l i = Ok v → l !! Z.to_nat i = Some v.
Proof.
  intros Hi. unfold py_get, py_index.
  replace (0 <=? i) with true by lia. replace (i <? 0) with false by lia. simpl.
  destruct (i <? Z.of_nat (length l)); [|discriminate].
  by destruct (l !! Z.to_nat i); intros [= <-].
Qed.

Lemma sel_upd {A} side' side (v : A) x :
  sel side' (upd side v x) = if decide (side' = side) then v else sel side' x.
Proof. by destruct side', side. Qed.

Lemma pit_incr_lookup p side idx p' side' (j : nat) :
  0 <= idx → pit_incr p side idx = Ok p' →
  (side', j) ≠ (side, Z.to_nat idx) → sel side' p' !! j = sel side' p !! j.
Proof.
  intros Hi. unfold pit_incr. destruct (py_get _ _) as [v|]; [|discriminate]. simpl.
  destruct (py_set _ _ _) as [row|] eqn:Hs; [|discriminate]. simpl. intros [= <-] Hne.
  rewrite sel_upd. destruct (decide (side' = side)) as [->|]; [|done].
  rewrite (py_set_lookup _ _ _ _ j Hi Hs). rewrite decide_False; [done|congruence].
Qed.

Lemma pit_clear_lookup p side idx p' side' (j : nat) :
  0 <= idx → pit_clear p side idx = Ok p' →
  sel side' p' !! j
  = if decide ((side', j) = (side, Z.to_nat idx)) then Some 0 else sel side' p !! j.
Proof.
  intros Hi. unfold pit_clear.
  destruct (py_set _ _ _) as [row|] eqn:Hs; [|discriminate]. simpl. intros [= <-].
  rewrite sel_upd. destruct (decide (side' = side)) as [->|Hside].
  - rewrite (py_set_lookup _ _ _ _ j Hi Hs).
    destruct (decide (j = Z.to_nat idx)) as [->|Hj].
    + by rewrite decide_True.
    + rewrite decide_False; [done|congruence].
  - rewrite decide_False; [done|congruence].
Qed.

(** A tuzdyk of [owner] at index [i] is the pit [i] of the other row. *)
Lemma tuzdyk_cell_owner tuz owner i :
  sel owner tuz = Some i → tuzdyk_owner_at tuz (opponent_of owner) i = Some owner.
Proof.
  intros H. unfold tuzdyk_owner_at.
  destruct tuz as [w b], owner; simpl in *; subst;
    repeat (case_bool_decide; simpl); done.
Qed.

(** Each tuzdyk index lies in 0..7, and the two players' indices differ. *)
Definition tuzdyk_placed (tuz : option Z * option Z) : Prop :=
  (∀ owner i, sel owner tuz = Some i → 0 <= i <= 7)
  ∧ (∀ i, fst tuz = Some i → snd tuz ≠ Some i).

(** The pit of each tuzdyk is empty. *)
Definition tuzdyk_empty (tuz : option Z * option Z) (p : list Z * list Z) : Prop :=
  ∀ owner i, sel owner tuz = Some i → sel (opponent_of owner) p !! Z.to_nat i = Some 0.

Lemma sow_loop_tuzdyk_empty tuz n : ∀ p k cur last p' k' last',
  tuzdyk_placed tuz → in_row cur → tuzdyk_empty tuz p →
  sow_loop tuz n p k cur last = Ok (p', k', last') → tuzdyk_empty tuz p'.
Proof.
  induction n as [|n IH]; intros p k cur last p' k' last' Hpl Hcur Hemp; simpl.
  - by intros [= <- _ _].
  - assert (Hnext : in_row (match n with O => cur | S _ => next_pos cur.1 cur.2 end)).
    { destruct n; [done|]. by apply next_pos_in_row. }
    destruct (tuzdyk_owner_at tuz cur.1 cur.2) as [owner|] eqn:Hown; simpl.
    + by apply IH.
    + destruct (pit_incr p cur.1 cur.2) as [p1|] eqn:Hp1; [|discriminate]. simpl.
      apply IH; [done..|]. intros owner i Hi.
      rewrite (pit_incr_lookup _ _ _ _ _ _ (proj1 Hcur) Hp1); [by apply Hemp|].
      intros [= Hside Hidx]. destruct Hpl as [Hrange _].
      specialize (Hrange _ _ Hi). unfold in_row in Hcur.
      assert (i = cur.2) as -> by lia.
      apply tuzdyk_cell_owner in Hi. rewrite Hside in Hi. congruence.
Qed.

Lemma sow_phase_tuzdyk_empty self a p1 k1 last :
  0 <= a <= 8 → tuzdyk_placed (tuzdyk_indices self) →
  tuzdyk_empty (tuzdyk_indices self) (pits self) →
  sow_phase self a = Ok (p1, k1, last) → tuzdyk_empty (tuzdyk_indices self) p1.
Proof.
  intros Ha Hpl Hemp. unfold sow_phase.
  destruct (py_get _ a) as [n|] eqn:Hn; [|discriminate]. simpl.
  destruct (n <=? 0) eqn:Hpos; [discriminate|].
  destruct (pit_clear _ _ a) as [p0|] eqn:Hc; [|discriminate]. simpl.
  assert (Hp0 : tuzdyk_empty (tuzdyk_indices self) p0).
  { intros owner i Hi. rewrite (pit_clear_lookup _ _ _ _ _ _ (proj1 Ha) Hc).
    destruct (decide _); [done|by apply Hemp]. }
  pose proof (next_pos_in_row (player_to_move self) a Ha) as Hcur.
  destruct (1 <? n).
  - destruct (pit_incr p0 _ a) as [p0'|] eqn:Hi; [|discriminate]. simpl.
    apply sow_loop_tuzdyk_empty; [done..|]. intros owner i Hown.
    rewrite (pit_incr_lookup _ _ _ _ _ _ (proj1 Ha) Hi); [by apply Hp0|].
    intros [= Hside Hidx]. destruct Hpl as [Hrange _]. specialize (Hrange _ _ Hown).
    assert (i = a) as -> by lia. specialize (Hemp _ _ Hown). rewrite Hside in Hemp.
    apply (py_get_lookup _ _ _ (proj1 Ha)) in Hn. rewrite Hn in Hemp.
    inversion Hemp. lia.
  - simpl. by apply sow_loop_tuzdyk_empty.
Qed.

Lemma legal_move_in_row self a :
  well_shaped self → In a (legal_moves self) → 0 <= a <= 8.
Proof.
  intros [Hw Hb] (Ha & _)%legal_move_get.
  assert (length (sel (player_to_move self) (pits self)) = 9%nat)
    by (by destruct (player_to_move self)).
  lia.
Qed.

Lemma apply_move_tuzdyk self a s' :
  well_shaped self → In a (legal_moves self) →
  tuzdyk_placed (tuzdyk_indices self) → tuzdyk_empty (tuzdyk_indices self) (pits self) →
  apply_move self a = Ok s' →
  tuzdyk_placed (tuzdyk_indices s') ∧ tuzdyk_empty (tuzdyk_indices s') (pits s').
Proof.
  intros Hsh Hleg Hpl Hemp. pose proof (legal_move_in_row _ _ Hsh Hleg) as Ha.
  destruct (sow_phase_ok self a Hsh Hleg) as (p1 & k1 & last & Hsow & Hlast).
  unfold apply_move. rewrite Hsow. simpl.
  pose proof (sow_phase_tuzdyk_empty _ _ _ _ _ Ha Hpl Hemp Hsow) as Hp1.
  intros [(-> & _ & ->)|(c & p2 & Hside & Hown & Hc & Hpos & Hclr & -> & _ & Htuz)]%settle_cases;
    [done|].
  assert (Hp2 : tuzdyk_empty (tuzdyk_indices self) p2).
  { intros owner i Hi. rewrite (pit_clear_lookup _ _ _ _ _ _ (proj1 Hlast) Hclr).
    destruct (decide _); [done|by apply Hp1]. }
  destruct Htuz as [->|(_ & Hcan & ->)]; [done|].
  apply can_create_tuzdyk_spec in Hcan as (Hnone & H8 & Hopp).
  set (mover := player_to_move self) in *. destruct Hpl as [Hrange Hdiff].
  unfold in_row in Hlast. split; [split|].
  - intros owner i. rewrite sel_upd. destruct (decide (owner = mover)) as [->|_].
    + intros [= <-]. lia.
    + apply Hrange.
  - intros i. destruct mover; simpl in *.
    + intros [= <-]. done.
    + intros Hi [= <-]. done.
  - intros owner i. rewrite sel_upd. destruct (decide (owner = mover)) as [->|_].
    + intros [= <-]. rewrite (pit_clear_lookup _ _ _ _ _ _ (proj1 Hlast) Hclr).
      by rewrite decide_True.
    + apply Hp2.
Qed.

(** ** Invariants of the states of a game *)

Lemma reachable_tuzdyk s :
  reachable s →
  tuzdyk_placed (tuzdyk_indices s) ∧ tuzdyk_empty (tuzdyk_indices s) (pits s).
Proof.
  induction 1 as [|s a s' Hreach [Hpl Hemp] Hleg Hmove].
  - split; [split|]; by intros [] ?.
  - apply reachable_invariant in Hreach as (Hsh & _). by eapply apply_move_tuzdyk.
Qed.

Lemma reachable_kazans s : reachable s → kazans_le (0, 0) (kazans s).
Proof.
  induction 1 as [|s a s' _ IH _ Hmove]; [apply kazans_le_refl|].
  eapply kazans_le_trans; [exact IH|by eapply apply_move_kazans].
Qed.

(** ** The symmetry of the two sides

    [mirror_state] exchanges the rows, the kazans, the tuzdyks and the player
    to move; the rules do not tell a game from its mirror image. *)

Definition swap {A : Type} (x : A * A) : A * A := (snd x, fst x).

Definition mirror_cell (c : cell) : cell := (opponent_of (fst c), snd c).

Definition mirror_sown (x : list Z * list Z * (Z * Z) * cell)
    : list Z * list Z * (Z * Z) * cell :=
  let '(p, k, last) := x in (swap p, swap k, mirror_cell last).

Lemma opponent_of_involutive p : opponent_of (opponent_of p) = p.
Proof. by destruct p. Qed.

Lemma sel_swap {A} p (x : A * A) : sel (opponent_of p) (swap x) = sel p x.
Proof. by destruct p. Qed.

Lemma upd_swap {A} p (v : A) x : upd (opponent_of p) v (swap x) = swap (upd p v x).
Proof. by destruct p. Qed.

Lemma tuzdyk_owner_at_swap tuz side idx :
  tuzdyk_owner_at (swap tuz) (opponent_of side) idx
  = opponent_of <$> tuzdyk_owner_at tuz side idx.
Proof.
  unfold tuzdyk_owner_at. destruct tuz as [w b], side; simpl;
    repeat (case_bool_decide; simpl); try done; congruence.
Qed.

Lemma next_pos_swap side idx :
  next_pos (opponent_of side) idx = mirror_cell (next_pos side idx).
Proof. unfold next_pos. by destruct (idx =? 8). Qed.

Lemma pit_incr_swap p side idx :
  pit_incr (swap p) (opponent_of side) idx = swap <$> pit_incr p side idx.
Proof.
  unfold pit_incr. rewrite sel_swap. destruct (py_get _ _) as [v|]; [|done]. simpl.
  destruct (py_set _ _ _) as [row|]; [|done]. simpl. by rewrite upd_swap.
Qed.

Lemma pit_clear_swap p side idx :
  pit_clear (swap p) (opponent_of side) idx = swap <$> pit_clear p side idx.
Proof.
  unfold pit_clear. rewrite sel_swap.
  destruct (py_set _ _ _) as [row|]; [|done]. simpl. by rewrite upd_swap.
Qed.

Lemma sow_loop_swap tuz n : ∀ p k cur last,
  sow_loop (swap tuz) n (swap p) (swap k) (mirror_cell cur) (mirror_cell last)
  = mirror_sown <$> sow_loop tuz n p k cur last.
Proof.
  induction n as [|n IH]; intros p k cur last; [done|].
  cbn [sow_loop]. change (mirror_cell cur).1 with (opponent_of cur.1).
  change (mirror_cell cur).2 with cur.2. rewrite tuzdyk_owner_at_swap.
  assert (Hnext : match n with
                  | O => mirror_cell cur
                  | S _ => next_pos (opponent_of cur.1) cur.2
                  end
                  = mirror_cell (match n with O => cur | S _ => next_pos cur.1 cur.2 end)).
  { destruct n; [done|apply next_pos_swap]. }
  destruct (tuzdyk_owner_at tuz cur.1 cur.2) as [owner|]; simpl.
  - rewrite sel_swap, upd_swap, Hnext. apply IH.
  - rewrite pit_incr_swap. destruct (pit_incr p cur.1 cur.2) as [p1|]; [|done]. simpl.
    rewrite Hnext. apply IH.
Qed.

Lemma sow_phase_mirror self a :
  sow_phase (mirror_state self) a = mirror_sown <$> sow_phase self a.
Proof.
  unfold sow_phase. cbn [mirror_state pits kazans tuzdyk_indices player_to_move].
  change (sel BLACK (pits self), sel WHITE (pits self)) with (swap (pits self)).
  change (sel BLACK (kazans self), sel WHITE (kazans self)) with (swap (kazans self)).
  change (sel BLACK (tuzdyk_indices self), sel WHITE (tuzdyk_indices self))
    with (swap (tuzdyk_indices self)).
  rewrite sel_swap. destruct (py_get _ a) as [n|]; [|done]. simpl.
  destruct (n <=? 0); [done|]. rewrite pit_clear_swap.
  destruct (pit_clear _ _ a) as [p0|]; [|done]. simpl. rewrite next_pos_swap.
  destruct (1 <? n).
  - rewrite pit_incr_swap. destruct (pit_incr p0 _ a) as [p0'|]; [|done]. simpl.
    apply sow_loop_swap.
  - simpl. apply sow_loop_swap.
Qed.

Lemma can_create_tuzdyk_mirror self mover idx :
  _can_create_tuzdyk (mirror_state self) (opponent_of mover) idx
  = _can_create_tuzdyk self mover idx.
Proof.
  unfold _can_create_tuzdyk. cbn [mirror_state tuzdyk_indices].
  change (sel BLACK (tuzdyk_indices self), sel WHITE (tuzdyk_indices self))
    with (swap (tuzdyk_indices self)).
  by rewrite !sel_swap.
Qed.

Lemma mirror_state_build self p k t :
  mirror_state {| pits := p; kazans := k; tuzdyk_indices := t;
                  player_to_move := opponent_of (player_to_move self);
                  move_number := move_number self + 1 |}
  = {| pits := swap p; kazans := swap k; tuzdyk_indices := swap t;
       player_to_move := opponent_of (opponent_of (player_to_move self));
       move_number := move_number self + 1 |}.
Proof. done. Qed.

Lemma settle_mirror self sown :
  settle (mirror_state self) (mirror_sown sown) = mirror_state <$> settle self sown.
Proof.
  destruct sown as [[p k] [last_side last_idx]]. unfold settle, mirror_sown, mirror_cell.
  cbn [fst snd]. cbn [mirror_state player_to_move tuzdyk_indices move_number].
  change (sel BLACK (tuzdyk_indices self), sel WHITE (tuzdyk_indices self))
    with (swap (tuzdyk_indices self)).
  set (mover := player_to_move self).
  destruct (decide (last_side = opponent_of mover)) as [->|Hne].
  2:{ rewrite decide_False by (intros E; apply Hne; by destruct last_side, mover). done. }
  rewrite decide_True by done. rewrite tuzdyk_owner_at_swap.
  destruct (tuzdyk_owner_at _ (opponent_of mover) last_idx); [done|]. simpl.
  rewrite !sel_swap.
  destruct (py_get (sel (opponent_of mover) p) last_idx) as [c|]; [|done].
  simpl. rewrite can_create_tuzdyk_mirror.
  destruct ((c =? 3) && _can_create_tuzdyk self mover last_idx).
  - rewrite pit_clear_swap.
    destruct (pit_clear p (opponent_of mover) last_idx) as [p2|]; [|done]. simpl.
    by rewrite !upd_swap.
  - destruct ((c mod 2 =? 0) && (0 <? c)); [|done].
    rewrite pit_clear_swap.
    destruct (pit_clear p (opponent_of mover) last_idx) as [p2|]; [|done]. simpl.
    by rewrite !upd_swap.
Qed.

Lemma apply_move_mirror self a :
  apply_move (mirror_state self) a = mirror_state <$> apply_move self a.
Proof.
  unfold apply_move. rewrite sow_phase_mirror.
  destruct (sow_phase self a) as [sown|]; [|done]. simpl. apply settle_mirror.
Qed.

Lemma legal_moves_mirror self : legal_moves (mirror_state self) = legal_moves self.
Proof. unfold legal_moves. by destruct self as [[wp bp] k t [|] mv]. Qed.

Lemma has_legal_move_mirror self : has_legal_move (mirror_state self) = has_legal_move self.
Proof. unfold has_legal_move. by destruct self as [[wp bp] k t [|] mv]. Qed.

Lemma is_terminal_mirror self : is_terminal (mirror_state self) = is_terminal self.
Proof.
  unfold is_terminal. rewrite has_legal_move_mirror.
  destruct self as [p [kw kb] t m mv]. simpl. by rewrite orb_comm.
Qed.

Lemma final_scores_mirror self : final_scores (mirror_state self) = swap (final_scores self).
Proof.
  unfold final_scores. rewrite has_legal_move_mirror.
  destruct self as [[wp bp] [kw kb] t m mv]. simpl. rewrite (orb_comm (82 <=? kb)).
  destruct (_ || _); [done|]. destruct (has_legal_move _); [done|]. by destruct m.
Qed.

Lemma outcome_mirror self : outcome (mirror_state self) = opponent_of <$> outcome self.
Proof.
  unfold outcome. rewrite is_terminal_mirror, final_scores_mirror.
  destruct (is_terminal self); [|done]. simpl. destruct (final_scores self) as [w b]. simpl.
  destruct (Z.ltb_spec b w), (Z.ltb_spec w b); try done. lia.
Qed.

Lemma mirror_state_involutive self : mirror_state (mirror_state self) = self.
Proof. by destruct self as [[wp bp] [kw kb] [tw tb] [|] mv]. Qed.

Lemma canonicalize_mover self : player_to_move (canonicalize self) = WHITE.
Proof.
  unfold canonicalize. destruct (decide (player_to_move self = WHITE)) as [|Hne]; [done|].
  simpl. by destruct (player_to_move self).
Qed.

Lemma canonicalize_idempotent self : canonicalize (canonicalize self) = canonicalize self.
Proof.
  unfold canonicalize at 1. by rewrite decide_True by apply canonicalize_mover.
Qed.

Lemma canonicalize_mirror self : canonicalize (mirror_state self) = canonicalize self.
Proof.
  unfold canonicalize. simpl. destruct (player_to_move self) eqn:E; simpl.
  - apply mirror_state_involutive.
  - done.
Qed.

(** ** The transposition key

    [state_key] leaves out the move number and nothing else.  The search
    files a state under the key of its canonical form, so that a state, its
    mirror image and the same position at another move number share one node;
    the rules agree on all of them. *)

Lemma state_key_eq s1 s2 :
  state_key s1 = state_key s2 ↔
  pits s1 = pits s2 ∧ kazans s1 = kazans s2 ∧ tuzdyk_indices s1 = tuzdyk_indices s2
  ∧ player_to_move s1 = player_to_move s2.
Proof.
  destruct s1 as [[wp1 bp1] k1 [tw1 tb1] m1 mv1], s2 as [[wp2 bp2] k2 [tw2 tb2] m2 mv2].
  unfold state_key. simpl. split.
  - by intros [= -> -> -> -> -> ->].
  - by intros ([= -> ->] & -> & [= -> ->] & ->).
Qed.

Definition with_move_number (mv : Z) (s : TogyzKumalakState) : TogyzKumalakState :=
  {| pits := pits s; kazans := kazans s; tuzdyk_indices := tuzdyk_indices s;
     player_to_move := player_to_move s; move_number := mv |}.

Lemma state_key_with_move_number s1 s2 :
  state_key s1 = state_key s2 → s2 = with_move_number (move_number s2) s1.
Proof.
  intros (Hp & Hk & Ht & Hm)%state_key_eq. destruct s1, s2. simpl in *. by subst.
Qed.

Lemma state_key_mirror s1 s2 :
  state_key s1 = state_key s2 → state_key (mirror_state s1) = state_key (mirror_state s2).
Proof. intros H. by rewrite (state_key_with_move_number _ _ H). Qed.

Lemma state_key_canonicalize s1 s2 :
  state_key s1 = state_key s2 → state_key (canonicalize s1) = state_key (canonicalize s2).
Proof.
  intros H. rewrite (state_key_with_move_number _ _ H). by destruct s1 as [p k t [|] mv].
Qed.

Lemma settle_with_move_number mv self sown :
  settle (with_move_number mv self) sown
  = with_move_number (mv + 1) <$> settle self sown.
Proof.
  destruct sown as [[p k] [last_side last_idx]]. unfold settle.
  cbn [with_move_number player_to_move tuzdyk_indices move_number].
  change (_can_create_tuzdyk (with_move_number mv self))
    with (_can_create_tuzdyk self).
  destruct (decide _); [|done]. destruct (tuzdyk_owner_at _ _ _); [done|].
  destruct (py_get _ _) as [c|]; [|done]. simpl.
  destruct (_ && _).
  - by destruct (pit_clear _ _ _).
  - destruct (_ && _); [|done]. by destruct (pit_clear _ _ _).
Qed.

Lemma apply_move_with_move_number mv self a :
  apply_move (with_move_number mv self) a
  = with_move_number (mv + 1) <$> apply_move self a.
Proof.
  unfold apply_move.
  change (sow_phase (with_move_number mv self) a) with (sow_phase self a).
  destruct (sow_phase self a) as [sown|]; [|done]. simpl. apply settle_with_move_number.
Qed.

(** The key of the canonical form of a successor. *)
Definition next_key (s : TogyzKumalakState) (a : Z) : result Key :=
  (fun t => state_key (canonicalize t)) <$> apply_move s a.

Lemma next_key_same_key s1 s2 a :
  state_key s1 = state_key s2 → next_key s1 a = next_key s2 a.
Proof.
  intros H. rewrite (state_key_with_move_number _ _ H). unfold next_key.
  rewrite apply_move_with_move_number. destruct (apply_move s1 a) as [t|]; [|done].
  simpl. f_equal. by destruct t as [p k tz [|] mv].
Qed.

Lemma next_key_canonicalize s a : next_key (canonicalize s) a = next_key s a.
Proof.
  unfold canonicalize. destruct (decide _); [done|]. unfold next_key.
  rewrite apply_move_mirror. destruct (apply_move s a) as [t|]; [|done].
  simpl. by rewrite canonicalize_mirror.
Qed.

Lemma legal_moves_canonicalize s : legal_moves (canonicalize s) = legal_moves s.
Proof. unfold canonicalize. destruct (decide _); [done|apply legal_moves_mirror]. Qed.

Lemma terminal_value_mirror s : terminal_value (mirror_state s) = terminal_value s.
Proof.
  unfold terminal_value. rewrite final_scores_mirror.
  cbn [mirror_state player_to_move].
  by destruct (player_to_move s), (final_scores s) as [w b].
Qed.

Lemma terminal_value_canonicalize s : terminal_value (canonicalize s) = terminal_value s.
Proof. unfold canonicalize. destruct (decide _); [done|apply terminal_value_mirror]. Qed.

Lemma same_key_rules s1 s2 :
  state_key (canonicalize s1) = state_key (canonicalize s2) →
  legal_moves s1 = legal_moves s2
  ∧ is_terminal s1 = is_terminal s2
  ∧ terminal_value s1 = terminal_value s2
  ∧ ∀ a, next_key s1 a = next_key s2 a.
Proof.
  intros H. pose proof (state_key_with_move_number _ _ H) as E.
  split; [|split; [|split]].
  - rewrite <- (legal_moves_canonicalize s1), <- (legal_moves_canonicalize s2). by rewrite E.
  - rewrite <- (is_terminal_canonicalize s1), <- (is_terminal_canonicalize s2). by rewrite E.
  - rewrite <- (terminal_value_canonicalize s1), <- (terminal_value_canonicalize s2).
    by rewrite E.
  - intros a. rewrite <- (next_key_canonicalize s1), <- (next_key_canonicalize s2).
    by apply next_key_same_key.
Qed.

(** ** How a game ends *)

Lemma sumZ_nonneg l : Forall (Z.le 0) l → 0 <= sumZ l.
Proof. induction 1 as [|x l Hx _ IH]; simpl; [done|lia]. Qed.

Lemma final_scores_cases s :
  final_scores s
  = if (82 <=? fst (kazans s)) || (82 <=? snd (kazans s)) || has_legal_move s
    then kazans s
    else (fst (kazans s) + sumZ (fst (pits s)), snd (kazans s) + sumZ (snd (pits s))).
Proof.
  unfold final_scores. destruct (kazans s) as [kw kb]. simpl.
  destruct (_ || _); [done|]. simpl. destruct (has_legal_move s); [done|]. simpl.
  by destruct (player_to_move s).
Qed.

Lemma reachable_end s :
  reachable s →
  (82 <= fst (kazans s) → outcome s = Some WHITE)
  ∧ (82 <= snd (kazans s) → outcome s = Some BLACK)
  ∧ (is_terminal s = true → fst (kazans s) < 82 → snd (kazans s) < 82 →
       legal_moves s = []
       ∧ fst (final_scores s) + snd (final_scores s) = 162
       ∧ (outcome s = None ↔ final_scores s = (81, 81))).
Proof.
  intros Hreach. pose proof (reachable_kazans _ Hreach) as [Hkw Hkb].
  apply reachable_invariant in Hreach as (_ & [Hwp Hbp] & Htot).
  apply sumZ_nonneg in Hwp, Hbp. unfold total_seeds in Htot. simpl in Hkw, Hkb.
  unfold outcome, is_terminal. rewrite final_scores_cases.
  destruct (kazans s) as [kw kb]. simpl in *.
  split; [|split].
  - intros H. replace (82 <=? kw) with true by lia. simpl.
    by replace (kb <? kw) with true by lia.
  - intros H. replace (82 <=? kb) with true by lia. rewrite orb_true_r. simpl.
    replace (kw <? kb) with true by lia. by replace (kb <? kw) with false by lia.
  - intros Hterm Hw Hb. replace (82 <=? kw) with false in * by lia.
    replace (82 <=? kb) with false in * by lia. simpl in *.
    destruct (has_legal_move s) eqn:Hlm; [done|]. simpl.
    split; [|split; [lia|]].
    + destruct (legal_moves s) eqn:E; [done|].
      assert (has_legal_move s = true); [|congruence].
      apply has_legal_move_spec. by rewrite E.
    + destruct (Z.ltb_spec (kb + sumZ (pits s).2) (kw + sumZ (pits s).1));
        [split; [done|intros [= ? ?]; lia]|].
      destruct (Z.ltb_spec (kw + sumZ (pits s).1) (kb + sumZ (pits s).2));
        [split; [done|intros [= ? ?]; lia]|].
      split; [|done]. intros _. f_equal; lia.
Qed.

(** * Further properties of the text form *)

(** ** The states that survive the round trip

    A row is written as its counts joined by dashes.  An empty row is
    written as the empty text, which reads back as one empty field; a negative
    count is written with a minus sign, which reads back as a separator. *)

Lemma py_split_nonempty sep s : py_split sep s ≠ [].
Proof.
  destruct s as [|c s]; simpl; [done|].
  destruct (Ascii.eqb c sep); [done|]. by destruct (py_split sep s).
Qed.

Lemma py_split_sep_app sep s t :
  py_split sep (s +:+ String sep t) = py_split sep s ++ py_split sep t.
Proof.
  induction s as [|c s IH]; simpl.
  - by rewrite Ascii.eqb_refl.
  - destruct (Ascii.eqb c sep); [by rewrite IH|]. rewrite IH.
    pose proof (py_split_nonempty sep s). by destruct (py_split sep s).
Qed.

Lemma py_split_join_concat sep l :
  l ≠ [] →
  py_split sep (py_join (String sep EmptyString) l) = concat (map (py_split sep) l).
Proof.
  intros Hne. induction l as [|x l IH]; [done|]. destruct l as [|y l].
  - simpl. by rewrite app_nil_r.
  - change (py_split sep (x +:+ String sep (py_join (String sep EmptyString) (y :: l)))
            = py_split sep x ++ concat (map (py_split sep) (y :: l))).
    rewrite py_split_sep_app. f_equal. by apply IH.
Qed.

Lemma py_str_negative z : z < 0 → ∃ r, py_str z = String "-" r.
Proof. destruct z as [|p|p]; intros Hz; [lia..|]. unfold py_str. simpl. eauto. Qed.

Lemma for_each_py_int_empty_field l :
  In EmptyString l → for_each py_int l = Raise ValueError.
Proof.
  intros Hin. destruct (for_each_py_int_cases l) as [(r & _ & Hall)|[H _]]; [|done].
  rewrite forallb_forall in Hall. by specialize (Hall _ Hin).
Qed.

(** The reading of a written row. *)
Definition read_row (row : list Z) : result (list Z) :=
  for_each py_int (py_split "-" (py_join "-" (map py_str row))).

Definition row_safe (row : list Z) : bool :=
  negb (bool_decide (row = [])) && forallb (Z.leb 0) row.

Lemma read_row_cases row :
  read_row row = if row_safe row then Ok row else Raise ValueError.
Proof.
  unfold row_safe. case_bool_decide as Hnil; simpl.
  { by subst row. }
  destruct (forallb (Z.leb 0) row) eqn:Hall.
  - apply split_row; [done|]. apply Forall_forall. intros z Hz%list_elem_of_In.
    rewrite forallb_forall in Hall. specialize (Hall _ Hz). lia.
  - apply for_each_py_int_empty_field.
    rewrite py_split_join_concat by (by destruct row).
    assert (∃ z, In z row ∧ z < 0) as (z & Hin & Hz).
    { apply not_true_iff_false in Hall. rewrite forallb_forall in Hall.
      destruct (existsb (fun z => z <? 0) row) eqn:Hex.
      - apply existsb_exists in Hex as (z & ? & ?). exists z. split; [done|lia].
      - exfalso. apply Hall. intros z Hz.
        assert (Hn : ¬ (z <? 0) = true).
        { intros Hlt. assert (existsb (λ z, z <? 0) row = true); [|congruence].
          apply existsb_exists. eauto. }
        lia. }
    apply in_concat. exists (py_split "-" (py_str z)). split.
    + rewrite map_map. apply in_map_iff. eauto.
    + destruct (py_str_negative z Hz) as [r ->]. by left.
Qed.

Lemma deserialize_serialize (s : TogyzKumalakState) :
  deserialize_fen (serialize_fen s)
  = (white_pits ← read_row (fst (pits s));
     black_pits ← read_row (snd (pits s));
     mret {| pits := (white_pits, black_pits);
             kazans := kazans s;
             tuzdyk_indices := tuzdyk_indices s;
             player_to_move := player_to_move s;
             move_number := move_number s |}).
Proof.
  destruct s as [[wp bp] [kw kb] [tw tb] mover mv]. simpl.
  unfold deserialize_fen, serialize_fen.
  cbn [player_to_move move_number pits kazans tuzdyk_indices sel fst snd].
  fold (tuz_text tw) (tuz_text tb).
  rewrite py_split_join; [|done|].
  2:{ repeat apply Forall_cons_2; try apply Forall_nil_2.
      - by destruct (decide (mover = WHITE)).
      - apply lacks_join; [done|]. repeat apply Forall_cons_2; try apply Forall_nil_2;
          by apply lacks_row.
      - repeat apply lacks_app; try done; by apply lacks_py_str.
      - repeat apply lacks_app; try done; by apply lacks_tuz_text.
      - by apply lacks_py_str. }
  rewrite py_split_join; [|done|].
  2:{ repeat apply Forall_cons_2; try apply Forall_nil_2; by apply lacks_row. }
  fold (read_row wp) (read_row bp).
  destruct (read_row wp) as [w|]; [|done]. simpl.
  destruct (read_row bp) as [b|]; [|done]. simpl.
  rewrite split_pair by (by apply lacks_py_str).
  rewrite split_pair by (by apply lacks_tuz_text).
  rewrite !parse_tuz_text. simpl. rewrite !py_int_str. simpl.
  by destruct mover.
Qed.

Definition fen_safe (s : TogyzKumalakState) : bool :=
  row_safe (fst (pits s)) && row_safe (snd (pits s)).

Lemma fen_round_trip_cases s :
  deserialize_fen (serialize_fen s) = if fen_safe s then Ok s else Raise ValueError.
Proof.
  rewrite deserialize_serialize, !read_row_cases. unfold fen_safe.
  destruct (row_safe (pits s).1); [|done]. simpl.
  destruct (row_safe (pits s).2); [|done]. simpl. by destruct s as [[wp bp] k t m mv].
Qed.

Lemma fen_safe_spec s :
  fen_safe s = true ↔ (fst (pits s) ≠ [] ∧ snd (pits s) ≠ []) ∧ rows_nonneg (pits s).
Proof.
  unfold fen_safe, row_safe, rows_nonneg.
  rewrite !andb_true_iff, !negb_true_iff, !bool_decide_eq_false, !forallb_forall.
  rewrite !Forall_forall. setoid_rewrite <- list_elem_of_In.
  setoid_rewrite Z.leb_le. tauto.
Qed.

(** ** What a text is read as *)

Lemma for_each_length {A B} (f : A → result B) l : ∀ r,
  for_each f l = Ok r → length r = length l.
Proof.
  induction l as [|x l IH]; intros r; simpl.
  - by intros [= <-].
  - destruct (f x) as [y|]; [|done]. simpl.
    destruct (for_each f l) as [ys|]; [|done]. simpl. intros [= <-]. simpl.
    by rewrite (IH ys).
Qed.

Lemma read_fields_nonempty sep t r :
  for_each py_int (py_split sep t) = Ok r → r ≠ [].
Proof.
  intros H%for_each_length E. subst r. pose proof (py_split_nonempty sep t).
  by destruct (py_split sep t).
Qed.

Lemma deserialize_fen_safe t s : deserialize_fen t = Ok s → fen_safe s = true.
Proof.
  intros Ht. destruct (deserialize_fen_cases t) as [(_ & st & Hst & Hw & Hb)|[_ H]];
    [|congruence].
  rewrite Ht in Hst. injection Hst as <-.
  assert (fst (pits s) ≠ [] ∧ snd (pits s) ≠ []) as [Hnw Hnb].
  { revert Ht. unfold deserialize_fen.
    destruct (py_split "|" t) as [|side [|pits_s [|kaz_s [|tuz_s [|mv_s [|]]]]]]; try done.
    destruct (py_split "," pits_s) as [|wp [|bp [|]]]; try done.
    destruct (for_each py_int (py_split "-" wp)) as [w|] eqn:Hwp; [|done].
    cbn [mbind result_bind].
    destruct (for_each py_int (py_split "-" bp)) as [b|] eqn:Hbp; [|done].
    cbn [mbind result_bind].
    destruct (py_split "," kaz_s) as [|kw [|kb [|]]]; try done.
    destruct (py_split "," tuz_s) as [|tw [|tb [|]]]; try done.
    destruct (parse_tuz tw); [|done]. cbn [mbind result_bind].
    destruct (parse_tuz tb); [|done]. cbn [mbind result_bind].
    destruct (py_int kw); [|done]. cbn [mbind result_bind].
    destruct (py_int kb); [|done]. cbn [mbind result_bind].
    destruct (py_int mv_s); [|done]. cbn [mbind result_bind mret result_ret].
    intros [= <-]. simpl. eauto using read_fields_nonempty. }
  apply fen_safe_spec. repeat apply conj; done.
Qed.

(** ** The grammar of integer literals

    An integer literal is, from left to right: blanks, at most one sign,
    groups of digits joined by single underscores, blanks.  It denotes the
    number its digits spell in base ten, negated under a minus sign. *)

Definition digit_value (c : ascii) : Z := Z.of_nat (nat_of_ascii c) - 48.

Definition decimal_value (digits : string) : Z :=
  fold_left (fun acc c => 10 * acc + digit_value c) (list_ascii_of_string digits) 0.

Inductive sign := NoSign | Plus | Minus.

Definition sign_text (sg : sign) : string :=
  match sg with
  | NoSign => EmptyString
  | Plus => "+"
  | Minus => "-"
  end.

Definition signed (sg : sign) (z : Z) : Z :=
  match sg with
  | Minus => - z
  | _ => z
  end.

Fixpoint str_concat (l : list string) : string :=
  match l with
  | [] => EmptyString
  | x :: l' => x +:+ str_concat l'
  end.

Definition digit_group (g : string) : Prop :=
  g ≠ EmptyString ∧ str_all is_digit g = true.

Inductive int_literal : string → Z → Prop :=
| int_literal_intro (ws1 : string) (sg : sign) (groups : list string) (ws2 : string) :
    str_all is_space ws1 = true → str_all is_space ws2 = true →
    groups ≠ [] → Forall digit_group groups →
    int_literal (ws1 +:+ sign_text sg +:+ py_join "_" groups +:+ ws2)
                (signed sg (decimal_value (str_concat groups))).

(** *** Digits and their value *)

Lemma uint_of_char_inv c d u :
  uint_of_char c (Some d) = Some u →
  is_digit c = true
  ∧ (∀ acc, Pos.of_uint_acc u acc
            = Pos.of_uint_acc d (Z.to_pos (digit_value c + 10 * Z.pos acc)))
  ∧ Pos.of_uint u = (if digit_value c =? 0 then Pos.of_uint d
                     else N.pos (Pos.of_uint_acc d (Z.to_pos (digit_value c)))).
Proof.
  destruct c as [b0 b1 b2 b3 b4 b5 b6 b7].
  destruct b0, b1, b2, b3, b4, b5, b6, b7; simpl; try discriminate;
    intros [= <-]; repeat split; reflexivity.
Qed.

Lemma uint_of_char_digit c d : is_digit c = true → ∃ u, uint_of_char c (Some d) = Some u.
Proof.
  destruct c as [b0 b1 b2 b3 b4 b5 b6 b7].
  destruct b0, b1, b2, b3, b4, b5, b6, b7; try discriminate; simpl; eauto.
Qed.

Lemma is_digit_value c : is_digit c = true → 0 <= digit_value c <= 9.
Proof.
  unfold is_digit, digit_value. rewrite andb_true_iff, !Nat.leb_le. lia.
Qed.

Definition decimal_step (acc : Z) (c : ascii) : Z := 10 * acc + digit_value c.

Lemma of_uint_acc_value s : ∀ u acc,
  NilEmpty.uint_of_string s = Some u →
  Z.pos (Pos.of_uint_acc u acc) = fold_left decimal_step (list_ascii_of_string s) (Z.pos acc).
Proof.
  induction s as [|c s IH]; intros u acc; simpl.
  - by intros [= <-].
  - destruct (NilEmpty.uint_of_string s) as [d|]; [|done].
    intros (Hc%is_digit_value & Hacc & _)%uint_of_char_inv.
    rewrite Hacc, (IH d _ eq_refl). f_equal. unfold decimal_step. lia.
Qed.

Lemma uint_of_string_value s u :
  NilEmpty.uint_of_string s = Some u →
  str_all is_digit s = true ∧ Z.of_uint u = decimal_value s.
Proof.
  unfold decimal_value. fold decimal_step. revert u.
  induction s as [|c s IH]; intros u; simpl.
  - by intros [= <-].
  - destruct (NilEmpty.uint_of_string s) as [d|] eqn:Hd; [|done].
    intros (Hc & _ & Hu)%uint_of_char_inv.
    destruct (IH d eq_refl) as [Hs Hv]. split; [by rewrite Hc, Hs|].
    unfold Z.of_uint. rewrite Hu. pose proof (is_digit_value c Hc) as Hr.
    unfold decimal_step at 2. destruct (Z.eqb_spec (digit_value c) 0) as [E|E].
    + rewrite E. exact Hv.
    + simpl. rewrite (of_uint_acc_value s d _ Hd). f_equal. lia.
Qed.

Lemma uint_of_string_digits s :
  str_all is_digit s = true → ∃ u, NilEmpty.uint_of_string s = Some u.
Proof.
  induction s as [|c s IH]; simpl; [eauto|].
  intros [Hc Hs]%andb_true_iff. destruct (IH Hs) as [d ->].
  by apply uint_of_char_digit.
Qed.

(** *** Blanks at the two ends *)

Lemma append_nil_l s : EmptyString +:+ s = s.
Proof. reflexivity. Qed.

Lemma append_cons c s t : String c s +:+ t = String c (s +:+ t).
Proof. reflexivity. Qed.

Lemma append_nil_r s : s +:+ EmptyString = s.
Proof. induction s as [|c s IH]; [done|]. by rewrite append_cons, IH. Qed.

Lemma append_assoc s t u : (s +:+ t) +:+ u = s +:+ (t +:+ u).
Proof. induction s as [|c s IH]; [done|]. by rewrite !append_cons, IH. Qed.

Lemma lstrip_split s : ∃ ws, s = ws +:+ lstrip s ∧ str_all is_space ws = true.
Proof.
  induction s as [|c s IH]; cbn [lstrip]; [by exists EmptyString|].
  destruct (is_space c) eqn:Hc; [|by exists EmptyString].
  destruct IH as (ws & Hs & Hws). exists (String c ws).
  split; [|cbn [str_all]; by rewrite Hc].
  rewrite append_cons. by f_equal.
Qed.

Lemma rstrip_split s : ∃ ws, s = rstrip s +:+ ws ∧ str_all is_space ws = true.
Proof.
  induction s as [|c s IH]; cbn [rstrip]; [by exists EmptyString|].
  destruct IH as (ws & Hs & Hws). destruct (rstrip s) as [|c' r] eqn:Hr.
  - rewrite append_nil_l in Hs. subst ws. destruct (is_space c) eqn:Hc.
    + exists (String c s). rewrite append_nil_l. split; [done|].
      cbn [str_all]. by rewrite Hc.
    + exists s. by rewrite append_cons, append_nil_l.
  - exists ws. rewrite append_cons. split; [by f_equal|done].
Qed.

Lemma lstrip_blanks ws s : str_all is_space ws = true → lstrip (ws +:+ s) = lstrip s.
Proof.
  induction ws as [|c ws IH]; [done|]. cbn [str_all].
  intros [Hc Hws]%andb_true_iff. rewrite append_cons. cbn [lstrip]. rewrite Hc. auto.
Qed.

Lemma rstrip_all_blanks ws : str_all is_space ws = true → rstrip ws = EmptyString.
Proof.
  induction ws as [|c ws IH]; [done|]. cbn [str_all rstrip].
  intros [Hc Hws]%andb_true_iff. by rewrite (IH Hws), Hc.
Qed.

Lemma rstrip_blanks s ws : str_all is_space ws = true → rstrip (s +:+ ws) = rstrip s.
Proof.
  intros Hws. induction s as [|c s IH].
  - rewrite append_nil_l. by apply rstrip_all_blanks.
  - rewrite append_cons. cbn [rstrip]. by rewrite IH.
Qed.

Lemma strip_core ws1 core ws2 :
  str_all is_space ws1 = true → str_all is_space ws2 = true →
  core ≠ EmptyString → str_all (fun c => negb (is_space c)) core = true →
  strip (ws1 +:+ core +:+ ws2) = core.
Proof.
  intros H1 H2 Hne Hcore. unfold strip. rewrite lstrip_blanks by done.
  destruct core as [|c core]; [done|].
  pose proof Hcore as Hcore'. cbn [str_all] in Hcore.
  apply andb_true_iff in Hcore as [Hc Hrest].
  apply negb_true_iff in Hc. rewrite append_cons. cbn [lstrip]. rewrite Hc.
  rewrite <- append_cons. rewrite rstrip_blanks by done. by apply rstrip_id.
Qed.

(** *** Digits in groups *)

Lemma py_join_cons_char sep c g gs :
  String c (py_join sep (g :: gs)) = py_join sep (String c g :: gs).
Proof. by destruct gs. Qed.

Lemma py_join_cons sep x y l :
  py_join sep (x :: y :: l) = x +:+ sep +:+ py_join sep (y :: l).
Proof. done. Qed.

Lemma digit_groups_inv s : ∀ b d,
  digit_groups b s = Some d →
  ∃ g gs, s = py_join "_" (g :: gs) ∧ d = str_concat (g :: gs)
          ∧ (b = false → g ≠ EmptyString) ∧ Forall (fun x => x ≠ EmptyString) gs.
Proof.
  induction s as [|c s IH]; intros b d; cbn [digit_groups].
  - destruct b; [|done]. intros [= <-]. exists EmptyString, []. by repeat split.
  - destruct (Ascii.eqb_spec c "_") as [->|Hc].
    + destruct b; [|done]. intros (g & gs & -> & -> & Hg & Hgs)%IH.
      exists EmptyString, (g :: gs). repeat split; [done|]. constructor; auto.
    + destruct (digit_groups true s) as [d'|] eqn:Hd; [|done]. simpl. intros [= <-].
      destruct (IH true d' Hd) as (g & gs & -> & -> & _ & Hgs).
      exists (String c g), gs. rewrite py_join_cons_char. by repeat split.
Qed.

Lemma str_all_concat P l :
  str_all P (str_concat l) = true ↔ Forall (fun g => str_all P g = true) l.
Proof.
  induction l as [|g l IH]; cbn [str_concat]; [by split; [constructor|]|].
  rewrite str_all_app, andb_true_iff, IH, Forall_cons. tauto.
Qed.

Lemma digit_groups_join gs : ∀ g b,
  (b = false → g ≠ EmptyString) → str_all is_digit g = true → Forall digit_group gs →
  digit_groups b (py_join "_" (g :: gs)) = Some (str_concat (g :: gs)).
Proof.
  induction gs as [|g' gs IH]; intros g b Hg Hd Hgs.
  - cbn [py_join str_concat]. rewrite append_nil_r.
    apply digit_groups_digits; [done|]. destruct b; [by right|left; auto].
  - rewrite py_join_cons. cbn [str_concat]. inversion Hgs as [|? ? [Hg' Hd'] Hrest]; subst.
    clear Hgs. revert b Hg. induction g as [|c g IHg]; intros b Hg.
    + destruct b; [|by specialize (Hg eq_refl)]. rewrite !append_nil_l.
      change ("_" +:+ py_join "_" (g' :: gs)) with (String "_" (py_join "_" (g' :: gs))).
      cbn [digit_groups]. rewrite Ascii.eqb_refl. by apply IH.
    + cbn [str_all] in Hd. apply andb_true_iff in Hd as [Hc Hd].
      rewrite !(append_cons c g). cbn [digit_groups]. rewrite (is_digit_not c "_") by done.
      by rewrite (IHg Hd true).
Qed.

(** *** [py_int] reads the integer literals, and nothing else *)

Lemma parse_digits_inv r u :
  parse_digits r = Some u →
  ∃ groups, r = py_join "_" groups ∧ groups ≠ [] ∧ Forall digit_group groups
            ∧ Z.of_uint u = decimal_value (str_concat groups).
Proof.
  unfold parse_digits. destruct (digit_groups false r) as [d|] eqn:Hd; [|done]. simpl.
  intros [Hdig Hval]%uint_of_string_value.
  apply digit_groups_inv in Hd as (g & gs & -> & -> & Hg & Hgs).
  exists (g :: gs). split; [done|]. split; [done|]. split; [|done].
  apply str_all_concat in Hdig. inversion Hdig as [|? ? Hdg Hdgs]; subst.
  constructor; [split; auto|].
  rewrite Forall_forall in Hgs, Hdgs. apply Forall_forall. intros x Hx.
  split; auto.
Qed.

Lemma parse_digits_join groups :
  groups ≠ [] → Forall digit_group groups →
  ∃ u, parse_digits (py_join "_" groups) = Some u
       ∧ Z.of_uint u = decimal_value (str_concat groups).
Proof.
  intros Hne Hgs. destruct groups as [|g gs]; [done|].
  inversion Hgs as [|? ? [Hg Hd] Hrest]; subst.
  assert (Hall : str_all is_digit (str_concat (g :: gs)) = true).
  { apply str_all_concat. eapply Forall_impl; [exact Hgs|]. by intros x [_ ?]. }
  destruct (uint_of_string_digits _ Hall) as [u Hu]. exists u.
  unfold parse_digits. rewrite (digit_groups_join gs g false) by done. simpl.
  split; [done|]. by apply uint_of_string_value.
Qed.

Lemma digit_not_space c : is_digit c = true → is_space c = false.
Proof.
  intros Hc. apply negb_true_iff, signed_digit_not_space. unfold signed_digit.
  by rewrite Hc.
Qed.

Lemma join_groups_chars groups :
  Forall digit_group groups →
  str_all (fun c => is_digit c || Ascii.eqb c "_") (py_join "_" groups) = true.
Proof.
  induction 1 as [|g gs [_ Hg] _ IH]; [done|]. destruct gs as [|g' gs].
  - cbn [py_join]. eapply str_all_impl; [|exact Hg]. by intros c ->.
  - rewrite py_join_cons, !str_all_app, IH, !andb_true_r.
    eapply str_all_impl; [|exact Hg]. by intros c ->.
Qed.

Lemma join_groups_head groups :
  groups ≠ [] → Forall digit_group groups →
  ∃ c r, py_join "_" groups = String c r ∧ is_digit c = true.
Proof.
  intros Hne Hgs. destruct groups as [|g gs]; [done|].
  inversion Hgs as [|? ? [Hg Hd] _]; subst. destruct g as [|c g]; [done|].
  cbn [str_all] in Hd. apply andb_true_iff in Hd as [Hc _].
  rewrite <- py_join_cons_char. eauto.
Qed.

Lemma py_int_literal t z : py_int t = Ok z ↔ int_literal t z.
Proof.
  split.
  - destruct (lstrip_split t) as (ws1 & Ht & Hws1).
    destruct (rstrip_split (lstrip t)) as (ws2 & Hl & Hws2). fold (strip t) in Hl.
    unfold py_int. destruct (strip t) as [|c r] eqn:Hcore; [done|].
    assert (Hsign : ∀ sg body u,
              String c r = sign_text sg +:+ body → parse_digits body = Some u →
              int_literal t (signed sg (Z.of_uint u))).
    { intros sg body u Hbody (groups & -> & Hne & Hgs & ->)%parse_digits_inv.
      rewrite Ht, Hl, Hbody, append_assoc. by constructor. }
    destruct (Ascii.eqb_spec c "-") as [->|_]; [|destruct (Ascii.eqb_spec c "+") as [->|_]].
    + destruct (parse_digits r) as [u|] eqn:Hu; [|done]. simpl. intros [= <-].
      by apply (Hsign Minus r u).
    + destruct (parse_digits r) as [u|] eqn:Hu; [|done]. simpl. intros [= <-].
      by apply (Hsign Plus r u).
    + destruct (parse_digits (String c r)) as [u|] eqn:Hu; [|done]. simpl. intros [= <-].
      by apply (Hsign NoSign (String c r) u).
  - intros [ws1 sg groups ws2 Hws1 Hws2 Hne Hgs].
    destruct (parse_digits_join groups Hne Hgs) as (u & Hu & Hval).
    destruct (join_groups_head groups Hne Hgs) as (c & r & Hjoin & Hc).
    unfold py_int. rewrite <- (append_assoc (sign_text sg)), strip_core; [|done|done|..].
    + rewrite <- Hval. destruct sg; cbn [sign_text signed].
      * rewrite append_nil_l, Hjoin, (is_digit_not c "-"), (is_digit_not c "+") by done.
        rewrite <- Hjoin, Hu. done.
      * rewrite append_cons, append_nil_l. simpl. by rewrite Hu.
      * rewrite append_cons, append_nil_l. simpl. by rewrite Hu.
    + rewrite Hjoin. by destruct sg.
    + rewrite str_all_app. apply andb_true_iff. split; [by destruct sg|].
      eapply str_all_impl; [|by apply join_groups_chars].
      intros x [Hx|Hx]%orb_true_iff; [by rewrite digit_not_space|].
      apply Ascii.eqb_eq in Hx as ->. done.
Qed.

(** ** The grammar of the text form

    [side|row,row|int,int|tuz,tuz|int]: a side field without a bar (only
    [W] reads as White); two rows, each one or more literals without a minus
    sign joined by dashes; two kazans and a move number that are literals;
    two tuzdyk entries, each a dash or a literal. *)

Definition tuz_literal (t : string) (v : option Z) : Prop :=
  match v with
  | None => t = "-"
  | Some z => int_literal t z
  end.

Definition row_literal (t : string) (row : list Z) : Prop :=
  ∃ fields, t = py_join "-" fields ∧ fields ≠ []
            ∧ Forall2 (fun f z => lacks "-" f ∧ int_literal f z) fields row.

Definition fen_text (s : string) (st : TogyzKumalakState) : Prop :=
  ∃ side wrow brow kw kb tw tb mv,
    s = py_join "|" [side; wrow +:+ "," +:+ brow; kw +:+ "," +:+ kb;
                     tw +:+ "," +:+ tb; mv]
    ∧ lacks "|" side
    ∧ player_to_move st = (if decide (side = "W") then WHITE else BLACK)
    ∧ row_literal wrow (fst (pits st)) ∧ row_literal brow (snd (pits st))
    ∧ int_literal kw (fst (kazans st)) ∧ int_literal kb (snd (kazans st))
    ∧ tuz_literal tw (fst (tuzdyk_indices st))
    ∧ tuz_literal tb (snd (tuzdyk_indices st))
    ∧ int_literal mv (move_number st).

Lemma py_join_split sep s : py_join (String sep EmptyString) (py_split sep s) = s.
Proof.
  induction s as [|c s IH]; [done|]. cbn [py_split].
  pose proof (py_split_nonempty sep s) as Hne.
  destruct (Ascii.eqb_spec c sep) as [->|_].
  - destruct (py_split sep s) as [|w ws]; [done|].
    rewrite py_join_cons, append_nil_l, append_cons, append_nil_l. by rewrite IH.
  - destruct (py_split sep s) as [|w ws]; [done|].
    rewrite <- py_join_cons_char. by rewrite IH.
Qed.

(** The characters of a literal. *)
Definition literal_char (c : ascii) : bool :=
  is_space c || is_digit c || Ascii.eqb c "_" || Ascii.eqb c "+" || Ascii.eqb c "-".

Lemma int_literal_chars t z : int_literal t z → str_all literal_char t = true.
Proof.
  intros [ws1 sg groups ws2 Hws1 Hws2 Hne Hgs]. rewrite !str_all_app.
  repeat (apply andb_true_iff; split).
  - eapply str_all_impl; [|exact Hws1]. unfold literal_char. by intros c ->.
  - by destruct sg.
  - eapply str_all_impl; [|by apply join_groups_chars]. unfold literal_char.
    intros c [-> | ->]%orb_true_iff; by rewrite ?orb_true_r.
  - eapply str_all_impl; [|exact Hws2]. unfold literal_char. by intros c ->.
Qed.

Lemma int_literal_lacks c t z : literal_char c = false → int_literal t z → lacks c t.
Proof. intros Hc Ht. eapply str_all_lacks; [exact Hc|]. by eapply int_literal_chars. Qed.

Lemma tuz_literal_lacks c t v :
  literal_char c = false → tuz_literal t v → lacks c t.
Proof.
  intros Hc. destruct v as [z|]; simpl; [by apply int_literal_lacks|]. intros ->.
  apply (str_all_lacks literal_char); [done|reflexivity].
Qed.

Lemma row_literal_lacks c t row :
  literal_char c = false → row_literal t row → lacks c t.
Proof.
  intros Hc (fields & -> & _ & Hall). apply lacks_join.
  - apply (str_all_lacks literal_char); [done|reflexivity].
  - clear -Hc Hall. induction Hall as [|f z fs zs [_ Hf] _ IH]; constructor; [|done].
    by eapply int_literal_lacks.
Qed.

Lemma for_each_Forall2 {A B} (f : A → result B) l : ∀ r,
  for_each f l = Ok r ↔ Forall2 (fun x y => f x = Ok y) l r.
Proof.
  induction l as [|x l IH]; intros r; simpl.
  - split; [intros [= <-]; constructor|by inversion 1].
  - split.
    + destruct (f x) as [y|] eqn:Hy; [|done]. simpl.
      destruct (for_each f l) as [ys|] eqn:Hys; [|done]. simpl. intros [= <-].
      constructor; [done|]. by apply IH.
    + inversion 1 as [|? y ? ys Hy Hys]; subst. rewrite Hy. simpl.
      apply IH in Hys. by rewrite Hys.
Qed.

Lemma read_row_literal t row :
  for_each py_int (py_split "-" t) = Ok row ↔ row_literal t row.
Proof.
  rewrite for_each_Forall2. split.
  - intros Hall. exists (py_split "-" t). split; [by rewrite py_join_split|].
    split; [apply py_split_nonempty|].
    pose proof (py_split_elems_lack "-" t) as Hl. revert Hl.
    induction Hall as [|f z fs zs Hf _ IH]; [constructor|].
    intros [Hlf Hlfs]%Forall_cons. constructor; [|by apply IH].
    split; [done|]. by apply py_int_literal.
  - intros (fields & -> & Hne & Hall). rewrite py_split_join; [|done|].
    + eapply Forall2_impl; [exact Hall|]. intros f z [_ Hf]. by apply py_int_literal.
    + clear -Hall. induction Hall as [|f z fs zs [Hf _] _ IH]; by constructor.
Qed.

Lemma parse_tuz_literal t v : parse_tuz t = Ok v ↔ tuz_literal t v.
Proof.
  unfold parse_tuz. destruct (decide (t = "-")) as [->|Hne].
  - destruct v as [z|]; simpl; [|done]. split; [done|].
    intros Hz%py_int_literal. done.
  - destruct v as [z|]; simpl.
    + rewrite <- py_int_literal. destruct (py_int t); simpl; [|done].
      split; [by intros [= ->]|by intros [= ->]].
    + destruct (py_int t); simpl; split; done.
Qed.

Lemma deserialize_fen_grammar s st : deserialize_fen s = Ok st ↔ fen_text s st.
Proof.
  split.
  - unfold deserialize_fen. pose proof (py_join_split "|" s) as Hs.
    pose proof (py_split_elems_lack "|" s) as Hbars.
    destruct (py_split "|" s) as [|side [|pits_s [|kaz_s [|tuz_s [|mv_s [|]]]]]]; try done.
    pose proof (py_join_split "," pits_s) as Hp.
    destruct (py_split "," pits_s) as [|wp [|bp [|]]]; try done.
    destruct (for_each py_int (py_split "-" wp)) as [w|] eqn:Hw; [|done].
    destruct (for_each py_int (py_split "-" bp)) as [b|] eqn:Hb; [|done].
    cbn [mbind result_bind].
    pose proof (py_join_split "," kaz_s) as Hk.
    destruct (py_split "," kaz_s) as [|kw [|kb [|]]]; try done.
    pose proof (py_join_split "," tuz_s) as Ht.
    destruct (py_split "," tuz_s) as [|tw [|tb [|]]]; try done.
    destruct (parse_tuz tw) as [twv|] eqn:Htw; [|done].
    destruct (parse_tuz tb) as [tbv|] eqn:Htb; [|done].
    destruct (py_int kw) as [kwz|] eqn:Hkw; [|done].
    destruct (py_int kb) as [kbz|] eqn:Hkb; [|done].
    destruct (py_int mv_s) as [mvz|] eqn:Hmv; [|done].
    cbn [mbind result_bind mret result_ret]. intros [= <-].
    exists side, wp, bp, kw, kb, tw, tb, mv_s.
    rewrite <- Hs, <- Hp, <- Hk, <- Ht. split; [done|].
    split; [by inversion Hbars|]. split; [done|]. cbn [pits kazans tuzdyk_indices fst snd
      move_number].
    split; [by apply read_row_literal|]. split; [by apply read_row_literal|].
    split; [by apply py_int_literal|]. split; [by apply py_int_literal|].
    split; [by apply parse_tuz_literal|]. split; [by apply parse_tuz_literal|].
    by apply py_int_literal.
  - intros (side & wrow & brow & kw & kb & tw & tb & mv & -> & Hside & Hmover
            & Hw & Hb & Hkw & Hkb & Htw & Htb & Hmv).
    assert (Hbar : literal_char "|" = false) by done.
    assert (Hcomma : literal_char "," = false) by done.
    assert (Hpair : ∀ a b, lacks "|" a → lacks "|" b → lacks "|" (a +:+ "," +:+ b)).
    { intros a b Hla Hlb. apply lacks_app; [done|]. by apply lacks_app. }
    unfold deserialize_fen. rewrite py_split_join; [|done|].
    2:{ apply Forall_cons_2; [done|].
        apply Forall_cons_2; [apply Hpair; by eapply row_literal_lacks|].
        apply Forall_cons_2; [apply Hpair; by eapply int_literal_lacks|].
        apply Forall_cons_2; [apply Hpair; by eapply tuz_literal_lacks|].
        apply Forall_cons_2; [by eapply int_literal_lacks|apply Forall_nil_2]. }
    rewrite (split_pair "," wrow brow) by (by eapply row_literal_lacks).
    rewrite (split_pair "," kw kb) by (by eapply int_literal_lacks).
    rewrite (split_pair "," tw tb) by (by eapply tuz_literal_lacks).
    apply read_row_literal in Hw, Hb. rewrite Hw, Hb. cbn [mbind result_bind].
    apply parse_tuz_literal in Htw, Htb. rewrite Htw, Htb. cbn [mbind result_bind].
    apply py_int_literal in Hkw, Hkb, Hmv. rewrite Hkw, Hkb, Hmv.
    cbn [mbind result_bind mret result_ret]. rewrite <- Hmover.
    by destruct st as [[wp bp] [k1 k2] [t1 t2] m mvn].
Qed.

Lemma deserialize_fen_shape s :
  (∃ st, deserialize_fen s = Ok st ∧ rows_nonneg (pits st)
         ∧ ∀ st', fen_text s st' ↔ st' = st)
  ∨ (deserialize_fen s = Raise ValueError ∧ ∀ st', ¬ fen_text s st').
Proof.
  destruct (deserialize_fen_cases s) as [(_ & st & Hst & Hnn)|[_ Hs]].
  - left. exists st. split; [done|]. split; [done|]. intros st'.
    rewrite <- deserialize_fen_grammar, Hst. split; [by intros [= ->]|by intros ->].
  - right. split; [done|]. intros st' Hst'%deserialize_fen_grammar. congruence.
Qed.

(** C4, amended — On ASCII text within the digit limit of [int],
    [deserialize_fen] returns a state or raises [ValueError], and it returns
    exactly on the texts of the grammar [fen_text]: five fields between bars;
    two rows, each one or more integer literals without a minus sign joined by
    dashes; two kazans that are integer literals; two tuzdyk entries, each a
    dash or an integer literal; a move number that is an integer literal.  The
    state returned is the one the text denotes, and its pit counts are never
    negative.  Nothing else is checked: not the seed sum, the tuzdyk range,
    the sign of a kazan or of the move number, the number of pits of a row, or
    the side letter. *)
Theorem C4_deserialize_accepts_shape (s : string) :
  int_readable s →
  (∃ st, deserialize_fen s = Ok st ∧ rows_nonneg (pits st)
         ∧ ∀ st', fen_text s st' ↔ st' = st)
  ∨ (deserialize_fen s = Raise ValueError ∧ ∀ st', ¬ fen_text s st').
Proof. intros _. apply deserialize_fen_shape. Qed.

Lemma C4_deserialize_accepts_shape_witness :
  (∃ st, deserialize_fen "B|1-2,3|-7,0|12,-|0" = Ok st ∧ rows_nonneg (pits st)
         ∧ ∀ st', fen_text "B|1-2,3|-7,0|12,-|0" st' ↔ st' = st)
  ∨ (deserialize_fen "B|1-2,3|-7,0|12,-|0" = Raise ValueError
     ∧ ∀ st', ¬ fen_text "B|1-2,3|-7,0|12,-|0" st').
Proof.
  apply (C4_deserialize_accepts_shape "B|1-2,3|-7,0|12,-|0").
  split; [reflexivity|vm_compute; discriminate].
Defined.


(** * Further properties of the search *)

(** ** When [_select_child] fails *)

Section SelectNone.

Variables (c : float) (tv : Z).

Lemma select_fold_absent (l : list (Z * Node)) bs :
  Forall (fun kv => (bs <? puct_score c tv (snd kv))%float = false) l →
  fold_left (select_step c tv) l (bs, None) = (bs, None).
Proof.
  induction 1 as [|kv l Hkv _ IH]; [done|].
  cbn [fold_left]. unfold select_step at 2. cbn [fst snd]. by rewrite Hkv.
Qed.

Lemma select_fold_chosen (l : list (Z * Node)) : ∀ bs a,
  ∃ bs' a', fold_left (select_step c tv) l (bs, Some a) = (bs', Some a')
            ∧ (a' = a ∨ In a' (map fst l)).
Proof.
  induction l as [|kv l IH]; intros bs a; [by eauto|].
  cbn [fold_left]. unfold select_step at 2. cbn [fst snd].
  destruct (bs <? puct_score c tv kv.2)%float.
  - destruct (IH (puct_score c tv kv.2) kv.1) as (bs' & a' & -> & Ha').
    exists bs', a'. split; [done|]. right. simpl. destruct Ha' as [->|]; tauto.
  - destruct (IH bs a) as (bs' & a' & -> & Ha').
    exists bs', a'. split; [done|]. simpl. tauto.
Qed.

Lemma select_fold_present (l : list (Z * Node)) bs :
  Exists (fun kv => (bs <? puct_score c tv (snd kv))%float = true) l →
  ∃ bs' a', fold_left (select_step c tv) l (bs, None) = (bs', Some a')
            ∧ In a' (map fst l).
Proof.
  induction l as [|kv l IH]; intros Hex; [by inversion Hex|].
  cbn [fold_left]. unfold select_step at 2. cbn [fst snd].
  destruct (bs <? puct_score c tv kv.2)%float eqn:Hkv.
  - destruct (select_fold_chosen l (puct_score c tv kv.2) kv.1) as (bs' & a' & -> & Ha').
    exists bs', a'. split; [done|]. simpl. destruct Ha' as [->|]; tauto.
  - inversion Hex as [? ? Hhd|? ? Htl]; subst; [congruence|].
    destruct (IH Htl) as (bs' & a' & -> & Ha'). exists bs', a'. split; [done|].
    simpl. tauto.
Qed.

End SelectNone.

Lemma select_child_cases c node :
  let total_visits := 1 + sumZ (map (fun kv => visit_count (snd kv)) (children node)) in
  let score := puct_score c total_visits in
  (Forall (fun kv => ((-1e9) <? score (snd kv))%float = false) (children node)
   ∧ _select_child c node = Raise AssertionError)
  ∨ (Exists (fun kv => ((-1e9) <? score (snd kv))%float = true) (children node)
     ∧ ∃ a, _select_child c node = Ok a ∧ In a (map fst (children node))).
Proof.
  intros tv score. unfold _select_child. fold tv.
  destruct (decide (Exists (fun kv => ((-1e9) <? score (snd kv))%float = true)
                           (children node))) as [Hex|Hno].
  - right. split; [done|].
    destruct (select_fold_present c tv _ _ Hex) as (bs' & a' & -> & Ha'). eauto.
  - left. apply not_Exists_Forall in Hno; [|intros kv; apply _].
    assert (Hall : Forall (fun kv => ((-1e9) <? score (snd kv))%float = false)
                          (children node)).
    { eapply Forall_impl; [exact Hno|]. intros kv Hkv. simpl in Hkv.
      by destruct (_ <? _)%float. }
    split; [done|]. by rewrite (select_fold_absent c tv _ _ Hall).
Qed.

(** ** Runs that return *)

Definition returned {A : Type} (r : run A) : option A :=
  match r with
  | Returns a _ => Some a
  | _ => None
  end.

Lemma bind_returns_inv {A B} (m : M A) (f : A → M B) self b self' :
  (m ≫= f) self = Returns b self' →
  ∃ a self1, m self = Returns a self1 ∧ f a self1 = Returns b self'.
Proof.
  unfold mbind, engine_bind, bind. destruct (m self) as [a s1|e s1|s1]; [eauto|done..].
Qed.

Lemma lift_returns_inv {A} (r : result A) self a self' :
  lift r self = Returns a self' → r = Ok a ∧ self' = self.
Proof. unfold lift. destruct r; [|done]. by intros [= -> ->]. Qed.

Lemma node_at_returns_inv k self n self' :
  node_at k self = Returns n self' → _table self !! k = Some n ∧ self' = self.
Proof. unfold node_at. destruct (_table self !! k); [|done]. by intros [= -> ->]. Qed.

(** ** The policy [search] returns has nine entries *)

Lemma py_setitem_length {A} (l : list A) i v l' :
  py_setitem l i v = Ok l' → length l' = length l.
Proof.
  unfold py_setitem. destruct (py_index _ _); [|done]. intros [= <-]. apply length_insert.
Qed.

Lemma fill_counts_length ch : ∀ counts pi,
  fill_counts ch counts = Ok pi → length pi = length counts.
Proof.
  induction ch as [|[a child] ch IH]; intros counts pi; simpl.
  - by intros [= <-].
  - destruct (py_setitem _ _ _) as [counts'|] eqn:E; [|done]. simpl.
    intros H%IH. by rewrite H, (py_setitem_length _ _ _ _ E).
Qed.

Lemma fill_uniform_length legal todo : ∀ counts pi,
  fill_uniform legal todo counts = Ok pi → length pi = length counts.
Proof.
  induction todo as [|a todo IH]; intros counts pi; simpl.
  - by intros [= <-].
  - destruct (py_setitem _ _ _) as [counts'|] eqn:E; [|done]. simpl.
    intros H%IH. by rewrite H, (py_setitem_length _ _ _ _ E).
Qed.

Lemma search_length noise fuel s self pi self' :
  search noise fuel s self = Returns pi self' → length pi = 9%nat.
Proof.
  unfold search. intros H.
  apply bind_returns_inv in H as (root & s1 & _ & H).
  apply bind_returns_inv in H as ([] & s2 & _ & H).
  apply bind_returns_inv in H as ([] & s3 & _ & H).
  apply bind_returns_inv in H as (e & s4 & _ & H).
  apply bind_returns_inv in H as ([] & s5 & _ & H).
  apply bind_returns_inv in H as (n & s6 & _ & H).
  apply bind_returns_inv in H as (counts & s7 & Hc & H).
  apply lift_returns_inv in Hc as [Hc _]. apply fill_counts_length in Hc.
  rewrite length_replicate in Hc. cbn zeta in H.
  destruct (_ <=? _)%float.
  - apply lift_returns_inv in H as [H _]. apply fill_uniform_length in H. congruence.
  - injection H as <- _. by rewrite length_map.
Qed.

(** ** Every simulation is played to the end of the game *)

Lemma expand_children_grows policy actions : ∀ ch ch',
  expand_children policy actions ch = (ch', None) →
  ch ≠ [] ∨ actions ≠ [] → ch' ≠ [].
Proof.
  induction actions as [|a actions IH]; intros ch ch'; simpl.
  - intros [= <-]. by intros [|].
  - destruct (py_item policy a) as [p|]; [|done]. intros H%IH _. apply H. left.
    unfold setdefault. destruct (dict_get ch a) eqn:E; by destruct ch.
Qed.

Lemma ensure_expanded_children k s self self1 n :
  _ensure_expanded k s self = Returns tt self1 →
  _table self1 !! k = Some n → children n = [] → is_terminal s = true.
Proof.
  unfold _ensure_expanded. intros H Hn Hch.
  apply bind_returns_inv in H as (n0 & s0 & [Hn0 ->]%node_at_returns_inv & H).
  destruct (is_terminal s) eqn:Hterm; [done|]. exfalso.
  destruct (bool_decide (children n0 = [])) eqn:Hch0; simpl in H.
  2:{ injection H as <-. apply bool_decide_eq_false_1 in Hch0. congruence. }
  apply bind_returns_inv in H as (pv & s1 & Hpv & H).
  injection Hpv as _ <-. unfold store_expansion in H.
  apply bind_returns_inv in H as ([] & s2 & Hset & H).
  destruct (expand_children _ _ _) as [ch' [e|]] eqn:Hexp; [done|].
  injection H as <-. unfold set_children in Hset. simpl in Hset.
  rewrite Hn0 in Hset. injection Hset as <-. simpl in Hn.
  rewrite lookup_insert_eq in Hn. injection Hn as <-. simpl in Hch. subst ch'.
  apply expand_children_grows in Hexp; [done|]. right.
  apply has_legal_move_spec. unfold is_terminal in Hterm.
  destruct (_ || _); [done|]. by destruct (has_legal_move s).
Qed.

Lemma descend_leaf_terminal fuel : ∀ k s path self path' leaf self',
  descend fuel k s path self = Returns (path', leaf) self' → is_terminal leaf = true.
Proof.
  induction fuel as [|fuel IH]; intros k s path self path' leaf self'; [done|].
  cbn [descend]. intros H.
  apply bind_returns_inv in H as ([] & s1 & Hexp & H).
  apply bind_returns_inv in H as (n & s2 & [Hn ->]%node_at_returns_inv & H).
  destruct (bool_decide (children n = [])) eqn:Hch.
  - injection H as _ <- _. apply bool_decide_eq_true_1 in Hch.
    by eapply ensure_expanded_children.
  - apply bind_returns_inv in H as (e & s3 & _ & H).
    apply bind_returns_inv in H as (action & s4 & _ & H).
    apply bind_returns_inv in H as (s' & s5 & _ & H).
    apply bind_returns_inv in H as (k' & s6 & _ & H).
    destruct (is_terminal s') eqn:Hterm.
    + by injection H as _ <- _.
    + by eapply IH.
Qed.

(** The value [_simulate] backs up is never the evaluator's: the leaf is
    terminal, and its value is that of the final scores. *)
Lemma simulate_plays_out fuel root self self' :
  _simulate fuel root self = Returns tt self' →
  ∃ path leaf self1 self2,
    descend fuel (state_key (canonicalize root)) root []
            (engine_of (_get_or_create_node root self)) = Returns (path, leaf) self1
    ∧ is_terminal leaf = true
    ∧ _evaluate leaf self1 = Returns (terminal_value leaf) self1
    ∧ backpropagate (rev path) (terminal_value leaf) self1 = Returns tt self2
    ∧ self' = self2.
Proof.
  unfold _simulate. intros H.
  apply bind_returns_inv in H as (k & s1 & Hroot & H).
  apply bind_returns_inv in H as ([path leaf] & s2 & Hdesc & H).
  pose proof (descend_leaf_terminal _ _ _ _ _ _ _ _ Hdesc) as Hterm.
  rewrite (bind_returns _ _ _ _ _ (evaluate_terminal leaf s2 Hterm)) in H.
  exists path, leaf, s2, self'.
  destruct (get_or_create_present root self) as (s1' & Hroot' & _).
  rewrite Hroot' in Hroot. injection Hroot as <- <-. rewrite Hroot'. simpl.
  split; [done|]. split; [done|]. split; [by apply evaluate_terminal|]. done.
Qed.

(** ** The nodes of the table

    A node of the table is created with prior 1.0 and no visits, and stays
    so: the statistics of a position are those of the entries of its parents'
    [children].  It is filed under the canonical key of the state it stores. *)

Definition node_filed (k : Key) (n : Node) : Prop :=
  prior n = 1%float ∧ visit_count n = 0 ∧ value_sum n = 0%float
  ∧ ∃ st, state n = Some st ∧ state_key (canonicalize st) = k.

Definition table_filed (e : MCTS) : Prop :=
  ∀ k n, _table e !! k = Some n → node_filed k n.

Definition keeps_filed (e e' : MCTS) : Prop := table_filed e → table_filed e'.

Lemma keeps_filed_set_children k ch self :
  keeps_filed self (engine_of (set_children k ch self)).
Proof.
  intros Hinv. unfold set_children. destruct (_table self !! k) as [n|] eqn:E; [|done].
  intros k' n'. simpl. destruct (decide (k = k')) as [->|Hne].
  - rewrite lookup_insert_eq. intros [= <-]. exact (Hinv _ _ E).
  - rewrite lookup_insert_ne by done. apply Hinv.
Qed.

Lemma keeps_filed_create s : preserves keeps_filed (_get_or_create_node s).
Proof.
  intros self Hinv. unfold _get_or_create_node. destruct (_table self !! _) eqn:E; [done|].
  intros k' n'. simpl. destruct (decide (state_key (canonicalize s) = k')) as [<-|Hne].
  - rewrite lookup_insert_eq. intros [= <-]. unfold node_filed. simpl.
    split; [done|]. split; [done|]. split; [done|]. by exists s.
  - rewrite lookup_insert_ne by done. apply Hinv.
Qed.

Lemma search_keeps_filed noise fuel s self :
  table_filed self → table_filed (engine_of (search noise fuel s self)).
Proof.
  apply (preserves_search keeps_filed).
  - intros e He. exact He.
  - intros e1 e2 e3 H12 H23 H1. auto.
  - intros s' _ e He. exact He.
  - apply keeps_filed_create.
  - intros k ch _ e. apply keeps_filed_set_children.
  - intros k ch e n _ _. apply keeps_filed_set_children.
Qed.

Lemma init_table_filed f c a d n : table_filed (__init__ f c a d n).
Proof. intros k x. simpl. by rewrite lookup_empty. Qed.

(** ** A search from a terminal position *)

Lemma py_setitem_in_range {A} (l : list A) i v :
  0 <= i < Z.of_nat (length l) → py_setitem l i v = Ok (<[Z.to_nat i := v]> l).
Proof. intros H. unfold py_setitem. by rewrite py_index_in_range. Qed.

Lemma fill_uniform_spec legal todo : ∀ counts,
  Forall (fun a => 0 <= a < Z.of_nat (length counts)) todo →
  ∃ pi, fill_uniform legal todo counts = Ok pi
        ∧ length pi = length counts
        ∧ ∀ a, 0 <= a →
            pi !! Z.to_nat a
            = if bool_decide (a ∈ todo)
              then (λ _, (1 / float_of_int (Z.of_nat (length legal)))%float)
                     <$> counts !! Z.to_nat a
              else counts !! Z.to_nat a.
Proof.
  induction todo as [|b todo IH]; intros counts Hall; cbn [fill_uniform].
  - exists counts. split; [done|]. split; [done|]. intros a _.
    rewrite bool_decide_eq_false_2; [done|]. by intros ?%elem_of_nil.
  - inversion Hall as [|? ? Hb Htodo]; subst.
    rewrite py_setitem_in_range by done. cbn [mbind result_bind].
    destruct (IH (<[Z.to_nat b := (1 / float_of_int (Z.of_nat (length legal)))%float]> counts))
      as (pi & -> & Hlen & Hpi).
    { by rewrite length_insert. }
    exists pi. split; [done|]. split; [by rewrite Hlen, length_insert|].
    intros a Ha. rewrite (Hpi a Ha). destruct (decide (a = b)) as [->|Hne].
    + rewrite (bool_decide_eq_true_2 (b ∈ b :: todo)) by (apply elem_of_cons; by left).
      rewrite list_lookup_insert_eq by lia.
      assert (is_Some (counts !! Z.to_nat b)) as [x ->] by (apply lookup_lt_is_Some; lia).
      by case_bool_decide.
    + rewrite list_lookup_insert_ne by lia.
      case_bool_decide as Hin.
      * rewrite bool_decide_eq_true_2; [done|]. apply elem_of_cons. by right.
      * rewrite bool_decide_eq_false_2; [done|].
        intros [?|?]%elem_of_cons; [done|done].
Qed.

Lemma ensure_expanded_terminal_returns k s self n :
  is_terminal s = true → _table self !! k = Some n →
  _ensure_expanded k s self = Returns tt self.
Proof.
  intros Hterm Hn. unfold _ensure_expanded, mbind, engine_bind, bind, node_at.
  by rewrite Hn, Hterm, orb_true_r.
Qed.

Lemma simulate_terminal_root fuel s self n :
  is_terminal s = true →
  _table self !! state_key (canonicalize s) = Some n → children n = [] →
  _simulate (S fuel) s self = Returns tt self.
Proof.
  intros Hterm Hn Hch. unfold _simulate.
  assert (Hroot : _get_or_create_node s self = Returns (state_key (canonicalize s)) self).
  { unfold _get_or_create_node. by rewrite Hn. }
  rewrite (bind_returns _ _ _ _ _ Hroot). cbn [descend].
  assert (Hdesc : descend (S fuel) (state_key (canonicalize s)) s [] self
                  = Returns ([], s) self).
  { cbn [descend].
    rewrite (bind_returns _ _ _ _ _ (ensure_expanded_terminal_returns _ _ _ _ Hterm Hn)).
    assert (Hat : node_at (state_key (canonicalize s)) self = Returns n self).
    { unfold node_at. by rewrite Hn. }
    rewrite (bind_returns _ _ _ _ _ Hat). by rewrite Hch. }
  rewrite (bind_returns _ _ _ _ _ Hdesc).
  by rewrite (bind_returns _ _ _ _ _ (evaluate_terminal s self Hterm)).
Qed.

Lemma repeat_run_fixed n (m : M unit) self :
  m self = Returns tt self → repeat_run n m self = Returns tt self.
Proof.
  intros Hm. induction n as [|n IH]; [done|].
  cbn [repeat_run]. by rewrite (bind_returns _ _ _ _ _ Hm).
Qed.

Lemma search_terminal_root noise fuel s self :
  is_terminal s = true →
  (∀ n, _table self !! state_key (canonicalize s) = Some n → children n = []) →
  search noise (S fuel) s self
  = lift (fill_uniform (legal_moves s) (legal_moves s) (replicate 9 0%float))
         (engine_of (_get_or_create_node s self)).
Proof.
  intros Hterm Hleaf.
  destruct (get_or_create_present s self) as (self1 & Hroot & [n Hn]).
  assert (Hch : children n = []).
  { revert Hroot Hn. unfold _get_or_create_node.
    destruct (_table self !! _) as [n0|] eqn:E.
    - intros [= <-] Hn. apply Hleaf. congruence.
    - intros [= <-]. simpl. rewrite lookup_insert_eq. by intros [= <-]. }
  rewrite Hroot. simpl. unfold search. rewrite (bind_returns _ _ _ _ _ Hroot).
  rewrite (bind_returns _ _ _ _ _ (ensure_expanded_terminal_returns _ _ _ _ Hterm Hn)).
  assert (Hat : node_at (state_key (canonicalize s)) self1 = Returns n self1).
  { unfold node_at. by rewrite Hn. }
  assert (Hnoise : _add_root_dirichlet noise (state_key (canonicalize s)) self1
                   = Returns tt self1).
  { unfold _add_root_dirichlet. rewrite (bind_returns _ _ _ _ _ Hat). by rewrite Hch. }
  rewrite (bind_returns _ _ _ _ _ Hnoise).
  assert (Hask : ask self1 = Returns self1 self1) by done.
  rewrite (bind_returns _ _ _ _ _ Hask).
  rewrite (bind_returns _ _ _ _ _
             (repeat_run_fixed _ _ _ (simulate_terminal_root fuel s self1 n Hterm Hn Hch))).
  rewrite (bind_returns _ _ _ _ _ Hat). rewrite Hch. done.
Qed.

(** ** The expansion of a node *)

Lemma py_item_in_range {A} (l : list A) i :
  0 <= i < Z.of_nat (length l) → ∃ x, py_item l i = Ok x ∧ l !! Z.to_nat i = Some x.
Proof.
  intros H. unfold py_item. rewrite py_index_in_range by done.
  destruct (lookup_lt_is_Some_2 l (Z.to_nat i)) as [x Hx]; [lia|]. rewrite Hx. eauto.
Qed.

(** The children [_ensure_expanded] gives a node: one per action, with the
    prior the policy has for it. *)
Definition expanded (policy : list float) (actions : list Z) : list (Z * Node) :=
  map (fun a => (a, new_child (default 0%float (policy !! Z.to_nat a)))) actions.

Lemma expand_children_all policy actions : ∀ ch,
  StronglySorted Z.lt (map fst ch ++ actions) →
  Forall (fun a => 0 <= a < Z.of_nat (length policy)) actions →
  expand_children policy actions ch = (ch ++ expanded policy actions, None).
Proof.
  induction actions as [|a actions IH]; intros ch Hs Hall; simpl.
  - by rewrite app_nil_r.
  - inversion Hall as [|? ? Ha Hrest]; subst.
    destruct (py_item_in_range policy a Ha) as (p & -> & Hp).
    unfold setdefault. rewrite dict_get_absent by (by eapply sorted_app_cons_absent).
    rewrite IH; [|by rewrite map_app, <- app_assoc|done].
    by rewrite Hp, <- app_assoc.
Qed.

Lemma legal_moves_below s :
  Forall (fun a => 0 <= a < Z.of_nat (length (sel (player_to_move s) (pits s))))
         (legal_moves s).
Proof. apply Forall_forall. intros a Ha%list_elem_of_In. by apply legal_move_get in Ha as [? _]. Qed.

Lemma ensure_expanded_fresh k s self n :
  _table self !! k = Some n → children n = [] → is_terminal s = false →
  (length (sel (player_to_move s) (pits s))
   <= length (fst (inference_fn self (canonicalize s))))%nat →
  ∃ self',
    _ensure_expanded k s self = Returns tt self'
    ∧ evaluator_calls self' = canonicalize s :: evaluator_calls self
    ∧ _table self'
      = <[k := mkNode (prior n) (state n) (visit_count n) (value_sum n)
                      (expanded (fst (inference_fn self (canonicalize s))) (legal_moves s))]>
          (_table self).
Proof.
  intros Hn Hch Hterm Hlen. unfold _ensure_expanded.
  assert (Hat : node_at k self = Returns n self) by (unfold node_at; by rewrite Hn).
  rewrite (bind_returns _ _ _ _ _ Hat). rewrite Hch, Hterm. simpl.
  unfold mbind, engine_bind, bind, infer. simpl.
  rewrite expand_children_all.
  - unfold store_expansion, mbind, engine_bind, bind, set_children. simpl. rewrite Hn.
    simpl. eexists. split; [done|]. by split.
  - apply legal_moves_sorted.
  - eapply Forall_impl; [apply legal_moves_below|]. simpl. intros a Ha. lia.
Qed.

(** ** The entries of [children]

    A child entry is created with no visits, no state and no children of its
    own, and the search only ever adds to its visit count and value sum and
    changes its prior: the tree below a node is reached through the table,
    never through the entry. *)

Definition child_ok (c : Node) : Prop :=
  children c = [] ∧ state c = None ∧ 0 <= visit_count c.

Definition children_ok (ch : list (Z * Node)) : Prop :=
  Forall (fun kv => child_ok (snd kv)) ch.

Definition table_children_ok (e : MCTS) : Prop :=
  ∀ k n, _table e !! k = Some n → children_ok (children n).

Definition keeps (I : MCTS → Prop) {A : Type} (m : M A) : Prop :=
  ∀ self, I self → I (engine_of (m self)).

Lemma keeps_bind I {A B} (m : M A) (f : A → M B) :
  keeps I m → (∀ a, keeps I (f a)) → keeps I (m ≫= f).
Proof.
  intros Hm Hf self Hself. unfold mbind, engine_bind, bind.
  specialize (Hm self Hself). destruct (m self) as [a s1|e s1|s1]; simpl in *; [|done..].
  by apply Hf.
Qed.

Lemma keeps_bind_at I {A B} (m : M A) (f : A → M B) self :
  I (engine_of (m self)) → (∀ a, keeps I (f a)) → I (engine_of ((m ≫= f) self)).
Proof.
  intros Hm Hf. unfold mbind, engine_bind, bind.
  destruct (m self) as [a s1|e s1|s1]; simpl in *; [|done..]. by apply Hf.
Qed.

Lemma keeps_pure I {A} (m : M A) : (∀ self, engine_of (m self) = self) → keeps I m.
Proof. intros Hm self Hself. by rewrite Hm. Qed.

Lemma keeps_node_at_bind I {B} k (f : Node → M B) :
  (∀ self n, I self → _table self !! k = Some n → I (engine_of (f n self))) →
  keeps I (node_at k ≫= f).
Proof.
  intros Hf self Hself. unfold mbind, engine_bind, bind, node_at.
  destruct (_table self !! k) as [n|] eqn:E; [by apply Hf|done].
Qed.

Lemma node_at_pure k self : engine_of (node_at k self) = self.
Proof. unfold node_at. by destruct (_table self !! k). Qed.

Lemma lift_pure {A} (r : result A) self : engine_of (lift r self) = self.
Proof. by destruct r. Qed.

Lemma children_ok_set k ch self :
  children_ok ch → table_children_ok self →
  table_children_ok (engine_of (set_children k ch self)).
Proof.
  intros Hch Hinv. unfold set_children. destruct (_table self !! k) as [n|] eqn:E; [|done].
  intros k' n'. simpl. destruct (decide (k = k')) as [->|Hne].
  - rewrite lookup_insert_eq. by intros [= <-].
  - rewrite lookup_insert_ne by done. apply Hinv.
Qed.

Lemma children_ok_create s : keeps table_children_ok (_get_or_create_node s).
Proof.
  intros self Hinv. unfold _get_or_create_node. destruct (_table self !! _) eqn:E; [done|].
  intros k' n'. simpl. destruct (decide (state_key (canonicalize s) = k')) as [<-|Hne].
  - rewrite lookup_insert_eq. intros [= <-]. constructor.
  - rewrite lookup_insert_ne by done. apply Hinv.
Qed.

Lemma children_ok_infer s : keeps table_children_ok (infer s).
Proof. intros self Hinv. exact Hinv. Qed.

Lemma children_ok_expand policy actions : ∀ ch,
  children_ok ch → children_ok (fst (expand_children policy actions ch)).
Proof.
  induction actions as [|a actions IH]; intros ch Hch; simpl; [done|].
  destruct (py_item policy a) as [p|]; [|done]. apply IH.
  unfold setdefault. destruct (dict_get ch a); [done|].
  apply Forall_app. split; [done|]. by repeat constructor.
Qed.

Lemma children_ok_alter (f : Node → Node) a ch :
  (∀ c, child_ok c → child_ok (f c)) → children_ok ch → children_ok (dict_alter f a ch).
Proof.
  intros Hf. induction 1 as [|[k c] ch Hc Hch IH]; simpl; [constructor|].
  destruct (k =? a); constructor; simpl; auto.
Qed.

Lemma child_ok_record_visit v c : child_ok c → child_ok (record_visit v c).
Proof. intros (? & ? & ?). repeat split; simpl; [done..|lia]. Qed.

Lemma child_ok_set_prior p c : child_ok c → child_ok (set_prior p c).
Proof. intros (? & ? & ?). by repeat split. Qed.

Lemma children_ok_mix_noise frac samples : ∀ ch,
  children_ok ch → children_ok (mix_noise frac samples ch).
Proof.
  unfold mix_noise. induction samples as [|[a eps] samples IH]; intros ch Hch; [done|].
  simpl. apply IH. destruct (dict_get ch a); [|done].
  apply children_ok_alter; [apply child_ok_set_prior|done].
Qed.

Lemma children_ok_store k policy actions ch :
  children_ok ch →
  keeps table_children_ok (store_expansion k (expand_children policy actions ch)).
Proof.
  intros Hch. unfold store_expansion. apply keeps_bind.
  - intros self. by apply children_ok_set, children_ok_expand.
  - intros _. destruct (snd _); by apply keeps_pure.
Qed.

Lemma children_ok_ensure_expanded k s : keeps table_children_ok (_ensure_expanded k s).
Proof.
  unfold _ensure_expanded. apply keeps_node_at_bind. intros self n Hself Hn.
  destruct (_ || _); [done|].
  apply keeps_bind_at; [by apply children_ok_infer|].
  intros pv. apply children_ok_store. by eapply Hself.
Qed.

Lemma children_ok_evaluate s : keeps table_children_ok (_evaluate s).
Proof.
  unfold _evaluate. destruct (is_terminal s).
  { destruct (outcome s); by apply keeps_pure. }
  apply keeps_bind; [apply children_ok_infer|]. intros pv.
  apply keeps_bind; [apply children_ok_create|]. intros node.
  apply keeps_node_at_bind. intros self n Hself Hn.
  apply keeps_bind_at; [|intros; by apply keeps_pure].
  destruct (bool_decide _); [|done].
  apply children_ok_store; [|done]. by eapply Hself.
Qed.

Lemma children_ok_descend fuel : ∀ k s path, keeps table_children_ok (descend fuel k s path).
Proof.
  induction fuel as [|fuel IH]; intros k s path; [by apply keeps_pure|].
  cbn [descend].
  apply keeps_bind; [apply children_ok_ensure_expanded|]. intros _.
  apply keeps_bind; [apply keeps_pure, node_at_pure|]. intros n.
  destruct (bool_decide _); [by apply keeps_pure|].
  apply keeps_bind; [by apply keeps_pure|]. intros self.
  apply keeps_bind; [apply keeps_pure, lift_pure|]. intros action.
  apply keeps_bind; [apply keeps_pure, lift_pure|]. intros s'.
  apply keeps_bind; [apply children_ok_create|]. intros k'.
  destruct (is_terminal s'); [by apply keeps_pure|apply IH].
Qed.

Lemma children_ok_backpropagate rpath : ∀ v,
  keeps table_children_ok (backpropagate rpath v).
Proof.
  induction rpath as [|[parent action] rpath IH]; intros v; [by apply keeps_pure|].
  cbn [backpropagate]. apply keeps_node_at_bind. intros self n Hself Hn.
  destruct (dict_get _ _); [|done].
  apply keeps_bind_at; [|intros _; apply IH].
  apply children_ok_set; [|done].
  apply children_ok_alter; [apply child_ok_record_visit|by eapply Hself].
Qed.

Lemma children_ok_simulate fuel s : keeps table_children_ok (_simulate fuel s).
Proof.
  unfold _simulate. apply keeps_bind; [apply children_ok_create|]. intros k.
  apply keeps_bind; [apply children_ok_descend|]. intros [path leaf].
  apply keeps_bind; [apply children_ok_evaluate|]. intros v.
  apply children_ok_backpropagate.
Qed.

Lemma keeps_repeat_run I n (m : M unit) : keeps I m → keeps I (repeat_run n m).
Proof.
  intros Hm. induction n as [|n IH]; [by apply keeps_pure|].
  cbn [repeat_run]. by apply keeps_bind.
Qed.

Lemma children_ok_add_root_dirichlet noise root :
  keeps table_children_ok (_add_root_dirichlet noise root).
Proof.
  unfold _add_root_dirichlet. apply keeps_node_at_bind. intros self n Hself Hn.
  destruct (bool_decide _); [done|]. destruct (bool_decide _); [done|].
  unfold mbind, engine_bind, bind, ask.
  destruct (dirichlet_cases noise (length (map fst (children n))) (dirichlet_alpha self) self)
    as [[eps ->] | [-> | ->]]; [|done..].
  apply (children_ok_set root _ self); [|done].
  apply children_ok_mix_noise. by eapply Hself.
Qed.

Lemma children_ok_search noise fuel s : keeps table_children_ok (search noise fuel s).
Proof.
  unfold search. apply keeps_bind; [apply children_ok_create|]. intros root.
  apply keeps_bind; [apply children_ok_ensure_expanded|]. intros _.
  apply keeps_bind; [apply children_ok_add_root_dirichlet|]. intros _.
  apply keeps_bind; [by apply keeps_pure|]. intros e.
  apply keeps_bind; [apply keeps_repeat_run, children_ok_simulate|]. intros _.
  apply keeps_bind; [apply keeps_pure, node_at_pure|]. intros n.
  apply keeps_bind; [apply keeps_pure, lift_pure|]. intros counts. simpl.
  destruct (_ <=? _)%float; [apply keeps_pure, lift_pure|by apply keeps_pure].
Qed.

(** ** The noise at the root *)

(** [child.prior = (1 - frac) * child.prior + frac * eps], entry by entry. *)
Fixpoint mixed (frac : float) (ch : list (Z * Node)) (noise : list float)
    : list (Z * Node) :=
  match ch, noise with
  | (a, child) :: ch', eps :: noise' =>
      (a, set_prior ((1 - frac) * prior child + frac * eps)%float child)
      :: mixed frac ch' noise'
  | _, _ => ch
  end.

Lemma dict_get_app_absent {V} (pre suf : list (Z * V)) k :
  ¬ In k (map fst pre) → dict_get (pre ++ suf) k = dict_get suf k.
Proof.
  induction pre as [|[k' v] pre IH]; simpl; [done|]. intros Hk.
  destruct (Z.eqb_spec k' k) as [->|_]; [tauto|]. apply IH. tauto.
Qed.

Lemma dict_alter_app_absent {V} (f : V → V) (pre suf : list (Z * V)) k :
  ¬ In k (map fst pre) → dict_alter f k (pre ++ suf) = pre ++ dict_alter f k suf.
Proof.
  induction pre as [|[k' v] pre IH]; simpl; [done|]. intros Hk.
  destruct (Z.eqb_spec k' k) as [->|_]; [tauto|]. rewrite IH; [done|tauto].
Qed.

Lemma mix_noise_mixed frac suf : ∀ pre noise,
  NoDup (map fst (pre ++ suf)) →
  mix_noise frac (zip (map fst suf) noise) (pre ++ suf) = pre ++ mixed frac suf noise.
Proof.
  unfold mix_noise. induction suf as [|[a child] suf IH]; intros pre noise Hnd; [done|].
  destruct noise as [|eps noise]; [done|]. cbn [map fst zip zip_with fold_left mixed].
  assert (Ha : ¬ In a (map fst pre)).
  { rewrite map_app in Hnd. apply NoDup_app in Hnd as (_ & Hdisj & _).
    intros Hin%list_elem_of_In. apply (Hdisj a Hin). simpl. by left. }
  rewrite dict_get_app_absent by done. simpl. rewrite Z.eqb_refl.
  rewrite dict_alter_app_absent by done. simpl. rewrite Z.eqb_refl.
  rewrite (cons_middle _ pre), app_assoc. rewrite IH.
  - by rewrite <- app_assoc.
  - rewrite <- app_assoc. simpl. revert Hnd. by rewrite !map_app.
Qed.

Lemma sorted_NoDup (l : list Z) : StronglySorted Z.lt l → NoDup l.
Proof.
  induction 1 as [|x l _ IH Hall]; constructor; [|done].
  intros Hin. rewrite Forall_forall in Hall. specialize (Hall _ Hin). lia.
Qed.

Lemma add_root_dirichlet_mixed noise root self n :
  _table self !! root = Some n → StronglySorted Z.lt (map fst (children n)) →
  _add_root_dirichlet noise root self
  = if bool_decide (children n = []) then Returns tt self
    else if gamma_refused (dirichlet_alpha self) then Raises ValueError self
    else if gamma_stuck (dirichlet_alpha self) then OutOfFuel self
    else Returns tt
           (with_table self
              (<[root := mkNode (prior n) (state n) (visit_count n) (value_sum n)
                                (mixed (dirichlet_frac self) (children n)
                                       (noise (length (children n))
                                              (dirichlet_alpha self)))]>
                 (_table self))).
Proof.
  intros Hn Hsorted. unfold _add_root_dirichlet.
  assert (Hat : node_at root self = Returns n self) by (unfold node_at; by rewrite Hn).
  rewrite (bind_returns _ _ _ _ _ Hat). case_bool_decide as Hch; [done|].
  rewrite bool_decide_eq_false_2 by (by destruct (children n)).
  unfold mbind, engine_bind, bind, ask, _dirichlet. rewrite length_map.
  replace (length (children n) =? 0)%nat with false
    by (symmetry; apply Nat.eqb_neq; by destruct (children n)).
  destruct (gamma_refused _); [done|]. destruct (gamma_stuck _); [done|].
  unfold ret, set_children. rewrite Hn.
  by rewrite (mix_noise_mixed _ (children n) []) by (by apply sorted_NoDup).
Qed.

(** ** The actions of a node

    Children are added to a node that has none, and only then: once a node
    has children, the list of its actions stays as it is. *)

Definition actions_kept (e e' : MCTS) : Prop :=
  ∀ k n, _table e !! k = Some n → children n ≠ [] →
    ∃ n', _table e' !! k = Some n' ∧ map fst (children n') = map fst (children n).

Lemma actions_kept_refl e : actions_kept e e.
Proof. intros k n Hn _. eauto. Qed.

Lemma actions_kept_trans e1 e2 e3 :
  actions_kept e1 e2 → actions_kept e2 e3 → actions_kept e1 e3.
Proof.
  intros H12 H23 k n Hn Hch. destruct (H12 k n Hn Hch) as (n2 & Hn2 & Hk2).
  destruct (H23 k n2 Hn2) as (n3 & Hn3 & Hk3).
  - intros E. rewrite E in Hk2. by destruct (children n).
  - exists n3. split; [done|congruence].
Qed.

Lemma actions_kept_create s : preserves actions_kept (_get_or_create_node s).
Proof.
  intros self k n Hn _. unfold _get_or_create_node.
  destruct (_table self !! state_key (canonicalize s)) eqn:E; simpl; [eauto|].
  exists n. split; [|done]. rewrite lookup_insert_ne; [done|congruence].
Qed.

Lemma actions_kept_infer s : preserves actions_kept (infer s).
Proof. intros self k n Hn _. by exists n. Qed.

(** The two updates of a node's children: the first expansion, and a change
    of the entries that keeps their actions. *)
Lemma actions_kept_set k ch self n :
  _table self !! k = Some n →
  children n = [] ∨ map fst ch = map fst (children n) →
  actions_kept self (engine_of (set_children k ch self)).
Proof.
  intros Hn Hch k' n' Hn' Hne. unfold set_children. rewrite Hn. simpl.
  destruct (decide (k = k')) as [<-|Hk].
  - rewrite lookup_insert_eq. rewrite Hn in Hn'. injection Hn' as <-.
    destruct Hch as [Hch|Hch]; [done|]. eauto.
  - rewrite lookup_insert_ne by done. eauto.
Qed.

Lemma actions_kept_store k policy actions self n :
  _table self !! k = Some n → children n = [] →
  actions_kept self
    (engine_of (store_expansion k (expand_children policy actions (children n)) self)).
Proof.
  intros Hn Hch. unfold store_expansion.
  apply (bind_pointwise actions_kept actions_kept_trans).
  - eapply actions_kept_set; [done|by left].
  - intros _. destruct (snd _); intros e'; apply actions_kept_refl.
Qed.

Lemma actions_kept_ensure_expanded k s : preserves actions_kept (_ensure_expanded k s).
Proof.
  unfold _ensure_expanded.
  apply (preserves_node_at_bind actions_kept actions_kept_refl). intros self n Hn.
  destruct (bool_decide (children n = [])) eqn:Hch; simpl; [|apply actions_kept_refl].
  destruct (is_terminal s); [apply actions_kept_refl|].
  apply bool_decide_eq_true_1 in Hch.
  unfold mbind, engine_bind, bind, infer.
  apply (actions_kept_trans _ (with_call self (canonicalize s))); [by intros k' n' ? ?; eauto|].
  by apply actions_kept_store.
Qed.

Lemma actions_kept_evaluate s : preserves actions_kept (_evaluate s).
Proof.
  unfold _evaluate. destruct (is_terminal s).
  { destruct (outcome s); intros e; apply actions_kept_refl. }
  apply (preserves_bind actions_kept actions_kept_trans); [apply actions_kept_infer|].
  intros pv.
  apply (preserves_bind actions_kept actions_kept_trans); [apply actions_kept_create|].
  intros node.
  apply (preserves_node_at_bind actions_kept actions_kept_refl). intros self n Hn.
  apply (bind_pointwise actions_kept actions_kept_trans);
    [|intros _ e; apply actions_kept_refl].
  destruct (bool_decide (children n = [])) eqn:Hch; [|apply actions_kept_refl].
  apply bool_decide_eq_true_1 in Hch. by apply actions_kept_store.
Qed.

Lemma actions_kept_descend fuel : ∀ k s path,
  preserves actions_kept (descend fuel k s path).
Proof.
  induction fuel as [|fuel IH]; intros k s path; [intros e; apply actions_kept_refl|].
  cbn [descend].
  apply (preserves_bind actions_kept actions_kept_trans);
    [apply actions_kept_ensure_expanded|]. intros _.
  apply (preserves_bind actions_kept actions_kept_trans);
    [apply (preserves_node_at actions_kept actions_kept_refl)|]. intros n.
  destruct (bool_decide _); [intros e; apply actions_kept_refl|].
  apply (preserves_bind actions_kept actions_kept_trans);
    [intros e; apply actions_kept_refl|]. intros self.
  apply (preserves_bind actions_kept actions_kept_trans);
    [apply (preserves_lift actions_kept actions_kept_refl)|]. intros action.
  apply (preserves_bind actions_kept actions_kept_trans);
    [apply (preserves_lift actions_kept actions_kept_refl)|]. intros s'.
  apply (preserves_bind actions_kept actions_kept_trans); [apply actions_kept_create|].
  intros k'. destruct (is_terminal s'); [intros e; apply actions_kept_refl|apply IH].
Qed.

Lemma actions_kept_backpropagate rpath : ∀ v,
  preserves actions_kept (backpropagate rpath v).
Proof.
  induction rpath as [|[parent action] rpath IH]; intros v;
    [intros e; apply actions_kept_refl|].
  cbn [backpropagate].
  apply (preserves_node_at_bind actions_kept actions_kept_refl). intros self n Hn.
  destruct (dict_get _ _); [|apply actions_kept_refl].
  apply (bind_pointwise actions_kept actions_kept_trans); [|intros _; apply IH].
  eapply actions_kept_set; [done|]. right. apply dict_alter_keys.
Qed.

Lemma actions_kept_simulate fuel s : preserves actions_kept (_simulate fuel s).
Proof.
  unfold _simulate.
  apply (preserves_bind actions_kept actions_kept_trans); [apply actions_kept_create|].
  intros k.
  apply (preserves_bind actions_kept actions_kept_trans); [apply actions_kept_descend|].
  intros [path leaf].
  apply (preserves_bind actions_kept actions_kept_trans); [apply actions_kept_evaluate|].
  intros v. apply actions_kept_backpropagate.
Qed.

Lemma actions_kept_add_root_dirichlet noise root :
  preserves actions_kept (_add_root_dirichlet noise root).
Proof.
  unfold _add_root_dirichlet.
  apply (preserves_node_at_bind actions_kept actions_kept_refl). intros self n Hn.
  destruct (bool_decide _); [apply actions_kept_refl|].
  destruct (bool_decide _); [apply actions_kept_refl|].
  unfold mbind, engine_bind, bind, ask.
  destruct (dirichlet_cases noise (length (map fst (children n))) (dirichlet_alpha self) self)
    as [[eps ->] | [-> | ->]]; [|apply actions_kept_refl..].
  eapply (actions_kept_set root _ self); [done|]. right. apply mix_noise_keys.
Qed.

Lemma actions_kept_search noise fuel s : preserves actions_kept (search noise fuel s).
Proof.
  unfold search.
  apply (preserves_bind actions_kept actions_kept_trans); [apply actions_kept_create|].
  intros root.
  apply (preserves_bind actions_kept actions_kept_trans);
    [apply actions_kept_ensure_expanded|]. intros _.
  apply (preserves_bind actions_kept actions_kept_trans);
    [apply actions_kept_add_root_dirichlet|]. intros _.
  apply (preserves_bind actions_kept actions_kept_trans);
    [intros e; apply actions_kept_refl|]. intros e.
  apply (preserves_bind actions_kept actions_kept_trans).
  { apply (preserves_repeat_run actions_kept actions_kept_refl actions_kept_trans).
    apply actions_kept_simulate. }
  intros _.
  apply (preserves_bind actions_kept actions_kept_trans);
    [apply (preserves_node_at actions_kept actions_kept_refl)|]. intros n.
  apply (preserves_bind actions_kept actions_kept_trans);
    [apply (preserves_lift actions_kept actions_kept_refl)|]. intros counts. simpl.
  destruct (_ <=? _)%float;
    [apply (preserves_lift actions_kept actions_kept_refl)|intros e'; apply actions_kept_refl].
Qed.

(** ** The nodes of the table across a call

    A node of the table stays in it, under its key, with the state and the
    fields it has.  Once it has children these stay too, action by action,
    and the visit count of none of them goes down. *)

Definition entry_kept (c c' : Z * Node) : Prop :=
  fst c' = fst c ∧ visit_count (snd c) <= visit_count (snd c').

Definition node_kept (n n' : Node) : Prop :=
  state n' = state n ∧ prior n' = prior n
  ∧ visit_count n' = visit_count n ∧ value_sum n' = value_sum n
  ∧ (children n ≠ [] → Forall2 entry_kept (children n) (children n')).

Definition nodes_kept (e e' : MCTS) : Prop :=
  ∀ k n, _table e !! k = Some n → ∃ n', _table e' !! k = Some n' ∧ node_kept n n'.

Lemma entries_kept_refl (ch : list (Z * Node)) : Forall2 entry_kept ch ch.
Proof. apply Forall2_same_length_lookup_2; [done|]. intros i c c' H1 H2.
  assert (c = c') as -> by congruence. split; [done|lia]. Qed.

Lemma entries_kept_trans (c1 c2 c3 : list (Z * Node)) :
  Forall2 entry_kept c1 c2 → Forall2 entry_kept c2 c3 → Forall2 entry_kept c1 c3.
Proof.
  intros H12. revert c3. induction H12 as [|x y l1 l2 [Hk Hv] _ IH]; intros c3 H23.
  - by inversion H23.
  - inversion H23 as [|? z ? l3 [Hk' Hv'] Hrest]; subst. constructor; [|by apply IH].
    split; [congruence|lia].
Qed.

Lemma node_kept_refl n : node_kept n n.
Proof. repeat split. intros _. apply entries_kept_refl. Qed.

Lemma node_kept_trans n1 n2 n3 : node_kept n1 n2 → node_kept n2 n3 → node_kept n1 n3.
Proof.
  intros (Hs & Hp & Hv & Hvs & Hch) (Hs' & Hp' & Hv' & Hvs' & Hch').
  repeat split; [congruence..|]. intros Hne. specialize (Hch Hne).
  eapply entries_kept_trans; [exact Hch|]. apply Hch'.
  intros E. rewrite E in Hch. inversion Hch; subst. done.
Qed.

Lemma nodes_kept_refl e : nodes_kept e e.
Proof. intros k n Hn. exists n. split; [done|apply node_kept_refl]. Qed.

Lemma nodes_kept_trans e1 e2 e3 : nodes_kept e1 e2 → nodes_kept e2 e3 → nodes_kept e1 e3.
Proof.
  intros H12 H23 k n Hn. destruct (H12 k n Hn) as (n2 & Hn2 & Hk2).
  destruct (H23 k n2 Hn2) as (n3 & Hn3 & Hk3).
  exists n3. split; [done|]. by eapply node_kept_trans.
Qed.

Lemma nodes_kept_create s : preserves nodes_kept (_get_or_create_node s).
Proof.
  intros self k n Hn. unfold _get_or_create_node.
  destruct (_table self !! state_key (canonicalize s)) eqn:E; simpl.
  - exists n. split; [done|apply node_kept_refl].
  - exists n. split; [|apply node_kept_refl]. rewrite lookup_insert_ne; [done|congruence].
Qed.

Lemma nodes_kept_infer s : preserves nodes_kept (infer s).
Proof. intros self k n Hn. exists n. split; [done|apply node_kept_refl]. Qed.

(** The two updates of a node's children: the first expansion, and a change
    of the entries that keeps their actions and lowers no visit count. *)
Lemma nodes_kept_set k ch self n :
  _table self !! k = Some n →
  children n = [] ∨ Forall2 entry_kept (children n) ch →
  nodes_kept self (engine_of (set_children k ch self)).
Proof.
  intros Hn Hch k' n' Hn'. unfold set_children. rewrite Hn. simpl.
  destruct (decide (k = k')) as [<-|Hk].
  - rewrite lookup_insert_eq. rewrite Hn in Hn'. injection Hn' as <-.
    eexists. split; [done|]. repeat split. simpl. intros Hne.
    by destruct Hch as [Hch|Hch].
  - rewrite lookup_insert_ne by done. exists n'. split; [done|apply node_kept_refl].
Qed.

Lemma dict_alter_kept (f : Node → Node) a (ch : list (Z * Node)) :
  (∀ c, visit_count c <= visit_count (f c)) →
  Forall2 entry_kept ch (dict_alter f a ch).
Proof.
  intros Hf. induction ch as [|[k c] ch IH]; simpl; [constructor|].
  destruct (k =? a).
  - constructor; [split; [done|apply Hf]|apply entries_kept_refl].
  - constructor; [split; [done|simpl; lia]|done].
Qed.

Lemma record_visit_kept v a (ch : list (Z * Node)) :
  Forall2 entry_kept ch (dict_alter (record_visit v) a ch).
Proof. apply dict_alter_kept. intros c. simpl. lia. Qed.

Lemma mix_noise_kept frac samples : ∀ ch,
  Forall2 entry_kept ch (mix_noise frac samples ch).
Proof.
  unfold mix_noise. induction samples as [|[a eps] samples IH]; intros ch;
    [apply entries_kept_refl|].
  simpl. eapply entries_kept_trans; [|apply IH].
  destruct (dict_get ch a); [|apply entries_kept_refl].
  apply dict_alter_kept. intros c. simpl. lia.
Qed.

Lemma nodes_kept_store k policy actions self n :
  _table self !! k = Some n → children n = [] →
  nodes_kept self
    (engine_of (store_expansion k (expand_children policy actions (children n)) self)).
Proof.
  intros Hn Hch. unfold store_expansion.
  apply (bind_pointwise nodes_kept nodes_kept_trans).
  - eapply nodes_kept_set; [done|by left].
  - intros _. destruct (snd _); intros e'; apply nodes_kept_refl.
Qed.

Lemma nodes_kept_ensure_expanded k s : preserves nodes_kept (_ensure_expanded k s).
Proof.
  unfold _ensure_expanded.
  apply (preserves_node_at_bind nodes_kept nodes_kept_refl). intros self n Hn.
  destruct (bool_decide (children n = [])) eqn:Hch; simpl; [|apply nodes_kept_refl].
  destruct (is_terminal s); [apply nodes_kept_refl|].
  apply bool_decide_eq_true_1 in Hch.
  unfold mbind, engine_bind, bind, infer.
  apply (nodes_kept_trans _ (with_call self (canonicalize s)));
    [apply (nodes_kept_infer (canonicalize s) self)|].
  by apply nodes_kept_store.
Qed.

Lemma nodes_kept_evaluate s : preserves nodes_kept (_evaluate s).
Proof.
  unfold _evaluate. destruct (is_terminal s).
  { destruct (outcome s); intros e; apply nodes_kept_refl. }
  apply (preserves_bind nodes_kept nodes_kept_trans); [apply nodes_kept_infer|].
  intros pv.
  apply (preserves_bind nodes_kept nodes_kept_trans); [apply nodes_kept_create|].
  intros node.
  apply (preserves_node_at_bind nodes_kept nodes_kept_refl). intros self n Hn.
  apply (bind_pointwise nodes_kept nodes_kept_trans);
    [|intros _ e; apply nodes_kept_refl].
  destruct (bool_decide (children n = [])) eqn:Hch; [|apply nodes_kept_refl].
  apply bool_decide_eq_true_1 in Hch. by apply nodes_kept_store.
Qed.

Lemma nodes_kept_descend fuel : ∀ k s path,
  preserves nodes_kept (descend fuel k s path).
Proof.
  induction fuel as [|fuel IH]; intros k s path; [intros e; apply nodes_kept_refl|].
  cbn [descend].
  apply (preserves_bind nodes_kept nodes_kept_trans);
    [apply nodes_kept_ensure_expanded|]. intros _.
  apply (preserves_bind nodes_kept nodes_kept_trans);
    [apply (preserves_node_at nodes_kept nodes_kept_refl)|]. intros n.
  destruct (bool_decide _); [intros e; apply nodes_kept_refl|].
  apply (preserves_bind nodes_kept nodes_kept_trans);
    [intros e; apply nodes_kept_refl|]. intros self.
  apply (preserves_bind nodes_kept nodes_kept_trans);
    [apply (preserves_lift nodes_kept nodes_kept_refl)|]. intros action.
  apply (preserves_bind nodes_kept nodes_kept_trans);
    [apply (preserves_lift nodes_kept nodes_kept_refl)|]. intros s'.
  apply (preserves_bind nodes_kept nodes_kept_trans); [apply nodes_kept_create|].
  intros k'. destruct (is_terminal s'); [intros e; apply nodes_kept_refl|apply IH].
Qed.

Lemma nodes_kept_backpropagate rpath : ∀ v,
  preserves nodes_kept (backpropagate rpath v).
Proof.
  induction rpath as [|[parent action] rpath IH]; intros v;
    [intros e; apply nodes_kept_refl|].
  cbn [backpropagate].
  apply (preserves_node_at_bind nodes_kept nodes_kept_refl). intros self n Hn.
  destruct (dict_get _ _); [|apply nodes_kept_refl].
  apply (bind_pointwise nodes_kept nodes_kept_trans); [|intros _; apply IH].
  eapply nodes_kept_set; [done|]. right. apply record_visit_kept.
Qed.

Lemma nodes_kept_simulate fuel s : preserves nodes_kept (_simulate fuel s).
Proof.
  unfold _simulate.
  apply (preserves_bind nodes_kept nodes_kept_trans); [apply nodes_kept_create|].
  intros k.
  apply (preserves_bind nodes_kept nodes_kept_trans); [apply nodes_kept_descend|].
  intros [path leaf].
  apply (preserves_bind nodes_kept nodes_kept_trans); [apply nodes_kept_evaluate|].
  intros v. apply nodes_kept_backpropagate.
Qed.

Lemma nodes_kept_add_root_dirichlet noise root :
  preserves nodes_kept (_add_root_dirichlet noise root).
Proof.
  unfold _add_root_dirichlet.
  apply (preserves_node_at_bind nodes_kept nodes_kept_refl). intros self n Hn.
  destruct (bool_decide _); [apply nodes_kept_refl|].
  destruct (bool_decide _); [apply nodes_kept_refl|].
  unfold mbind, engine_bind, bind, ask.
  destruct (dirichlet_cases noise (length (map fst (children n))) (dirichlet_alpha self) self)
    as [[eps ->] | [-> | ->]]; [|apply nodes_kept_refl..].
  eapply (nodes_kept_set root _ self); [done|]. right. apply mix_noise_kept.
Qed.

Lemma nodes_kept_search noise fuel s : preserves nodes_kept (search noise fuel s).
Proof.
  unfold search.
  apply (preserves_bind nodes_kept nodes_kept_trans); [apply nodes_kept_create|].
  intros root.
  apply (preserves_bind nodes_kept nodes_kept_trans);
    [apply nodes_kept_ensure_expanded|]. intros _.
  apply (preserves_bind nodes_kept nodes_kept_trans);
    [apply nodes_kept_add_root_dirichlet|]. intros _.
  apply (preserves_bind nodes_kept nodes_kept_trans);
    [intros e; apply nodes_kept_refl|]. intros e.
  apply (preserves_bind nodes_kept nodes_kept_trans).
  { apply (preserves_repeat_run nodes_kept nodes_kept_refl nodes_kept_trans).
    apply nodes_kept_simulate. }
  intros _.
  apply (preserves_bind nodes_kept nodes_kept_trans);
    [apply (preserves_node_at nodes_kept nodes_kept_refl)|]. intros n.
  apply (preserves_bind nodes_kept nodes_kept_trans);
    [apply (preserves_lift nodes_kept nodes_kept_refl)|]. intros counts. simpl.
  destruct (_ <=? _)%float;
    [apply (preserves_lift nodes_kept nodes_kept_refl)|intros e'; apply nodes_kept_refl].
Qed.

(** C5, amended — The table belongs to the engine instance: [__init__]
    creates it empty, and [search] never clears it.  Every node in the table
    when a call of [search] starts is in it, under the same key, when the call
    ends (by a return, by an exception or for lack of fuel), with the state it
    stores and, once it has children, the same actions in the same order, each
    with a visit count that is at least what it was; the node of the root is
    in the table too.  A later call on the same instance starts with these
    nodes. *)
Theorem C5_table_kept_across_searches (noise : nat → float → list float) (fuel : nat)
    (root_state : TogyzKumalakState) (self : MCTS) :
  (∀ k n, _table self !! k = Some n →
     ∃ n', _table (engine_of (search noise fuel root_state self)) !! k = Some n'
           ∧ state n' = state n
           ∧ (children n ≠ [] →
              Forall2 (fun c c' => fst c' = fst c
                                   ∧ visit_count (snd c) <= visit_count (snd c'))
                      (children n) (children n')))
  ∧ is_Some (_table (engine_of (search noise fuel root_state self))
             !! state_key (canonicalize root_state))
  ∧ ∀ f c a d n, _table (__init__ f c a d n) = ∅.
Proof.
  split; [|split; [|done]].
  - intros k n Hn.
    destruct (nodes_kept_search noise fuel root_state self k n Hn)
      as (n' & Hn' & Hstate & _ & _ & _ & Hch).
    exists n'. split; [done|]. split; [done|]. exact Hch.
  - destruct (get_or_create_present root_state self) as (self1 & Hroot & Hin).
    rewrite (search_from_created noise fuel root_state self self1 Hroot Hin).
    by apply (preserves_search table_grows table_grows_refl table_grows_trans
                (fun s _ => table_grows_infer (canonicalize s)) table_grows_create
                (fun k ch _ => table_grows_set_children k ch)
                (fun k ch self _ _ _ => table_grows_set_children k ch self)
                noise fuel root_state self1).
Qed.

(** * Feature encoding ([encode_features] of [src/game/encoding.py])

    [float(z)] and the division [z / x] of an integer by a float convert the
    integer to the nearest binary64 number, ties to even, and raise
    [OverflowError] when that is beyond the largest float. *)

Inductive fexn := Plain (e : exn) | OverflowError.

Inductive fresult (A : Type) :=
| FOk (a : A)
| FRaise (e : fexn).
Arguments FOk {A} a.
Arguments FRaise {A} e.

#[global] Instance fresult_ret : MRet fresult := fun _ a => FOk a.
#[global] Instance fresult_bind : MBind fresult := fun _ _ f r =>
  match r with
  | FOk a => f a
  | FRaise e => FRaise e
  end.

Definition plain {A : Type} (r : result A) : fresult A :=
  match r with
  | Ok a => FOk a
  | Raise e => FRaise (Plain e)
  end.

Definition py_float (z : Z) : fresult float :=
  let f := SF2Prim (binary_normalize prec emax z 0 false) in
  if is_infinity f then FRaise OverflowError else FOk f.

(** [min(a, b)] *)
Definition py_min (a b : float) : float := if (b <? a)%float then b else a.

(** [features[c][j] = v] *)
Definition set_feature (features : list (list float)) (c j : Z) (v : float)
    : result (list (list float)) :=
  row ← py_item features c;
  row ← py_setitem row j v;
  py_setitem features c row.

(** [for i in range(9): features[0][i + 9] = float(s.pits[WHITE][i]);
    features[1][i] = float(s.pits[BLACK][i])] *)
Fixpoint encode_pits (s : TogyzKumalakState) (todo : list Z)
    (features : list (list float)) : fresult (list (list float)) :=
  match todo with
  | [] => mret features
  | i :: todo' =>
      w ← plain (py_get (sel WHITE (pits s)) i);
      w ← py_float w;
      features ← plain (set_feature features 0 (i + 9) w);
      b ← plain (py_get (sel BLACK (pits s)) i);
      b ← py_float b;
      features ← plain (set_feature features 1 i b);
      encode_pits s todo' features
  end.

(** [for j in range(18): features[4][j] = mover_k; features[5][j] = opp_k;
    features[6][j] = min(1.0, s.move_number / 400.0)] *)
Fixpoint encode_scalars (s : TogyzKumalakState) (mover_k opp_k : float) (todo : list Z)
    (features : list (list float)) : fresult (list (list float)) :=
  match todo with
  | [] => mret features
  | j :: todo' =>
      features ← plain (set_feature features 4 j mover_k);
      features ← plain (set_feature features 5 j opp_k);
      mv ← py_float (move_number s);
      features ← plain (set_feature features 6 j (py_min 1 (mv / 400)));
      encode_scalars s mover_k opp_k todo' features
  end.

Definition py_range (n : nat) : list Z := map Z.of_nat (seq 0 n).

Definition encode_features (state : TogyzKumalakState) : fresult (list (list float)) :=
  let s := canonicalize state in
  let mover := player_to_move s in
  if decide (mover = WHITE) then
    let features := replicate 7 (replicate 18 0%float) in
    features ← encode_pits s (py_range 9) features;
    features ←
      match sel WHITE (tuzdyk_indices s) with
      | Some t => plain (set_feature features 2 t 1)
      | None => mret features
      end;
    features ←
      match sel BLACK (tuzdyk_indices s) with
      | Some t => plain (set_feature features 3 (9 + t) 1)
      | None => mret features
      end;
    let total_stones := 162%float in
    w ← py_float (sel WHITE (kazans s));
    let mover_k := (w / total_stones)%float in
    b ← py_float (sel BLACK (kazans s));
    let opp_k := (b / total_stones)%float in
    encode_scalars s mover_k opp_k (py_range 18) features
  else FRaise (Plain AssertionError).

Example encode_initial :
  encode_features initial
  = FOk [ replicate 9 0 ++ replicate 9 9;
          replicate 9 9 ++ replicate 9 0;
          replicate 18 0; replicate 18 0; replicate 18 0; replicate 18 0;
          replicate 18 (1 / 400) ]%float.
Proof. vm_compute. reflexivity. Qed.

(** ** The shape of the features *)

Definition feature_shaped (features : list (list float)) : Prop :=
  length features = 7%nat ∧ Forall (fun row => length row = 18%nat) features.

Lemma py_item_lookup {A} (l : list A) i x : py_item l i = Ok x → x ∈ l.
Proof.
  unfold py_item. destruct (py_index _ _) as [k|]; [|done].
  destruct (l !! k) eqn:E; [|done]. intros [= <-]. by eapply list_elem_of_lookup_2.
Qed.

Lemma set_feature_shaped features c j v features' :
  feature_shaped features → set_feature features c j v = Ok features' →
  feature_shaped features'.
Proof.
  intros [Hlen Hrows]. unfold set_feature.
  destruct (py_item features c) as [row|] eqn:Hrow; simpl; [|done].
  destruct (py_setitem row j v) as [row'|] eqn:Hrow'; simpl; [|done].
  intros Hset. split.
  - by rewrite (py_setitem_length _ _ _ _ Hset).
  - revert Hset. unfold py_setitem. destruct (py_index _ _); [|done]. intros [= <-].
    apply Forall_insert; [done|]. rewrite (py_setitem_length _ _ _ _ Hrow').
    rewrite Forall_forall in Hrows. by apply Hrows, (py_item_lookup _ c).
Qed.

Lemma plain_ok_inv {A} (r : result A) a : plain r = FOk a → r = Ok a.
Proof. destruct r; [|done]. by intros [= ->]. Qed.

Lemma encode_pits_shaped s todo : ∀ features features',
  feature_shaped features → encode_pits s todo features = FOk features' →
  feature_shaped features'.
Proof.
  induction todo as [|i todo IH]; intros features features' Hsh; simpl.
  - by intros [= <-].
  - destruct (py_get (pits s).1 i) as [w|]; simpl; [|done].
    destruct (py_float w) as [fw|]; simpl; [|done].
    destruct (set_feature features 0 _ _) as [f1|] eqn:H1; simpl; [|done].
    destruct (py_get (pits s).2 i) as [b|]; simpl; [|done].
    destruct (py_float b) as [fb|]; simpl; [|done].
    destruct (set_feature f1 1 _ _) as [f2|] eqn:H2; simpl; [|done].
    apply IH. eauto using set_feature_shaped.
Qed.

Lemma encode_scalars_shaped s mk ok todo : ∀ features features',
  feature_shaped features → encode_scalars s mk ok todo features = FOk features' →
  feature_shaped features'.
Proof.
  induction todo as [|j todo IH]; intros features features' Hsh; simpl.
  - by intros [= <-].
  - destruct (set_feature features 4 _ _) as [f1|] eqn:H1; simpl; [|done].
    destruct (set_feature f1 5 _ _) as [f2|] eqn:H2; simpl; [|done].
    destruct (py_float _) as [mv|]; simpl; [|done].
    destruct (set_feature f2 6 _ _) as [f3|] eqn:H3; simpl; [|done].
    apply IH. eauto using set_feature_shaped.
Qed.

Lemma encode_features_shaped s features :
  encode_features s = FOk features → feature_shaped features.
Proof.
  unfold encode_features. generalize (py_range 9) (py_range 18). intros l9 l18.
  destruct (decide _); [|done].
  destruct (encode_pits _ _ _) as [f1|] eqn:H1; simpl; [|done].
  apply encode_pits_shaped in H1; [|split; [done|by repeat constructor]].
  set (tw := sel WHITE (tuzdyk_indices (canonicalize s))).
  set (tb := sel BLACK (tuzdyk_indices (canonicalize s))).
  assert (∀ (t : option Z) c (g : Z → Z) f f',
            feature_shaped f →
            match t with
            | Some t => plain (set_feature f c (g t) 1)
            | None => mret f
            end = FOk f' → feature_shaped f') as Htuz.
  { intros [t|] c g f f' Hf; [|by intros [= <-]].
    intros H%plain_ok_inv. by eapply set_feature_shaped. }
  destruct (match tw with Some _ => _ | None => _ end) as [f2|] eqn:H2; [|done].
  apply (Htuz tw 2 (fun t => t)) in H2; simpl; [|done].
  destruct (match tb with Some _ => _ | None => _ end) as [f3|] eqn:H3; [|done].
  apply (Htuz tb 3 (fun t => 9 + t)) in H3; simpl; [|done].
  destruct (py_float (kazans (canonicalize s)).1) as [w|]; simpl; [|done].
  destruct (py_float (kazans (canonicalize s)).2) as [b|]; simpl; [|done].
  by apply encode_scalars_shaped.
Qed.

Lemma encode_features_mirror s : encode_features (mirror_state s) = encode_features s.
Proof. unfold encode_features. by rewrite canonicalize_mirror. Qed.

Lemma py_item_raises {A} (l : list A) i e : py_item l i = Raise e → e = IndexError.
Proof.
  unfold py_item. destruct (py_index _ _) as [k|]; [|by intros [= <-]].
  destruct (l !! k); [done|by intros [= <-]].
Qed.

Lemma py_setitem_raises {A} (l : list A) i v e :
  py_setitem l i v = Raise e → e = IndexError.
Proof. unfold py_setitem. destruct (py_index _ _); [done|by intros [= <-]]. Qed.

Lemma set_feature_raises f c j v :
  (∃ f', set_feature f c j v = Ok f') ∨ set_feature f c j v = Raise IndexError.
Proof.
  unfold set_feature. destruct (py_item f c) as [row|e] eqn:E1; simpl.
  2:{ right. by rewrite (py_item_raises _ _ _ E1). }
  destruct (py_setitem row j v) as [row'|e] eqn:E2; simpl.
  2:{ right. by rewrite (py_setitem_raises _ _ _ _ E2). }
  destruct (py_setitem f c row') as [f'|e] eqn:E3; [by eauto|].
  right. by rewrite (py_setitem_raises _ _ _ _ E3).
Qed.

Lemma fbind_no_assertion {A B} (m : fresult A) (f : A → fresult B) :
  m ≠ FRaise (Plain AssertionError) → (∀ a, f a ≠ FRaise (Plain AssertionError)) →
  m ≫= f ≠ FRaise (Plain AssertionError).
Proof.
  intros Hm Hf. destruct m as [a|e]; [apply Hf|]. simpl. intros [= ->]. by apply Hm.
Qed.

Lemma set_feature_no_assertion f c j v :
  plain (set_feature f c j v) ≠ FRaise (Plain AssertionError).
Proof. by destruct (set_feature_raises f c j v) as [[f' ->]| ->]. Qed.

Lemma py_get_no_assertion l i : plain (py_get l i) ≠ FRaise (Plain AssertionError).
Proof. unfold py_get. destruct (py_index _ _); [|done]. by destruct (_ !! _). Qed.

Lemma py_float_no_assertion z : py_float z ≠ FRaise (Plain AssertionError).
Proof. unfold py_float. by destruct (is_infinity _). Qed.

Lemma encode_pits_no_assertion s todo : ∀ f,
  encode_pits s todo f ≠ FRaise (Plain AssertionError).
Proof.
  induction todo as [|i todo IH]; intros f; [done|]. cbn [encode_pits].
  apply fbind_no_assertion; [apply py_get_no_assertion|intros w].
  apply fbind_no_assertion; [apply py_float_no_assertion|intros fw].
  apply fbind_no_assertion; [apply set_feature_no_assertion|intros f1].
  apply fbind_no_assertion; [apply py_get_no_assertion|intros b].
  apply fbind_no_assertion; [apply py_float_no_assertion|intros fb].
  apply fbind_no_assertion; [apply set_feature_no_assertion|intros f2]. apply IH.
Qed.

Lemma encode_scalars_no_assertion s mk ok todo : ∀ f,
  encode_scalars s mk ok todo f ≠ FRaise (Plain AssertionError).
Proof.
  induction todo as [|j todo IH]; intros f; [done|]. cbn [encode_scalars].
  apply fbind_no_assertion; [apply set_feature_no_assertion|intros f1].
  apply fbind_no_assertion; [apply set_feature_no_assertion|intros f2].
  apply fbind_no_assertion; [apply py_float_no_assertion|intros mv].
  apply fbind_no_assertion; [apply set_feature_no_assertion|intros f3]. apply IH.
Qed.

Lemma encode_features_assertion s : encode_features s ≠ FRaise (Plain AssertionError).
Proof.
  unfold encode_features. rewrite decide_True by apply canonicalize_mover.
  apply fbind_no_assertion; [apply encode_pits_no_assertion|intros f1].
  apply fbind_no_assertion; [|intros f2].
  { destruct (sel WHITE _); [apply set_feature_no_assertion|done]. }
  apply fbind_no_assertion; [|intros f3].
  { destruct (sel BLACK _); [apply set_feature_no_assertion|done]. }
  apply fbind_no_assertion; [apply py_float_no_assertion|intros w].
  apply fbind_no_assertion; [apply py_float_no_assertion|intros b].
  apply encode_scalars_no_assertion.
Qed.

(** ** The features of a state within range *)

Lemma set_feature_in_range features c j v :
  feature_shaped features → 0 <= c < 7 → 0 <= j < 18 →
  set_feature features c j v
  = Ok (<[Z.to_nat c := <[Z.to_nat j := v]> (features !!! Z.to_nat c)]> features).
Proof.
  intros [Hlen Hrows] Hc Hj. unfold set_feature.
  destruct (py_item_in_range features c) as (row & -> & Hrow); [lia|]. simpl.
  rewrite (list_lookup_total_correct _ _ _ Hrow).
  rewrite py_setitem_in_range.
  2:{ rewrite Forall_forall in Hrows. rewrite (Hrows row); [lia|].
      by eapply list_elem_of_lookup_2. }
  simpl. apply py_setitem_in_range. lia.
Qed.

Lemma set_feature_in_range_shaped features c j v :
  feature_shaped features →
  feature_shaped (<[Z.to_nat c := <[Z.to_nat j := v]> (features !!! Z.to_nat c)]> features).
Proof.
  intros [Hlen Hrows]. split; [by rewrite length_insert|].
  destruct (features !! Z.to_nat c) as [row|] eqn:Hrow.
  - apply Forall_insert; [done|]. rewrite length_insert.
    rewrite (list_lookup_total_correct _ _ _ Hrow).
    rewrite Forall_forall in Hrows. apply Hrows. by eapply list_elem_of_lookup_2.
  - rewrite list_insert_ge; [done|]. by apply lookup_ge_None.
Qed.

Definition pits_step (gw gb : Z → float) (features : list (list float)) (i : Z)
    : list (list float) :=
  let features := <[0%nat := <[Z.to_nat (i + 9) := gw i]> (features !!! 0%nat)]> features in
  <[1%nat := <[Z.to_nat i := gb i]> (features !!! 1%nat)]> features.

Lemma encode_pits_fold s gw gb todo : ∀ features,
  feature_shaped features →
  Forall (fun i => 0 <= i < 9
                   ∧ ∃ w b, py_get (sel WHITE (pits s)) i = Ok w ∧ py_float w = FOk (gw i)
                            ∧ py_get (sel BLACK (pits s)) i = Ok b
                            ∧ py_float b = FOk (gb i)) todo →
  encode_pits s todo features = FOk (foldl (pits_step gw gb) features todo).
Proof.
  induction todo as [|i todo IH]; intros features Hsh Hall; [done|].
  inversion Hall as [|? ? (Hi & w & b & Hw & Hfw & Hb & Hfb) Hrest]; subst.
  cbn [encode_pits foldl]. rewrite Hw. cbn [plain mbind fresult_bind]. rewrite Hfw.
  cbn [mbind fresult_bind]. rewrite set_feature_in_range by (done || lia).
  cbn [plain mbind fresult_bind]. rewrite Hb. cbn [plain mbind fresult_bind].
  rewrite Hfb. cbn [mbind fresult_bind].
  rewrite set_feature_in_range;
    [|by apply (set_feature_in_range_shaped _ 0)|lia..].
  cbn [plain mbind fresult_bind]. apply IH; [|done].
  apply (set_feature_in_range_shaped _ 1), (set_feature_in_range_shaped _ 0), Hsh.
Qed.

Definition scalars_step (mover_k opp_k phase : float) (features : list (list float))
    (j : Z) : list (list float) :=
  let features := <[4%nat := <[Z.to_nat j := mover_k]> (features !!! 4%nat)]> features in
  let features := <[5%nat := <[Z.to_nat j := opp_k]> (features !!! 5%nat)]> features in
  <[6%nat := <[Z.to_nat j := phase]> (features !!! 6%nat)]> features.

Lemma encode_scalars_fold s mover_k opp_k mv todo : ∀ features,
  feature_shaped features → py_float (move_number s) = FOk mv →
  Forall (fun j => 0 <= j < 18) todo →
  encode_scalars s mover_k opp_k todo features
  = FOk (foldl (scalars_step mover_k opp_k (py_min 1 (mv / 400))) features todo).
Proof.
  intros features Hsh Hmv Hall. revert features Hsh.
  induction Hall as [|j todo Hj _ IH]; intros features Hsh; [done|].
  cbn [encode_scalars foldl]. rewrite set_feature_in_range by (done || lia).
  cbn [plain mbind fresult_bind].
  rewrite set_feature_in_range; [|by apply (set_feature_in_range_shaped _ 4)|lia..].
  cbn [plain mbind fresult_bind]. rewrite Hmv. cbn [mbind fresult_bind].
  rewrite set_feature_in_range;
    [|by apply (set_feature_in_range_shaped _ 5), (set_feature_in_range_shaped _ 4)|lia..].
  cbn [plain mbind fresult_bind]. apply IH.
  apply (set_feature_in_range_shaped _ 6), (set_feature_in_range_shaped _ 5),
    (set_feature_in_range_shaped _ 4), Hsh.
Qed.

(** The row of a tuzdyk: a 1 at its column, if there is one. *)
Definition one_hot (column : option Z) : list float :=
  match column with
  | Some j => <[Z.to_nat j := 1%float]> (replicate 18 0%float)
  | None => replicate 18 0%float
  end.

Lemma one_hot_length column : length (one_hot column) = 18%nat.
Proof. destruct column; [apply length_insert|done]. Qed.

Lemma Forall2_take_lookup (P : Z → float → Prop) (l : list Z) (fl : list float) (i : Z) :
  Forall2 P (take 9 l) fl → length fl = 9%nat → 0 <= i < 9 →
  ∃ w, py_get l i = Ok w ∧ P w (default 0%float (fl !! Z.to_nat i)).
Proof.
  intros HP Hlen Hi.
  destruct (lookup_lt_is_Some_2 fl (Z.to_nat i)) as [f Hf]; [lia|].
  destruct (Forall2_lookup_r _ _ _ _ _ HP Hf) as (w & Hw & HPw).
  apply lookup_take_Some in Hw as [Hw _]. exists w. rewrite Hf. split; [|done].
  pose proof (lookup_lt_Some _ _ _ Hw).
  unfold py_get. rewrite py_index_in_range by lia. by rewrite Hw.
Qed.

Lemma encode_features_value s fw fb kw kb mv :
  let c := canonicalize s in
  Forall2 (fun z f => py_float z = FOk f) (take 9 (fst (pits c))) fw → length fw = 9%nat →
  Forall2 (fun z f => py_float z = FOk f) (take 9 (snd (pits c))) fb → length fb = 9%nat →
  (∀ t, fst (tuzdyk_indices c) = Some t → 0 <= t <= 8) →
  (∀ t, snd (tuzdyk_indices c) = Some t → 0 <= t <= 8) →
  py_float (fst (kazans c)) = FOk kw → py_float (snd (kazans c)) = FOk kb →
  py_float (move_number c) = FOk mv →
  encode_features s
  = FOk [ replicate 9 0%float ++ fw;
          fb ++ replicate 9 0%float;
          one_hot (fst (tuzdyk_indices c));
          one_hot (Z.add 9 <$> snd (tuzdyk_indices c));
          replicate 18 (kw / 162)%float;
          replicate 18 (kb / 162)%float;
          replicate 18 (py_min 1 (mv / 400)) ].
Proof.
  intros c Hfw Hlw Hfb Hlb Htw Htb Hkw Hkb Hmv. unfold encode_features. fold c.
  rewrite decide_True by apply canonicalize_mover.
  set (gw i := default 0%float (fw !! Z.to_nat i)).
  set (gb i := default 0%float (fb !! Z.to_nat i)).
  assert (Hstart : feature_shaped (replicate 7 (replicate 18 0%float)))
    by (split; [done|by repeat constructor]).
  rewrite (encode_pits_fold c gw gb); [|done|].
  2:{ apply Forall_forall. intros i Hi. assert (0 <= i < 9) as Hrange.
      { unfold py_range in Hi. apply list_elem_of_fmap in Hi as (k & -> & Hk).
        apply elem_of_seq in Hk. lia. }
      split; [done|].
      destruct (Forall2_take_lookup _ _ _ i Hfw Hlw Hrange) as (w & Hw & Hw').
      destruct (Forall2_take_lookup _ _ _ i Hfb Hlb Hrange) as (b & Hb & Hb').
      exists w, b. by repeat split. }
  cbn [mbind fresult_bind].
  destruct fw as [|w0 [|w1 [|w2 [|w3 [|w4 [|w5 [|w6 [|w7 [|w8 [|]]]]]]]]]]; try done.
  destruct fb as [|b0 [|b1 [|b2 [|b3 [|b4 [|b5 [|b6 [|b7 [|b8 [|]]]]]]]]]]; try done.
  set (f1 := foldl (pits_step gw gb) _ _).
  assert (Hf1 : f1 = [ replicate 9 0%float ++ [w0; w1; w2; w3; w4; w5; w6; w7; w8];
                       [b0; b1; b2; b3; b4; b5; b6; b7; b8] ++ replicate 9 0%float;
                       replicate 18 0%float; replicate 18 0%float; replicate 18 0%float;
                       replicate 18 0%float; replicate 18 0%float ]) by reflexivity.
  clearbody f1. subst f1. clear gw gb Hfw Hfb Hlw Hlb.
  set (f2 := [_; _; _; _; _; _; _]).
  assert (Hf2 : feature_shaped f2) by (split; [done|by repeat constructor]).
  set (tw := sel WHITE (tuzdyk_indices c)).
  set (tb := sel BLACK (tuzdyk_indices c)).
  set (f3 := <[2%nat := one_hot tw]> f2).
  assert (Hstep3 : match tw with
                   | Some t => plain (set_feature f2 2 t 1)
                   | None => mret f2
                   end = FOk f3).
  { subst f3. destruct tw as [t|] eqn:E; [|done].
    rewrite set_feature_in_range by (done || lia || (apply Htw in E; lia)). done. }
  rewrite Hstep3. cbn [mbind fresult_bind].
  assert (Hf3 : feature_shaped f3).
  { split; [done|]. apply Forall_insert; [apply Hf2|apply one_hot_length]. }
  set (f4 := <[3%nat := one_hot (Z.add 9 <$> tb)]> f3).
  assert (Hstep4 : match tb with
                   | Some t => plain (set_feature f3 3 (9 + t) 1)
                   | None => mret f3
                   end = FOk f4).
  { subst f4. destruct tb as [t|] eqn:E; [|done].
    rewrite set_feature_in_range by (done || lia || (apply Htb in E; lia)). done. }
  rewrite Hstep4. cbn [mbind fresult_bind].
  assert (Hf4 : feature_shaped f4).
  { split; [done|]. apply Forall_insert; [apply Hf3|apply one_hot_length]. }
  fold (sel WHITE (kazans c)) in Hkw. fold (sel BLACK (kazans c)) in Hkb.
  rewrite Hkw. cbn [mbind fresult_bind]. rewrite Hkb. cbn [mbind fresult_bind].
  rewrite (encode_scalars_fold c _ _ mv); [|done|done|].
  2:{ apply Forall_forall. intros j Hj. unfold py_range in Hj.
      apply list_elem_of_fmap in Hj as (k & -> & Hk). apply elem_of_seq in Hk. lia. }
  reflexivity.
Qed.

(** * The callers of the search ([src/agent.py], [src/arena/eval.py])

    [max(legal, key=lambda a: pi[a])] keeps the first item whose key no
    later item exceeds.  The network behind [net.infer] is a function from
    states to a policy and a value, as [inference_fn] is for the engine; the
    loading of a checkpoint is left to [load_model]. *)

Fixpoint max_loop (key : Z → result float) (l : list Z) (maxitem : Z) (maxval : float)
    : result Z :=
  match l with
  | [] => Ok maxitem
  | item :: l' =>
      val ← key item;
      if (maxval <? val)%float then max_loop key l' item val
      else max_loop key l' maxitem maxval
  end.

Definition py_max (key : Z → result float) (l : list Z) : result Z :=
  match l with
  | [] => Raise ValueError
  | item :: l' => val ← key item; max_loop key l' item val
  end.

Module ArenaConfig.
Record t := mk {
  simulations : Z;
  c_puct : float;
  dirichlet_alpha : float;
  dirichlet_frac : float;
  games : Z
}.
End ArenaConfig.

(** [choose_move] runs one search, which draws one sample of noise:
    [_dirichlet] is that sample.  [fuel] bounds the length of a simulation;
    [None] stands for a run that ends for lack of fuel. *)
Definition choose_move (load_model : option string → TogyzKumalakState → list float * float)
    (_dirichlet : nat → float → list float) (fuel : nat)
    (fen : string) (ckpt_path : option string) (simulations : Z) : option (result Z) :=
  match deserialize_fen fen with
  | Raise e => Some (Raise e)
  | Ok state =>
      let net := load_model ckpt_path in
      (* dirichlet_alpha = 0.3, the binary64 number 0x1.3333333333333p-2 *)
      let mcts := __init__ net 1.5 0x1.3333333333333p-2 0.25 simulations in
      match search _dirichlet fuel state mcts with
      | OutOfFuel _ => None
      | Raises e _ => Some (Raise e)
      | Returns pi _ =>
          let legal := legal_moves state in
          if bool_decide (legal = []) then Some (Ok (-1))
          else Some (py_max (fun a => py_item pi a) legal)
      end
  end.

(** The loop of [play_game]: the state the game ends in.  [moves] bounds the
    number of moves, and each search draws a sample of its own:
    [_dirichlet m] is the sample of the search with [m] moves left. *)
Fixpoint play_loop (_dirichlet : nat → nat → float → list float) (fuel moves : nat)
    (state : TogyzKumalakState) (mcts_w mcts_b : MCTS)
    : option (result TogyzKumalakState) :=
  match moves with
  | O => None
  | S moves' =>
      if is_terminal state then Some (Ok state)
      else
        let white := bool_decide (player_to_move state = WHITE) in
        match search (_dirichlet moves') fuel state (if white then mcts_w else mcts_b) with
        | OutOfFuel _ => None
        | Raises e _ => Some (Raise e)
        | Returns pi mcts =>
            let mcts_w := if white then mcts else mcts_w in
            let mcts_b := if white then mcts_b else mcts in
            let legal := legal_moves state in
            if bool_decide (legal = []) then Some (Ok state)
            else
              match py_max (fun a => py_item pi a) legal with
              | Raise e => Some (Raise e)
              | Ok action =>
                  match apply_move state action with
                  | Raise e => Some (Raise e)
                  | Ok state => play_loop _dirichlet fuel moves' state mcts_w mcts_b
                  end
              end
        end
  end.

Definition play_game (_dirichlet : nat → nat → float → list float) (fuel moves : nat)
    (model_white model_black : TogyzKumalakState → list float * float)
    (cfg : ArenaConfig.t) : option (result Z) :=
  let mcts_w := __init__ model_white (ArenaConfig.c_puct cfg)
                         (ArenaConfig.dirichlet_alpha cfg) (ArenaConfig.dirichlet_frac cfg)
                         (ArenaConfig.simulations cfg) in
  let mcts_b := __init__ model_black (ArenaConfig.c_puct cfg)
                         (ArenaConfig.dirichlet_alpha cfg) (ArenaConfig.dirichlet_frac cfg)
                         (ArenaConfig.simulations cfg) in
  match play_loop _dirichlet fuel moves initial mcts_w mcts_b with
  | None => None
  | Some (Raise e) => Some (Raise e)
  | Some (Ok state) =>
      match outcome state with
      | None => Some (Ok 0)
      | Some winner => Some (Ok (if decide (winner = WHITE) then 1 else -1))
      end
  end.

(** The loop of [arena] over the games [todo], with the counts so far;
    [_dirichlet i] holds the samples of game [i]. *)
Fixpoint arena_loop (_dirichlet : Z → nat → nat → float → list float) (fuel moves : nat)
    (model_new model_ref : TogyzKumalakState → list float * float)
    (cfg : ArenaConfig.t) (todo : list Z) (wins draws losses : Z)
    : option (result (Z * Z * Z)) :=
  match todo with
  | [] => Some (Ok (wins, draws, losses))
  | i :: todo' =>
      let played :=
        if i mod 2 =? 0
        then play_game (_dirichlet i) fuel moves model_new model_ref cfg
        else (fun r : result Z => Z.opp <$> r)
               <$> play_game (_dirichlet i) fuel moves model_ref model_new cfg in
      match played with
      | None => None
      | Some (Raise e) => Some (Raise e)
      | Some (Ok res) =>
          if 0 <? res
          then arena_loop _dirichlet fuel moves model_new model_ref cfg todo'
                          (wins + 1) draws losses
          else if res <? 0
          then arena_loop _dirichlet fuel moves model_new model_ref cfg todo'
                          wins draws (losses + 1)
          else arena_loop _dirichlet fuel moves model_new model_ref cfg todo'
                          wins (draws + 1) losses
      end
  end.

(** [range(n)] for an integer [n] *)
Definition py_range_z (n : Z) : list Z := map Z.of_nat (seq 0 (Z.to_nat n)).

Definition arena (_dirichlet : Z → nat → nat → float → list float) (fuel moves : nat)
    (model_new model_ref : TogyzKumalakState → list float * float)
    (cfg : ArenaConfig.t) : option (fresult (Z * Z * Z * float)) :=
  match arena_loop _dirichlet fuel moves model_new model_ref cfg
                   (py_range_z (ArenaConfig.games cfg)) 0 0 0 with
  | None => None
  | Some (Raise e) => Some (FRaise (Plain e))
  | Some (Ok (wins, draws, losses)) =>
      Some (d ← py_float draws;
            w ← py_float wins;
            g ← py_float (Z.max 1 (ArenaConfig.games cfg));
            let win_rate := ((w + 0.5 * d) / g)%float in
            mret (wins, draws, losses, win_rate))
  end.


(** ** The greedy choice *)

Lemma max_loop_in key l : ∀ m v a, max_loop key l m v = Ok a → a = m ∨ In a l.
Proof.
  induction l as [|item l IH]; intros m v a; simpl.
  - intros [= <-]. by left.
  - destruct (key item) as [val|]; [|done]. simpl.
    destruct (v <? val)%float; intros [->|Hin]%IH; auto.
Qed.

Lemma py_max_in key l a : py_max key l = Ok a → In a l.
Proof.
  destruct l as [|item l]; [done|]. simpl.
  destruct (key item) as [val|]; [|done]. simpl. intros [->|Hin]%max_loop_in; auto.
Qed.

Lemma max_loop_max key l : ∀ m v a,
  key m = Ok v → is_nan v = false →
  (∀ b vb, In b l → key b = Ok vb → is_nan vb = false) →
  max_loop key l m v = Ok a →
  ∃ va, key a = Ok va ∧ (va <? v)%float = false
        ∧ ∀ b vb, In b l → key b = Ok vb → (va <? vb)%float = false.
Proof.
  induction l as [|item l IH]; intros m v a Hm Hv Hnan; simpl.
  - intros [= <-]. exists v. split; [done|]. split; [apply float_ltb_irrefl|done].
  - destruct (key item) as [val|] eqn:Hitem; [|done]. simpl.
    assert (Hval : is_nan val = false) by (eapply Hnan; [by left|done]).
    assert (Hrest : ∀ b vb, In b l → key b = Ok vb → is_nan vb = false).
    { intros b vb Hb. apply Hnan. by right. }
    destruct (v <? val)%float eqn:Hlt.
    + intros (va & Ha & Hge & Hall)%IH; [|done..]. exists va. split; [done|]. split.
      * destruct (va <? v)%float eqn:E; [|done].
        by rewrite (float_ltb_trans _ _ _ E Hlt) in Hge.
      * intros b vb [<-|Hb] Hkb; [|by eapply Hall]. congruence.
    + intros (va & Ha & Hge & Hall)%IH; [|done..]. exists va. split; [done|].
      split; [done|]. intros b vb [<-|Hb] Hkb; [|by eapply Hall].
      rewrite Hitem in Hkb. injection Hkb as <-.
      by apply (float_ltb_neg_trans va v val).
Qed.

Lemma py_max_max key l a :
  (∀ b vb, In b l → key b = Ok vb → is_nan vb = false) →
  py_max key l = Ok a →
  ∃ va, key a = Ok va ∧ ∀ b vb, In b l → key b = Ok vb → (va <? vb)%float = false.
Proof.
  destruct l as [|item l]; [done|]. intros Hnan. simpl.
  destruct (key item) as [val|] eqn:Hitem; [|done]. simpl.
  intros (va & Ha & Hge & Hall)%max_loop_max; [|done| |].
  - exists va. split; [done|]. intros b vb [<-|Hb] Hkb; [|by eapply Hall]. congruence.
  - eapply Hnan; [by left|done].
  - intros b vb Hb. apply Hnan. by right.
Qed.

Lemma choose_move_cases load_model noise fuel fen ckpt simulations a :
  choose_move load_model noise fuel fen ckpt simulations = Some (Ok a) →
  ∃ state pi,
    deserialize_fen fen = Ok state
    ∧ returned (search noise fuel state (__init__ (load_model ckpt) 1.5 0x1.3333333333333p-2 0.25 simulations))
      = Some pi
    ∧ length pi = 9%nat
    ∧ ((legal_moves state = [] ∧ a = -1)
       ∨ (In a (legal_moves state)
          ∧ ∃ pa, py_item pi a = Ok pa
                  ∧ (Forall (fun x => is_nan x = false) pi →
                     ∀ b pb, In b (legal_moves state) → py_item pi b = Ok pb →
                             (pa <? pb)%float = false))).
Proof.
  unfold choose_move. destruct (deserialize_fen fen) as [state|]; [|done].
  destruct (search _ _ _ _) as [pi self'| |] eqn:Hsearch; [|done..].
  intros H. exists state, pi. split; [done|]. split; [by rewrite Hsearch|].
  split; [by eapply search_length|].
  case_bool_decide as Hlegal.
  - left. split; [done|]. by injection H as <-.
  - right. injection H as H. split; [by eapply py_max_in|].
    assert (∃ pa, py_item pi a = Ok pa) as [pa Hpa].
    { revert H. clear. generalize (legal_moves state). intros l.
      assert (∀ l m v, py_item pi m = Ok v → max_loop (λ a, py_item pi a) l m v = Ok a →
                       ∃ pa, py_item pi a = Ok pa) as Hloop.
      { clear. induction l as [|item l IH]; intros m v Hm; simpl.
        - intros [= <-]. eauto.
        - destruct (py_item pi item) as [val|] eqn:E; [|done]. simpl.
          destruct (v <? val)%float; eauto. }
      destruct l as [|item l]; [done|]. simpl.
      destruct (py_item pi item) as [val|] eqn:E; [|done]. simpl. eauto. }
    exists pa. split; [done|]. intros Hnan b pb Hb Hpb.
    destruct (py_max_max (λ a, py_item pi a) (legal_moves state) a) as (va & Hva & Hall);
      [|done|].
    + intros b' vb' _ Hb'. rewrite Forall_forall in Hnan. apply Hnan.
      by eapply py_item_lookup.
    + rewrite Hpa in Hva. injection Hva as <-. by eapply Hall.
Qed.

(** ** A game of the arena *)

Lemma play_loop_end noise fuel moves : ∀ state mcts_w mcts_b final,
  reachable state →
  play_loop noise fuel moves state mcts_w mcts_b = Some (Ok final) →
  reachable final ∧ is_terminal final = true.
Proof.
  induction moves as [|moves IH]; intros state mcts_w mcts_b final Hreach; [done|].
  cbn [play_loop]. destruct (is_terminal state) eqn:Hterm.
  { by intros [= <-]. }
  destruct (search _ _ _ _) as [pi mcts| |]; [|done..].
  case_bool_decide as Hlegal.
  { exfalso. assert (has_legal_move state = true) as Hm%has_legal_move_spec; [|done].
    unfold is_terminal in Hterm. destruct (_ || _); [done|].
    by destruct (has_legal_move state). }
  destruct (py_max _ _) as [action|] eqn:Hmax; [|done].
  destruct (apply_move state action) as [state'|] eqn:Hmove; [|done].
  apply IH. eapply reachable_move; [done| |done]. by eapply py_max_in.
Qed.

Lemma reachable_draw s :
  reachable s → is_terminal s = true →
  fst (final_scores s) = snd (final_scores s) → final_scores s = (81, 81).
Proof.
  intros Hreach Hterm Heq.
  assert (Hout : outcome s = None).
  { unfold outcome. rewrite Hterm. simpl. destruct (final_scores s) as [w b].
    simpl in Heq. subst. by rewrite Z.ltb_irrefl. }
  destruct (reachable_end s Hreach) as (Hw & Hb & Hrest).
  destruct (Z.le_gt_cases 82 (fst (kazans s))) as [H|H1]; [rewrite Hw in Hout; done|].
  destruct (Z.le_gt_cases 82 (snd (kazans s))) as [H|H2]; [rewrite Hb in Hout; done|].
  destruct Hrest as (_ & _ & Hdraw); [done|lia..|]. by apply Hdraw.
Qed.

Lemma play_game_result noise fuel moves model_white model_black cfg r :
  play_game noise fuel moves model_white model_black cfg = Some (Ok r) →
  ∃ final,
    play_loop noise fuel moves initial
      (__init__ model_white (ArenaConfig.c_puct cfg) (ArenaConfig.dirichlet_alpha cfg)
                (ArenaConfig.dirichlet_frac cfg) (ArenaConfig.simulations cfg))
      (__init__ model_black (ArenaConfig.c_puct cfg) (ArenaConfig.dirichlet_alpha cfg)
                (ArenaConfig.dirichlet_frac cfg) (ArenaConfig.simulations cfg))
    = Some (Ok final)
    ∧ reachable final ∧ is_terminal final = true
    ∧ (r = 1 ∧ snd (final_scores final) < fst (final_scores final)
       ∨ r = -1 ∧ fst (final_scores final) < snd (final_scores final)
       ∨ r = 0 ∧ final_scores final = (81, 81)).
Proof.
  unfold play_game. destruct (play_loop _ _ _ _ _ _) as [[final|]|] eqn:Hloop; [|done..].
  pose proof Hloop as Hloop'.
  apply play_loop_end in Hloop as [Hreach Hterm]; [|apply reachable_initial].
  intros H. exists final. split; [done|]. split; [done|]. split; [done|].
  pose proof (reachable_draw final Hreach Hterm) as Hdraw.
  revert H. unfold outcome. rewrite Hterm. simpl.
  destruct (final_scores final) as [w b]. simpl in *.
  destruct (Z.ltb_spec b w); [intros [= <-]; auto|].
  destruct (Z.ltb_spec w b); [intros [= <-]; auto|].
  intros [= <-]. right. right. split; [done|]. apply Hdraw. lia.
Qed.


(** ** The tally of the arena *)

Lemma arena_loop_tally noise fuel moves model_new model_ref cfg todo :
  ∀ wins draws losses w d l,
  arena_loop noise fuel moves model_new model_ref cfg todo wins draws losses
  = Some (Ok (w, d, l)) →
  w + d + l = wins + draws + losses + Z.of_nat (length todo)
  ∧ wins <= w ∧ draws <= d ∧ losses <= l.
Proof.
  induction todo as [|i todo IH]; intros wins draws losses w d l; cbn [arena_loop].
  - intros [= <- <- <-]. simpl. lia.
  - destruct (if i mod 2 =? 0 then _ else _) as [[res|]|]; [|done..].
    destruct (0 <? res); [|destruct (res <? 0)]; intros H%IH; simpl; lia.
Qed.

Lemma arena_tally noise fuel moves model_new model_ref cfg wins draws losses win_rate :
  arena noise fuel moves model_new model_ref cfg
  = Some (FOk (wins, draws, losses, win_rate)) →
  wins + draws + losses = Z.max 0 (ArenaConfig.games cfg)
  ∧ 0 <= wins ∧ 0 <= draws ∧ 0 <= losses
  ∧ ∃ w d g, py_float wins = FOk w ∧ py_float draws = FOk d
             ∧ py_float (Z.max 1 (ArenaConfig.games cfg)) = FOk g
             ∧ win_rate = ((w + 0.5 * d) / g)%float.
Proof.
  unfold arena. destruct (arena_loop _ _ _ _ _ _ _ _ _ _) as [[[[w0 d0] l0]|]|] eqn:Hloop;
    [|done..].
  apply arena_loop_tally in Hloop.
  unfold py_range_z in Hloop. rewrite length_map, length_seq in Hloop.
  destruct (py_float d0) as [d|] eqn:Hd; [|done]. cbn [mbind fresult_bind].
  destruct (py_float w0) as [w|] eqn:Hw; [|done]. cbn [mbind fresult_bind].
  destruct (py_float (Z.max 1 _)) as [g|] eqn:Hg; [|done]. cbn [mbind fresult_bind].
  intros [= <- <- <- <-]. split; [lia|]. split; [lia|]. split; [lia|]. split; [lia|].
  exists w, d, g. by rewrite Hw, Hd.
Qed.

(** * Further properties: the rules engine *)

(** The position after the moves 0, 2, 1, 0 from the initial one: Black's
    fourth move drops its last stone on White's pit 1, which then holds 3, and
    takes it as a tuzdyk. *)
Definition tuzdyk_position : TogyzKumalakState :=
  {| pits := ([0; 1; 11; 11; 11; 11; 11; 11; 11], [1; 11; 1; 11; 11; 11; 11; 11; 11]);
     kazans := (2, 3);
     tuzdyk_indices := (None, Some 0);
     player_to_move := WHITE;
     move_number := 5 |}.

Lemma tuzdyk_position_reachable : reachable tuzdyk_position.
Proof.
  assert (Hstep : ∀ s a s', reachable s → bool_decide (a ∈ legal_moves s) = true →
                            apply_move s a = Ok s' → reachable s').
  { intros s a s' Hs Ha%bool_decide_eq_true_1 Hmove.
    eapply reachable_move; [done| |done]. by apply list_elem_of_In. }
  pose proof (Hstep initial 0
                (mkState ([1; 10; 10; 10; 10; 10; 10; 10; 10], replicate 9 9)
                         (0, 0) (None, None) BLACK 2)
                reachable_initial eq_refl eq_refl) as H1.
  pose proof (Hstep _ 2
                (mkState ([2; 11; 10; 10; 10; 10; 10; 10; 10],
                          [9; 9; 1; 10; 10; 10; 10; 10; 10])
                         (0, 0) (None, None) WHITE 3)
                H1 eq_refl eq_refl) as H2.
  pose proof (Hstep _ 1
                (mkState ([2; 1; 11; 11; 11; 11; 11; 11; 11],
                          [10; 10; 0; 10; 10; 10; 10; 10; 10])
                         (2, 0) (None, None) BLACK 4)
                H2 eq_refl eq_refl) as H3.
  exact (Hstep _ 0 tuzdyk_position H3 eq_refl eq_refl).
Qed.

(** X1 — [legal_moves] lists, in ascending order and without repetition,
    exactly the indices of the mover's pits that hold a stone, and
    [has_legal_move] answers whether that list is not empty. *)
Theorem X1_legal_moves (s : TogyzKumalakState) :
  StronglySorted Z.lt (legal_moves s)
  ∧ (∀ a, In a (legal_moves s) ↔
          0 <= a ∧ ∃ v, sel (player_to_move s) (pits s) !! Z.to_nat a = Some v ∧ 0 < v)
  ∧ (has_legal_move s = true ↔ legal_moves s ≠ []).
Proof.
  split; [apply legal_moves_sorted|]. split; [apply legal_moves_lookup|].
  apply has_legal_move_spec.
Qed.

(** X2 — The outcome of [apply_move] by pit index, on rows of nine pits.  An
    index from -9 to 8 is one Python accepts (a negative one counts from the
    end of the row): the call returns a state when the pit it names holds a
    stone, and raises [ValueError] when it does not.  Every other index raises
    [IndexError]. *)
Theorem X2_apply_move_by_index (s : TogyzKumalakState) (a : Z) :
  well_shaped s →
  match py_get (sel (player_to_move s) (pits s)) a with
  | Ok n =>
      -9 <= a <= 8
      ∧ if 0 <? n then ∃ s', apply_move s a = Ok s' else apply_move s a = Raise ValueError
  | Raise e => (a < -9 ∨ 8 < a) ∧ e = IndexError ∧ apply_move s a = Raise IndexError
  end.
Proof.
  intros Hsh.
  assert (Hlen : length (sel (player_to_move s) (pits s)) = 9%nat).
  { destruct Hsh. by destruct (player_to_move s). }
  destruct (decide (-9 <= a <= 8)) as [Hin|Hout].
  - destruct (py_get_valid (sel (player_to_move s) (pits s)) a) as [n Hn]; [lia|].
    rewrite Hn. split; [done|]. destruct (Z.ltb_spec 0 n).
    + by eapply apply_move_accepts.
    + by eapply apply_move_rejects_empty.
  - unfold py_get. rewrite Hlen, py_index_invalid by lia.
    split; [lia|]. split; [done|]. apply apply_move_index_error; [done|lia].
Qed.

Lemma X2_apply_move_by_index_witness :
  match py_get (sel (player_to_move initial) (pits initial)) (-3) with
  | Ok n =>
      -9 <= -3 <= 8
      ∧ if 0 <? n then ∃ s', apply_move initial (-3) = Ok s'
        else apply_move initial (-3) = Raise ValueError
  | Raise e =>
      (-3 < -9 ∨ 8 < -3) ∧ e = IndexError ∧ apply_move initial (-3) = Raise IndexError
  end.
Proof. apply (X2_apply_move_by_index initial (-3)). split; reflexivity. Defined.

(** X3 — What a move keeps and what it changes.  Whenever [apply_move]
    returns a state: the turn passes to the other player, the move number
    grows by one, each row keeps its length, the stones on the board and in
    the kazans keep their total, no kazan shrinks, and a board without
    negative counts stays so. *)
Theorem X3_apply_move_frame (s : TogyzKumalakState) (a : Z) (s' : TogyzKumalakState) :
  apply_move s a = Ok s' →
  player_to_move s' = opponent_of (player_to_move s)
  ∧ move_number s' = move_number s + 1
  ∧ length (fst (pits s')) = length (fst (pits s))
  ∧ length (snd (pits s')) = length (snd (pits s))
  ∧ total_seeds s' = total_seeds s
  ∧ fst (kazans s) <= fst (kazans s') ∧ snd (kazans s) <= snd (kazans s')
  ∧ (rows_nonneg (pits s) → rows_nonneg (pits s')).
Proof.
  intros Hmove. pose proof (apply_move_conserves _ _ _ Hmove) as Htot.
  pose proof (apply_move_kazans _ _ _ Hmove) as [Hkw Hkb].
  pose proof (apply_move_shape _ _ _ Hmove) as [[Hlw Hlb] Hnn].
  revert Hmove. unfold apply_move.
  destruct (sow_phase s a) as [[[p1 k1] last]|]; [|done]. cbn [mbind result_bind].
  intros (_ & _ & _ & Hturn & Hmv)%settle_spec. repeat apply conj; assumption.
Qed.

Lemma X3_apply_move_frame_witness :
  player_to_move after_opening = opponent_of (player_to_move initial)
  ∧ move_number after_opening = move_number initial + 1
  ∧ length (fst (pits after_opening)) = length (fst (pits initial))
  ∧ length (snd (pits after_opening)) = length (snd (pits initial))
  ∧ total_seeds after_opening = total_seeds initial
  ∧ fst (kazans initial) <= fst (kazans after_opening)
  ∧ snd (kazans initial) <= snd (kazans after_opening)
  ∧ (rows_nonneg (pits initial) → rows_nonneg (pits after_opening)).
Proof. apply (X3_apply_move_frame initial 4 after_opening). reflexivity. Defined.

(** X4 — A tuzdyk is for good.  Whenever [apply_move] returns a state, each
    tuzdyk the position had is still there; the tuzdyk entries change in one
    way only: the mover, who had none, gets one, at an index other than 8 and
    other than the index of the opponent's tuzdyk. *)
Theorem X4_tuzdyk_kept (s : TogyzKumalakState) (a : Z) (s' : TogyzKumalakState) :
  apply_move s a = Ok s' →
  let mover := player_to_move s in
  (∀ owner i, sel owner (tuzdyk_indices s) = Some i →
              sel owner (tuzdyk_indices s') = Some i)
  ∧ (tuzdyk_indices s' = tuzdyk_indices s
     ∨ ∃ i, sel mover (tuzdyk_indices s) = None
            ∧ tuzdyk_indices s' = upd mover (Some i) (tuzdyk_indices s)
            ∧ i ≠ 8 ∧ sel (opponent_of mover) (tuzdyk_indices s) ≠ Some i).
Proof.
  intros Hmove mover. revert Hmove. unfold apply_move.
  destruct (sow_phase s a) as [[[p1 k1] last]|]; [|done]. cbn [mbind result_bind].
  intros [(_ & _ & ->)|(c & p2 & _ & _ & _ & _ & _ & _ & _ & Htuz)]%settle_cases;
    [by auto|].
  destruct Htuz as [->|(_ & Hcan & ->)]; [by auto|].
  apply can_create_tuzdyk_spec in Hcan as (Hnone & H8 & Hopp). fold mover in Hnone, Hopp.
  split; [|right; by exists (snd last)].
  intros owner i. rewrite sel_upd. fold mover.
  destruct (decide (owner = mover)) as [->|]; [congruence|done].
Qed.

Lemma X4_tuzdyk_kept_witness :
  (∀ owner i, sel owner (tuzdyk_indices tuzdyk_example) = Some i →
              sel owner (Some 0, @None Z) = Some i)
  ∧ ((Some 0, @None Z) = tuzdyk_indices tuzdyk_example
     ∨ ∃ i, sel WHITE (tuzdyk_indices tuzdyk_example) = None
            ∧ (Some 0, @None Z) = upd WHITE (Some i) (tuzdyk_indices tuzdyk_example)
            ∧ i ≠ 8 ∧ sel (opponent_of WHITE) (tuzdyk_indices tuzdyk_example) ≠ Some i).
Proof.
  apply (X4_tuzdyk_kept tuzdyk_example 8
           (mkState (replicate 9 0, [0; 0; 0; 0; 0; 0; 0; 4; 0]) (3, 0) (Some 0, None) BLACK 2)).
  reflexivity.
Defined.

(** X5 — The tuzdyks of a game.  In every state reachable from the initial
    one by legal moves, each tuzdyk index lies in 0..7, the two players'
    tuzdyk indices differ, and the pit of a tuzdyk is empty. *)
Theorem X5_reachable_tuzdyks (s : TogyzKumalakState) :
  reachable s →
  (∀ owner i, sel owner (tuzdyk_indices s) = Some i →
              0 <= i <= 7 ∧ sel (opponent_of owner) (pits s) !! Z.to_nat i = Some 0)
  ∧ (∀ i, fst (tuzdyk_indices s) = Some i → snd (tuzdyk_indices s) ≠ Some i).
Proof.
  intros [[Hrange Hdiff] Hempty]%reachable_tuzdyk. split; [|done].
  intros owner i Hi. split; [by eapply Hrange|by apply Hempty].
Qed.

Lemma X5_reachable_tuzdyks_witness :
  (∀ owner i, sel owner (tuzdyk_indices tuzdyk_position) = Some i →
              0 <= i <= 7
              ∧ sel (opponent_of owner) (pits tuzdyk_position) !! Z.to_nat i = Some 0)
  ∧ (∀ i, fst (tuzdyk_indices tuzdyk_position) = Some i →
          snd (tuzdyk_indices tuzdyk_position) ≠ Some i).
Proof. apply (X5_reachable_tuzdyks tuzdyk_position). apply tuzdyk_position_reachable. Defined.

(** X6 — How a game ends.  In a state reachable from the initial one by
    legal moves: a kazan of 82 or more decides the game for its side; a
    terminal state with both kazans below 82 has no legal move, its final
    scores sum to 162, and it is drawn exactly when they are 81 and 81. *)
Theorem X6_reachable_end (s : TogyzKumalakState) :
  reachable s →
  (82 <= fst (kazans s) → outcome s = Some WHITE)
  ∧ (82 <= snd (kazans s) → outcome s = Some BLACK)
  ∧ (is_terminal s = true → fst (kazans s) < 82 → snd (kazans s) < 82 →
       legal_moves s = []
       ∧ fst (final_scores s) + snd (final_scores s) = 162
       ∧ (outcome s = None ↔ final_scores s = (81, 81))).
Proof. apply reachable_end. Qed.

(** Three games played to their end, move by move: one White wins and one
    Black wins by a kazan of 82, and one that ends with the mover's row
    empty and both kazans below 82. *)
Fixpoint play_moves (moves : list Z) (s : TogyzKumalakState) : option TogyzKumalakState :=
  match moves with
  | [] => Some s
  | a :: moves' =>
      if bool_decide (a ∈ legal_moves s) then
        match apply_move s a with
        | Ok s' => play_moves moves' s'
        | Raise _ => None
        end
      else None
  end.

Lemma play_moves_reachable moves : ∀ s s',
  reachable s → play_moves moves s = Some s' → reachable s'.
Proof.
  induction moves as [|a moves IH]; intros s s' Hs; simpl; [by intros [= <-]|].
  case_bool_decide as Ha; [|done].
  destruct (apply_move s a) as [s1|] eqn:Hmove; [|done].
  apply IH. eapply reachable_move; [done| |done]. by apply list_elem_of_In.
Qed.

Definition white_win_end : TogyzKumalakState :=
  {| pits := ([0; 1; 2; 3; 4; 5; 1; 2; 3], [1; 5; 0; 17; 0; 14; 1; 1; 10]);
     kazans := (82, 10);
     tuzdyk_indices := (None, None);
     player_to_move := BLACK;
     move_number := 22 |}.

Lemma white_win_end_reachable : reachable white_win_end.
Proof.
  apply (play_moves_reachable
           [8; 0; 7; 0; 6; 0; 5; 0; 4; 0; 3; 0; 2; 0; 1; 1; 8; 0; 7; 0; 6] initial);
    [apply reachable_initial|reflexivity].
Qed.

Definition black_win_end : TogyzKumalakState :=
  {| pits := ([0; 41; 0; 0; 0; 15; 0; 0; 2], [2; 4; 2; 3; 1; 3; 1; 3; 3]);
     kazans := (0, 82);
     tuzdyk_indices := (None, Some 4);
     player_to_move := WHITE;
     move_number := 49 |}.

Lemma black_win_end_reachable : reachable black_win_end.
Proof.
  apply (play_moves_reachable
           [0; 8; 0; 7; 0; 6; 0; 5; 0; 4; 0; 3; 0; 2; 0; 1; 8; 0; 0; 8; 0; 7; 0;
            6; 0; 5; 0; 4; 0; 8; 0; 3; 2; 7; 0; 6; 0; 2; 2; 5; 7; 8; 2; 7; 3; 4;
            7; 6] initial);
    [apply reachable_initial|vm_compute; reflexivity].
Qed.

Definition atsyrau_end : TogyzKumalakState :=
  {| pits := ([0; 0; 0; 0; 0; 0; 0; 0; 0], [1; 0; 0; 1; 2; 1; 0; 1; 1]);
     kazans := (78, 77);
     tuzdyk_indices := (Some 6, Some 0);
     player_to_move := WHITE;
     move_number := 149 |}.

Lemma atsyrau_end_reachable : reachable atsyrau_end.
Proof.
  apply (play_moves_reachable
           [0; 0; 1; 1; 3; 2; 4; 3; 5; 5; 6; 6; 8; 7; 0; 8; 1; 0; 2; 1; 4; 2; 5;
            4; 7; 3; 6; 7; 8; 8; 0; 0; 1; 1; 2; 5; 3; 2; 5; 6; 6; 3; 8; 7; 7; 8;
            1; 0; 3; 1; 4; 2; 5; 5; 6; 3; 7; 4; 8; 7; 1; 8; 2; 1; 3; 3; 4; 5; 5;
            0; 6; 1; 7; 2; 8; 0; 1; 3; 2; 4; 3; 5; 4; 7; 5; 8; 6; 0; 7; 1; 8; 2;
            2; 3; 3; 4; 4; 5; 5; 0; 6; 1; 7; 2; 8; 3; 3; 4; 4; 5; 5; 0; 6; 1; 7;
            2; 8; 3; 4; 4; 5; 5; 6; 0; 7; 1; 8; 2; 5; 3; 6; 4; 7; 5; 8; 1; 6; 2;
            7; 3; 8; 4; 7; 5; 8; 2; 8; 3] initial);
    [apply reachable_initial|vm_compute; reflexivity].
Qed.

Lemma X6_reachable_end_witness :
  outcome white_win_end = Some WHITE
  ∧ outcome black_win_end = Some BLACK
  ∧ legal_moves atsyrau_end = []
  ∧ fst (final_scores atsyrau_end) + snd (final_scores atsyrau_end) = 162
  ∧ (outcome atsyrau_end = None ↔ final_scores atsyrau_end = (81, 81)).
Proof.
  split; [|split].
  - apply (X6_reachable_end white_win_end white_win_end_reachable). simpl. lia.
  - apply (X6_reachable_end black_win_end black_win_end_reachable). simpl. lia.
  - apply (X6_reachable_end atsyrau_end atsyrau_end_reachable);
      [reflexivity|simpl; lia|simpl; lia].
Defined.

(** X7 — The rules do not tell the two sides apart.  A move from the mirror
    image of a state gives the mirror image of the move's result, exceptions
    included; the mirror image has the same legal moves and is terminal when
    the state is; its final scores and its winner are those of the state with
    the sides exchanged. *)
Theorem X7_mirror_symmetry (s : TogyzKumalakState) :
  (∀ a, apply_move (mirror_state s) a = mirror_state <$> apply_move s a)
  ∧ legal_moves (mirror_state s) = legal_moves s
  ∧ is_terminal (mirror_state s) = is_terminal s
  ∧ final_scores (mirror_state s) = (snd (final_scores s), fst (final_scores s))
  ∧ outcome (mirror_state s) = opponent_of <$> outcome s.
Proof.
  split; [intros a; apply apply_move_mirror|]. split; [apply legal_moves_mirror|].
  split; [apply is_terminal_mirror|]. split; [apply final_scores_mirror|].
  apply outcome_mirror.
Qed.

(** * Further properties: canonical form, key and text *)

(** X8 — The canonical form.  [mirror_state] undoes itself;
    [canonicalize] returns a state with White to move, changes nothing when
    applied again, and gives a state and its mirror image the same form. *)
Theorem X8_canonical_form (s : TogyzKumalakState) :
  mirror_state (mirror_state s) = s
  ∧ player_to_move (canonicalize s) = WHITE
  ∧ canonicalize (canonicalize s) = canonicalize s
  ∧ canonicalize (mirror_state s) = canonicalize s.
Proof.
  split; [apply mirror_state_involutive|]. split; [apply canonicalize_mover|].
  split; [apply canonicalize_idempotent|apply canonicalize_mirror].
Qed.

(** X9 — What [state_key] tells apart.  Two states have the same key exactly
    when they agree on the pits, the kazans, the tuzdyks and the player to
    move: the move number is not part of the key.  Two states have the same
    key of their canonical forms, which is the key of the transposition
    table, exactly when the second has the key of the first or of the mirror
    image of the first. *)
Theorem X9_state_key_equal (s1 s2 : TogyzKumalakState) :
  (state_key s1 = state_key s2 ↔
     pits s1 = pits s2 ∧ kazans s1 = kazans s2
     ∧ tuzdyk_indices s1 = tuzdyk_indices s2 ∧ player_to_move s1 = player_to_move s2)
  ∧ (state_key (canonicalize s1) = state_key (canonicalize s2) ↔
       state_key s1 = state_key s2 ∨ state_key (mirror_state s1) = state_key s2).
Proof.
  split; [apply state_key_eq|]. split.
  - intros H. unfold canonicalize in H.
    destruct (decide (player_to_move s1 = WHITE)) as [H1|H1],
             (decide (player_to_move s2 = WHITE)) as [H2|H2]; auto.
    + right. apply state_key_mirror in H. by rewrite mirror_state_involutive in H.
    + left. apply state_key_mirror in H. by rewrite !mirror_state_involutive in H.
  - intros [H|H].
    + by apply state_key_canonicalize.
    + rewrite <- (canonicalize_mirror s1). by apply state_key_canonicalize.
Qed.

(** X10 — States that share a node of the table play alike.  When the
    canonical forms of two states have the same key, the two states have the
    same legal moves, are terminal together, have the same value as terminal
    leaves, and each move gives them successors that share a node again (or
    raises the same exception for both). *)
Theorem X10_shared_node_same_rules (s1 s2 : TogyzKumalakState) :
  state_key (canonicalize s1) = state_key (canonicalize s2) →
  legal_moves s1 = legal_moves s2
  ∧ is_terminal s1 = is_terminal s2
  ∧ (is_terminal s1 = true → ∀ self, _evaluate s1 self = _evaluate s2 self)
  ∧ ∀ a, (fun t => state_key (canonicalize t)) <$> apply_move s1 a
         = (fun t => state_key (canonicalize t)) <$> apply_move s2 a.
Proof.
  intros (Hlegal & Hterm & Hval & Hnext)%same_key_rules.
  split; [done|]. split; [done|]. split; [|exact Hnext].
  intros H1 self. rewrite !evaluate_terminal by congruence. by rewrite Hval.
Qed.

Lemma X10_shared_node_same_rules_witness :
  legal_moves after_opening
  = legal_moves (mkState (snd (pits after_opening), fst (pits after_opening)) (0, 10)
                         (None, None) WHITE 7)
  ∧ is_terminal after_opening
    = is_terminal (mkState (snd (pits after_opening), fst (pits after_opening)) (0, 10)
                           (None, None) WHITE 7)
  ∧ (is_terminal after_opening = true →
     ∀ self, _evaluate after_opening self
             = _evaluate (mkState (snd (pits after_opening), fst (pits after_opening))
                                  (0, 10) (None, None) WHITE 7) self)
  ∧ ∀ a, (fun t => state_key (canonicalize t)) <$> apply_move after_opening a
         = (fun t => state_key (canonicalize t))
           <$> apply_move (mkState (snd (pits after_opening), fst (pits after_opening))
                                   (0, 10) (None, None) WHITE 7) a.
Proof.
  apply (X10_shared_node_same_rules after_opening
           (mkState (snd (pits after_opening), fst (pits after_opening)) (0, 10)
                    (None, None) WHITE 7)).
  reflexivity.
Defined.

(** X11 — The states the text form brings back.  For a state whose numbers
    [str] converts (fewer than 4301 digits each): reading the text written for
    it returns that state when both rows are non-empty and hold no negative
    count, and raises [ValueError] otherwise (an empty row is written as an
    empty field, the minus sign of a negative count reads as a separator).
    The text of a state that is brought back is the text of no other such
    state. *)
Theorem X11_fen_round_trip_exact (s : TogyzKumalakState) :
  within_digit_limit s →
  deserialize_fen (serialize_fen s) = (if fen_safe s then Ok s else Raise ValueError)
  ∧ (fen_safe s = true ↔
       (fst (pits s) ≠ [] ∧ snd (pits s) ≠ []) ∧ rows_nonneg (pits s))
  ∧ (fen_safe s = true →
     ∀ s', within_digit_limit s' → serialize_fen s' = serialize_fen s → s' = s).
Proof.
  intros _. split; [apply fen_round_trip_cases|]. split.
  - apply fen_safe_spec.
  - intros Hs s' _ Htext. pose proof (fen_round_trip_cases s') as H'.
    rewrite Htext, fen_round_trip_cases, Hs in H'. destruct (fen_safe s'); congruence.
Qed.

Lemma X11_fen_round_trip_exact_witness :
  deserialize_fen (serialize_fen tuzdyk_position)
  = (if fen_safe tuzdyk_position then Ok tuzdyk_position else Raise ValueError)
  ∧ (fen_safe tuzdyk_position = true ↔
       (fst (pits tuzdyk_position) ≠ [] ∧ snd (pits tuzdyk_position) ≠ [])
       ∧ rows_nonneg (pits tuzdyk_position))
  ∧ (fen_safe tuzdyk_position = true →
     ∀ s', within_digit_limit s' → serialize_fen s' = serialize_fen tuzdyk_position →
           s' = tuzdyk_position).
Proof.
  apply (X11_fen_round_trip_exact tuzdyk_position).
  repeat constructor; vm_compute; reflexivity.
Defined.

(** * Further properties: the search *)

(** X12 — When the selection fails.  On a node whose children have visit
    counts that are not negative and sum to less than 2^63 - 1 (as those of
    every node of the search are not negative), [_select_child] either returns
    the action of one of the node's children or raises [AssertionError], and
    it raises exactly when no child has a score above -1e9: on a node without
    children, and on one whose scores are all NaN or at most -1e9. *)
Theorem X12_select_child_cases (c : float) (node : Node) :
  let total_visits := 1 + sumZ (map (fun kv => visit_count (snd kv)) (children node)) in
  let score := puct_score c total_visits in
  Forall (fun kv => 0 <= visit_count (snd kv)) (children node) →
  total_visits < 2 ^ 63 →
  (Forall (fun kv => ((-1e9) <? score (snd kv))%float = false) (children node)
   ∧ _select_child c node = Raise AssertionError)
  ∨ (Exists (fun kv => ((-1e9) <? score (snd kv))%float = true) (children node)
     ∧ ∃ a, _select_child c node = Ok a ∧ In a (map fst (children node))).
Proof. intros total_visits score _ _. apply select_child_cases. Qed.

Lemma X12_select_child_cases_witness :
  (Forall (fun kv =>
             ((-1e9) <? puct_score 1.5
                          (1 + sumZ (map (fun kv => visit_count (snd kv))
                                         (children expanded_root)))
                          (snd kv))%float = false)
          (children expanded_root)
   ∧ _select_child 1.5 expanded_root = Raise AssertionError)
  ∨ (Exists (fun kv =>
               ((-1e9) <? puct_score 1.5
                            (1 + sumZ (map (fun kv => visit_count (snd kv))
                                           (children expanded_root)))
                            (snd kv))%float = true)
            (children expanded_root)
     ∧ ∃ a, _select_child 1.5 expanded_root = Ok a
            ∧ In a (map fst (children expanded_root))).
Proof.
  apply (X12_select_child_cases 1.5 expanded_root).
  - vm_compute. repeat constructor; discriminate.
  - vm_compute. reflexivity.
Defined.

(** X13 — The policy has nine entries.  Whenever [search] returns, the list
    it returns has length 9, whatever the number of rows' pits, of children
    and of simulations. *)
Theorem X13_search_policy_length (noise : nat → float → list float) (fuel : nat)
    (s : TogyzKumalakState) (self : MCTS) (policy : list float) :
  returned (search noise fuel s self) = Some policy → length policy = 9%nat.
Proof.
  destruct (search noise fuel s self) as [pi self'| |] eqn:H; [|done..].
  intros [= <-]. by eapply search_length.
Qed.

Lemma X13_search_policy_length_witness :
  returned (search flat_noise 64 endgame_example fresh_engine)
  = Some [0; 0; 0; 0; 0; 0; 0; 1; 0]%float
  ∧ length [0; 0; 0; 0; 0; 0; 0; 1; 0]%float = 9%nat.
Proof.
  split; [vm_compute; reflexivity|].
  apply (X13_search_policy_length flat_noise 64 endgame_example fresh_engine).
  vm_compute. reflexivity.
Defined.

(** X14 — Every simulation is played to the end of the game.  The selection
    loop of [_simulate] only ends on a terminal state, so that the value a
    returning simulation backs up is the one of the final scores of that
    state: the value the evaluator gives is never used by the search, only
    its priors are. *)
Theorem X14_simulation_plays_out (fuel : nat) (root : TogyzKumalakState) (self : MCTS) :
  returned (_simulate fuel root self) = Some tt →
  ∃ path leaf self1,
    descend fuel (state_key (canonicalize root)) root []
            (engine_of (_get_or_create_node root self)) = Returns (path, leaf) self1
    ∧ is_terminal leaf = true
    ∧ _evaluate leaf self1 = Returns (terminal_value leaf) self1
    ∧ _simulate fuel root self = backpropagate (rev path) (terminal_value leaf) self1.
Proof.
  destruct (_simulate fuel root self) as [[] self'| |] eqn:Hsim; [|done..]. intros _.
  destruct (simulate_plays_out _ _ _ _ Hsim) as (path & leaf & s1 & s2 & Hd & Ht & He & Hb & ->).
  exists path, leaf, s1. by rewrite Hb.
Qed.

Lemma X14_simulation_plays_out_witness :
  ∃ path leaf self1,
    descend 64 (state_key (canonicalize endgame_example)) endgame_example []
            (engine_of (_get_or_create_node endgame_example fresh_engine))
    = Returns (path, leaf) self1
    ∧ is_terminal leaf = true
    ∧ _evaluate leaf self1 = Returns (terminal_value leaf) self1
    ∧ _simulate 64 endgame_example fresh_engine
      = backpropagate (rev path) (terminal_value leaf) self1.
Proof.
  apply (X14_simulation_plays_out 64 endgame_example fresh_engine).
  vm_compute. reflexivity.
Defined.

(** X15 — The nodes of the table.  Through a call of [search], however it
    ends, every node of the table keeps the prior 1.0, the visit count 0 and
    the value sum 0.0 it was created with, and stays filed under the canonical
    key of the state it stores.  A fresh engine has an empty table. *)
Theorem X15_table_nodes_filed (noise : nat → float → list float) (fuel : nat)
    (s : TogyzKumalakState) (self : MCTS) :
  (∀ k n, _table self !! k = Some n →
          prior n = 1%float ∧ visit_count n = 0 ∧ value_sum n = 0%float
          ∧ ∃ st, state n = Some st ∧ state_key (canonicalize st) = k) →
  ∀ k n, _table (engine_of (search noise fuel s self)) !! k = Some n →
         prior n = 1%float ∧ visit_count n = 0 ∧ value_sum n = 0%float
         ∧ ∃ st, state n = Some st ∧ state_key (canonicalize st) = k.
Proof. apply search_keeps_filed. Qed.

Lemma X15_table_nodes_filed_witness :
  ∃ n, _table (engine_of (search flat_noise 64 endgame_example fresh_engine))
         !! state_key (canonicalize endgame_example) = Some n
       ∧ prior n = 1%float ∧ visit_count n = 0 ∧ value_sum n = 0%float
       ∧ ∃ st, state n = Some st
               ∧ state_key (canonicalize st) = state_key (canonicalize endgame_example).
Proof.
  destruct (_table (engine_of (search flat_noise 64 endgame_example fresh_engine))
              !! state_key (canonicalize endgame_example)) as [n|] eqn:E;
    [|vm_compute in E; discriminate].
  exists n. split; [reflexivity|].
  apply (X15_table_nodes_filed flat_noise 64 endgame_example fresh_engine); [|exact E].
  intros k n' H. simpl in H. rewrite lookup_empty in H. discriminate.
Defined.

(** X16 — The entries of [children].  Through a call of [search], however it
    ends, every entry of the [children] of a node of the table has no children
    of its own, stores no state, and has a visit count that is not negative. *)
Theorem X16_child_entries (noise : nat → float → list float) (fuel : nat)
    (s : TogyzKumalakState) (self : MCTS) :
  (∀ k n, _table self !! k = Some n →
          Forall (fun kv => children (snd kv) = [] ∧ state (snd kv) = None
                            ∧ 0 <= visit_count (snd kv)) (children n)) →
  ∀ k n, _table (engine_of (search noise fuel s self)) !! k = Some n →
         Forall (fun kv => children (snd kv) = [] ∧ state (snd kv) = None
                           ∧ 0 <= visit_count (snd kv)) (children n).
Proof. apply children_ok_search. Qed.

Lemma X16_child_entries_witness :
  ∃ n, _table (engine_of (search flat_noise 64 endgame_example fresh_engine))
         !! state_key (canonicalize endgame_example) = Some n
       ∧ Forall (fun kv => children (snd kv) = [] ∧ state (snd kv) = None
                           ∧ 0 <= visit_count (snd kv)) (children n).
Proof.
  destruct (_table (engine_of (search flat_noise 64 endgame_example fresh_engine))
              !! state_key (canonicalize endgame_example)) as [n|] eqn:E;
    [|vm_compute in E; discriminate].
  exists n. split; [reflexivity|].
  apply (X16_child_entries flat_noise 64 endgame_example fresh_engine)
    with (k := state_key (canonicalize endgame_example)); [|exact E].
  intros k n' H. simpl in H. rewrite lookup_empty in H. discriminate.
Defined.

(** X17 — A search from a terminal position.  When the root is terminal, its
    node (if the table has one) has no children and rows have at most nine
    pits, [search] with any number of simulations returns, without a call of
    the evaluator and with no change to the table but the node of the root,
    the fallback policy: [1.0 / len(legal)] at each legal move and 0.0
    elsewhere, which is all zeros when the mover has no stone. *)
Theorem X17_search_terminal_root (noise : nat → float → list float) (fuel : nat)
    (s : TogyzKumalakState) (self : MCTS) :
  is_terminal s = true →
  (∀ n, _table self !! state_key (canonicalize s) = Some n → children n = []) →
  (length (sel (player_to_move s) (pits s)) <= 9)%nat →
  ∃ policy,
    search noise (S fuel) s self = Returns policy (engine_of (_get_or_create_node s self))
    ∧ evaluator_calls (engine_of (_get_or_create_node s self)) = evaluator_calls self
    ∧ length policy = 9%nat
    ∧ ∀ a, 0 <= a < 9 →
        policy !! Z.to_nat a
        = Some (if bool_decide (a ∈ legal_moves s)
                then (1 / float_of_int (Z.of_nat (length (legal_moves s))))%float
                else 0%float).
Proof.
  intros Hterm Hleaf Hlen. rewrite (search_terminal_root _ _ _ _ Hterm Hleaf).
  destruct (fill_uniform_spec (legal_moves s) (legal_moves s) (replicate 9 0%float))
    as (policy & Hfill & Hplen & Hpolicy).
  { eapply Forall_impl; [apply legal_moves_below|]. simpl. intros a Ha. lia. }
  exists policy. rewrite Hfill. split; [done|]. split.
  { unfold _get_or_create_node. by destruct (_table self !! _). }
  split; [by rewrite Hplen, length_replicate|]. intros a Ha. rewrite (Hpolicy a) by lia.
  rewrite lookup_replicate_2 by lia. by case_bool_decide.
Qed.

Lemma X17_search_terminal_root_witness :
  ∃ policy,
    search flat_noise 1 atsyrau_example fresh_engine
    = Returns policy (engine_of (_get_or_create_node atsyrau_example fresh_engine))
    ∧ evaluator_calls (engine_of (_get_or_create_node atsyrau_example fresh_engine))
      = evaluator_calls fresh_engine
    ∧ length policy = 9%nat
    ∧ ∀ a, 0 <= a < 9 →
        policy !! Z.to_nat a
        = Some (if bool_decide (a ∈ legal_moves atsyrau_example)
                then (1 / float_of_int (Z.of_nat (length (legal_moves atsyrau_example))))%float
                else 0%float).
Proof.
  apply (X17_search_terminal_root flat_noise 0 atsyrau_example fresh_engine).
  - reflexivity.
  - intros n H. simpl in H. rewrite lookup_empty in H. discriminate.
  - simpl. lia.
Defined.

(** X18 — The expansion of a node.  On a state that is not terminal, with a
    node that has no children yet and a policy long enough for the mover's
    row, [_ensure_expanded] calls the evaluator once, on the canonical form of
    the state, and gives the node one child per legal move, in ascending
    order, each with the prior the policy has at that index and no visit. *)
Theorem X18_ensure_expanded_fresh (k : Key) (s : TogyzKumalakState) (self : MCTS)
    (n : Node) :
  _table self !! k = Some n → children n = [] → is_terminal s = false →
  (length (sel (player_to_move s) (pits s))
   <= length (fst (inference_fn self (canonicalize s))))%nat →
  ∃ self',
    _ensure_expanded k s self = Returns tt self'
    ∧ evaluator_calls self' = canonicalize s :: evaluator_calls self
    ∧ _table self'
      = <[k := mkNode (prior n) (state n) (visit_count n) (value_sum n)
                 (map (fun a => (a, mkNode (default 0%float
                                              (fst (inference_fn self (canonicalize s))
                                                 !! Z.to_nat a))
                                           None 0 0%float []))
                      (legal_moves s))]>
          (_table self).
Proof. apply ensure_expanded_fresh. Qed.

Definition rooted_engine : MCTS :=
  engine_of (_get_or_create_node initial (__init__ biased_inference 1.5 0.25 0.25 0)).

Lemma X18_ensure_expanded_fresh_witness :
  ∃ self',
    _ensure_expanded (state_key (canonicalize initial)) initial rooted_engine
    = Returns tt self'
    ∧ evaluator_calls self' = canonicalize initial :: evaluator_calls rooted_engine
    ∧ _table self'
      = <[state_key (canonicalize initial) :=
            mkNode (prior (new_node initial)) (state (new_node initial))
                   (visit_count (new_node initial)) (value_sum (new_node initial))
                   (map (fun a => (a, mkNode (default 0%float
                                                (fst (inference_fn rooted_engine
                                                        (canonicalize initial))
                                                   !! Z.to_nat a))
                                             None 0 0%float []))
                        (legal_moves initial))]>
          (_table rooted_engine).
Proof.
  apply (X18_ensure_expanded_fresh (state_key (canonicalize initial)) initial rooted_engine
           (new_node initial)).
  - vm_compute. reflexivity.
  - reflexivity.
  - reflexivity.
  - vm_compute. lia.
Defined.

(** * Further properties: the features *)

(** X19 — The features depend on the canonical form only.  A state and its
    mirror image get the same result from [encode_features], exceptions
    included; the assertion that the canonical form has White to move never
    fails; and a returned list has 7 rows of 18 entries. *)
Theorem X19_encode_features_canonical (s : TogyzKumalakState) :
  encode_features (mirror_state s) = encode_features s
  ∧ encode_features s ≠ FRaise (Plain AssertionError)
  ∧ ∀ features, encode_features s = FOk features →
      length features = 7%nat ∧ Forall (fun row => length row = 18%nat) features.
Proof.
  split; [apply encode_features_mirror|]. split; [apply encode_features_assertion|].
  intros features. apply encode_features_shaped.
Qed.

(** X20 — The features of a state within range.  Let the canonical form of
    the state have at least nine pits in each row, tuzdyk indices in 0..8 and
    counts, kazans and move number that [float] converts.  Then
    [encode_features] returns: the mover's counts in columns 9..17 of row 0;
    the opponent's counts in columns 0..8 of row 1; a 1.0 at the column of the
    mover's tuzdyk in row 2, and at column 9 + the opponent's tuzdyk in row 3;
    the mover's kazan / 162, the opponent's kazan / 162 and
    min(1.0, move number / 400) along rows 4, 5 and 6; 0.0 elsewhere. *)
Theorem X20_encode_features_value (s : TogyzKumalakState) (fw fb : list float)
    (kw kb mv : float) :
  let c := canonicalize s in
  Forall2 (fun z f => py_float z = FOk f) (take 9 (fst (pits c))) fw → length fw = 9%nat →
  Forall2 (fun z f => py_float z = FOk f) (take 9 (snd (pits c))) fb → length fb = 9%nat →
  (∀ t, fst (tuzdyk_indices c) = Some t → 0 <= t <= 8) →
  (∀ t, snd (tuzdyk_indices c) = Some t → 0 <= t <= 8) →
  py_float (fst (kazans c)) = FOk kw → py_float (snd (kazans c)) = FOk kb →
  py_float (move_number c) = FOk mv →
  encode_features s
  = FOk [ replicate 9 0%float ++ fw;
          fb ++ replicate 9 0%float;
          one_hot (fst (tuzdyk_indices c));
          one_hot (Z.add 9 <$> snd (tuzdyk_indices c));
          replicate 18 (kw / 162)%float;
          replicate 18 (kb / 162)%float;
          replicate 18 (py_min 1 (mv / 400)) ].
Proof. apply encode_features_value. Qed.

Lemma X20_encode_features_value_witness :
  encode_features tuzdyk_position
  = FOk [ replicate 9 0%float ++ [0; 1; 11; 11; 11; 11; 11; 11; 11]%float;
          [1; 11; 1; 11; 11; 11; 11; 11; 11]%float ++ replicate 9 0%float;
          one_hot (fst (tuzdyk_indices (canonicalize tuzdyk_position)));
          one_hot (Z.add 9 <$> snd (tuzdyk_indices (canonicalize tuzdyk_position)));
          replicate 18 (2 / 162)%float;
          replicate 18 (3 / 162)%float;
          replicate 18 (py_min 1 (5 / 400)) ].
Proof.
  apply (X20_encode_features_value tuzdyk_position).
  - repeat constructor.
  - reflexivity.
  - repeat constructor.
  - reflexivity.
  - intros t [=].
  - intros t [= <-]. lia.
  - reflexivity.
  - reflexivity.
  - reflexivity.
Defined.

(** * Further properties: the callers of the search *)

(** X21 — The move of the agent.  Whenever [choose_move] returns an index,
    the text was read as a state and the search returned a policy of nine
    entries for it; the index is -1 when that state has no legal move, and
    otherwise a legal move whose policy entry no other legal move's entry
    exceeds (for a policy without NaN). *)
Theorem X21_choose_move_legal (load_model : option string → TogyzKumalakState → list float * float)
    (noise : nat → float → list float) (fuel : nat) (fen : string)
    (ckpt : option string) (simulations a : Z) :
  choose_move load_model noise fuel fen ckpt simulations = Some (Ok a) →
  ∃ state pi,
    deserialize_fen fen = Ok state
    ∧ returned (search noise fuel state
                  (__init__ (load_model ckpt) 1.5 0x1.3333333333333p-2 0.25 simulations))
      = Some pi
    ∧ length pi = 9%nat
    ∧ ((legal_moves state = [] ∧ a = -1)
       ∨ (In a (legal_moves state)
          ∧ ∃ pa, py_item pi a = Ok pa
                  ∧ (Forall (fun x => is_nan x = false) pi →
                     ∀ b pb, In b (legal_moves state) → py_item pi b = Ok pb →
                             (pa <? pb)%float = false))).
Proof. apply choose_move_cases. Qed.

Lemma X21_choose_move_legal_witness :
  ∃ state pi,
    deserialize_fen "W|0-0-0-0-0-0-0-1-1,1-0-0-0-0-0-0-0-1|79,79|-,-|120" = Ok state
    ∧ returned (search flat_noise 64 state
                  (__init__ dummy_inference 1.5 0x1.3333333333333p-2 0.25 2))
      = Some pi
    ∧ length pi = 9%nat
    ∧ ((legal_moves state = [] ∧ 7 = -1)
       ∨ (In 7 (legal_moves state)
          ∧ ∃ pa, py_item pi 7 = Ok pa
                  ∧ (Forall (fun x => is_nan x = false) pi →
                     ∀ b pb, In b (legal_moves state) → py_item pi b = Ok pb →
                             (pa <? pb)%float = false))).
Proof.
  apply (X21_choose_move_legal (fun _ => dummy_inference) flat_noise 64
           "W|0-0-0-0-0-0-0-1-1,1-0-0-0-0-0-0-0-1|79,79|-,-|120" None 2 7).
  vm_compute. reflexivity.
Defined.

(** X22 — The result of an arena game.  Whenever [play_game] returns, its
    loop has ended in a terminal state reached from the initial one by legal
    moves, and the result is read off that state: 1 when White's final score
    is the higher, -1 when Black's is, and 0 only at 81 to 81. *)
Theorem X22_play_game_result (noise : nat → nat → float → list float) (fuel moves : nat)
    (model_white model_black : TogyzKumalakState → list float * float)
    (cfg : ArenaConfig.t) (r : Z) :
  play_game noise fuel moves model_white model_black cfg = Some (Ok r) →
  ∃ final,
    play_loop noise fuel moves initial
      (__init__ model_white (ArenaConfig.c_puct cfg) (ArenaConfig.dirichlet_alpha cfg)
                (ArenaConfig.dirichlet_frac cfg) (ArenaConfig.simulations cfg))
      (__init__ model_black (ArenaConfig.c_puct cfg) (ArenaConfig.dirichlet_alpha cfg)
                (ArenaConfig.dirichlet_frac cfg) (ArenaConfig.simulations cfg))
    = Some (Ok final)
    ∧ reachable final ∧ is_terminal final = true
    ∧ (r = 1 ∧ snd (final_scores final) < fst (final_scores final)
       ∨ r = -1 ∧ fst (final_scores final) < snd (final_scores final)
       ∨ r = 0 ∧ final_scores final = (81, 81)).
Proof. apply play_game_result. Qed.

(** No simulation: each search returns the fallback policy. *)
Definition quick_config : ArenaConfig.t := ArenaConfig.mk 0 1.5 0.25 0.25 1.

Lemma X22_play_game_result_witness :
  ∃ final,
    play_loop (fun _ => flat_noise) 64 2000 initial
      (__init__ dummy_inference (ArenaConfig.c_puct quick_config)
                (ArenaConfig.dirichlet_alpha quick_config)
                (ArenaConfig.dirichlet_frac quick_config)
                (ArenaConfig.simulations quick_config))
      (__init__ dummy_inference (ArenaConfig.c_puct quick_config)
                (ArenaConfig.dirichlet_alpha quick_config)
                (ArenaConfig.dirichlet_frac quick_config)
                (ArenaConfig.simulations quick_config))
    = Some (Ok final)
    ∧ reachable final ∧ is_terminal final = true
    ∧ (-1 = 1 ∧ snd (final_scores final) < fst (final_scores final)
       ∨ -1 = -1 ∧ fst (final_scores final) < snd (final_scores final)
       ∨ -1 = 0 ∧ final_scores final = (81, 81)).
Proof.
  apply (X22_play_game_result (fun _ => flat_noise) 64 2000 dummy_inference dummy_inference
           quick_config (-1)).
  vm_compute. reflexivity.
Defined.

(** X23 — What a text is read as.  Every state [deserialize_fen] returns has
    two rows that are not empty and hold no negative count, and is brought
    back by its own text: reading, writing and reading again gives the state
    of the first reading, whatever the spelling of the numbers was. *)
Theorem X23_read_text_is_stable (t : string) (s : TogyzKumalakState) :
  deserialize_fen t = Ok s →
  fst (pits s) ≠ [] ∧ snd (pits s) ≠ [] ∧ rows_nonneg (pits s)
  ∧ deserialize_fen (serialize_fen s) = Ok s.
Proof.
  intros Hsafe%deserialize_fen_safe. rewrite fen_round_trip_cases, Hsafe.
  apply fen_safe_spec in Hsafe as [[? ?] ?]. split; [done|]. split; [done|]. by split.
Qed.

Definition respelled_position : TogyzKumalakState :=
  {| pits := ([9; 9; 9; 10; 9; 9; 9; 9; 9], replicate 9 9);
     kazans := (-3, 0);
     tuzdyk_indices := (Some 7, None);
     player_to_move := BLACK;
     move_number := 0 |}.

Lemma X23_read_text_is_stable_witness :
  fst (pits respelled_position) ≠ [] ∧ snd (pits respelled_position) ≠ []
  ∧ rows_nonneg (pits respelled_position)
  ∧ deserialize_fen (serialize_fen respelled_position) = Ok respelled_position.
Proof.
  apply (X23_read_text_is_stable
           "B| 9-09-+9-1_0-9-9-9-9-9,9-9-9-9-9-9-9-9-9|-3,0|7,-|0" respelled_position).
  reflexivity.
Defined.

(** The engine of [expanded_root]: the initial position has its node, and
    the node its nine children. *)
Definition expanded_engine : MCTS :=
  engine_of ((k ← _get_or_create_node initial; _ensure_expanded k initial)
               (__init__ biased_inference 1.5 0.25 0.25 0)).

(** X24 — The noise at the root.  On a root whose children are in ascending
    order of action, [_add_root_dirichlet] leaves a root without children
    alone; otherwise it raises the [ValueError] of [random.gammavariate] when
    [dirichlet_alpha <= 0], does not return when [dirichlet_alpha] is NaN or
    2^1023 or more, and in every other case sets the prior of the i-th child
    to [(1 - dirichlet_frac) * prior + dirichlet_frac * eps_i] for the sample
    [eps] of one entry per child.  Visit counts, value sums, the other nodes
    and the record of evaluator calls stay as they are. *)
Theorem X24_root_noise (noise : nat → float → list float) (root : Key) (self : MCTS)
    (n : Node) :
  _table self !! root = Some n → StronglySorted Z.lt (map fst (children n)) →
  _add_root_dirichlet noise root self
  = if bool_decide (children n = []) then Returns tt self
    else if (dirichlet_alpha self <=? 0)%float then Raises ValueError self
    else if is_nan (dirichlet_alpha self) || (0x1p1023 <=? dirichlet_alpha self)%float
    then OutOfFuel self
    else Returns tt
           (with_table self
              (<[root := mkNode (prior n) (state n) (visit_count n) (value_sum n)
                                (mixed (dirichlet_frac self) (children n)
                                       (noise (length (children n))
                                              (dirichlet_alpha self)))]>
                 (_table self))).
Proof. apply add_root_dirichlet_mixed. Qed.

Lemma X24_root_noise_witness :
  _add_root_dirichlet flat_noise (state_key (canonicalize initial)) expanded_engine
  = if bool_decide (children expanded_root = []) then Returns tt expanded_engine
    else if (dirichlet_alpha expanded_engine <=? 0)%float
    then Raises ValueError expanded_engine
    else if is_nan (dirichlet_alpha expanded_engine)
            || (0x1p1023 <=? dirichlet_alpha expanded_engine)%float
    then OutOfFuel expanded_engine
    else Returns tt
           (with_table expanded_engine
              (<[state_key (canonicalize initial) :=
                   mkNode (prior expanded_root) (state expanded_root)
                          (visit_count expanded_root) (value_sum expanded_root)
                          (mixed (dirichlet_frac expanded_engine) (children expanded_root)
                                 (flat_noise (length (children expanded_root))
                                             (dirichlet_alpha expanded_engine)))]>
                 (_table expanded_engine))).
Proof.
  apply (X24_root_noise flat_noise (state_key (canonicalize initial)) expanded_engine
           expanded_root).
  - vm_compute. reflexivity.
  - vm_compute. repeat (constructor; try lia).
Defined.

(** X25 — The actions of a node.  Through a call of [search], however it
    ends, a node of the table that has children keeps the list of their
    actions: children are added to a node that has none, and never
    afterwards. *)
Theorem X25_actions_kept (noise : nat → float → list float) (fuel : nat)
    (s : TogyzKumalakState) (self : MCTS) (k : Key) (n : Node) :
  _table self !! k = Some n → children n ≠ [] →
  ∃ n', _table (engine_of (search noise fuel s self)) !! k = Some n'
        ∧ map fst (children n') = map fst (children n).
Proof. apply actions_kept_search. Qed.

Lemma X25_actions_kept_witness :
  ∃ n', _table (engine_of (search flat_noise 8 initial expanded_engine))
          !! state_key (canonicalize initial) = Some n'
        ∧ map fst (children n') = map fst (children expanded_root).
Proof.
  apply (X25_actions_kept flat_noise 8 initial expanded_engine
           (state_key (canonicalize initial)) expanded_root).
  - vm_compute. reflexivity.
  - vm_compute. discriminate.
Defined.

(** X26 — The tally of the arena.  Whenever [arena] returns, the wins, draws
    and losses it counts are not negative and sum to the number of games (0
    when that number is negative), and the win rate is
    [(wins + 0.5 * draws) / max(1, games)] in binary64 arithmetic. *)
Theorem X26_arena_tally (noise : Z → nat → nat → float → list float) (fuel moves : nat)
    (model_new model_ref : TogyzKumalakState → list float * float)
    (cfg : ArenaConfig.t) (wins draws losses : Z) (win_rate : float) :
  arena noise fuel moves model_new model_ref cfg
  = Some (FOk (wins, draws, losses, win_rate)) →
  wins + draws + losses = Z.max 0 (ArenaConfig.games cfg)
  ∧ 0 <= wins ∧ 0 <= draws ∧ 0 <= losses
  ∧ ∃ w d g, py_float wins = FOk w ∧ py_float draws = FOk d
             ∧ py_float (Z.max 1 (ArenaConfig.games cfg)) = FOk g
             ∧ win_rate = ((w + 0.5 * d) / g)%float.
Proof. apply arena_tally. Qed.

(** Two games without simulations. *)
Definition match_config : ArenaConfig.t := ArenaConfig.mk 0 1.5 0.25 0.25 2.

Lemma X26_arena_tally_witness :
  1 + 0 + 1 = Z.max 0 (ArenaConfig.games match_config)
  ∧ 0 <= 1 ∧ 0 <= 0 ∧ 0 <= 1
  ∧ ∃ w d g, py_float 1 = FOk w ∧ py_float 0 = FOk d
             ∧ py_float (Z.max 1 (ArenaConfig.games match_config)) = FOk g
             ∧ 0.5%float = ((w + 0.5 * d) / g)%float.
Proof.
  apply (X26_arena_tally (fun _ _ => flat_noise) 64 2000 dummy_inference dummy_inference
           match_config 1 0 1 0.5%float).
  vm_compute. reflexivity.
Defined.
